(** * A two-level cache hierarchy simulator (cache.c), embedded and verified

    The simulator keeps, for each of the three caches (L1 instruction, L1
    data, shared L2), one array of tag rows and one array of recency rows,
    nine statistics counters, and a one-shot eviction signal that the L2
    leaves behind for the L1 that called it.

    Embedding conventions.
    - [uint32_t] and [uint64_t] values are integers in [Z]; every C operation
      that can wrap is written with [wrap32] or [wrap64].
    - [uint32_t**] storage is a [list (list Z)]: the outer list is the array
      of row pointers, each inner list one [calloc]ed row.  Rows never alias.
    - A read or write outside an array is undefined behaviour in C; the
      access functions therefore live in the [option] monad and answer [None]
      exactly when the C code would index out of bounds (or take [log2] of a
      zero block size).
    - The process-wide configuration variables, which cache.c only reads, are
      gathered in the record [config]; the variables it writes form [state]. *)

From Stdlib Require Import ZArith Lia Bool.
From stdpp Require Import base tactics option list.

Local Open Scope Z_scope.

(** ** Machine arithmetic *)

Definition wrap32 (z : Z) : Z := z mod 2 ^ 32.
Definition wrap64 (z : Z) : Z := z mod 2 ^ 64.

Definition UINT32_MAX : Z := 4294967295.

(** [0x80000000], the bit the code ors into every stored tag. *)
Definition VALID_BIT : Z := 2147483648.

(** [uint32_t w = log2(x)]: the double is truncated towards zero, which for
    [x >= 1] is the position of the highest set bit.  [log2(0)] is minus
    infinity, whose conversion to an unsigned integer is undefined. *)
Definition log2 (x : Z) : option Z :=
  if decide (0 < x) then Some (Z.log2 x) else None.

(** ** Configuration and state *)

Record config : Type := Config {
  icacheSets : Z;  icacheAssoc : Z;  icacheHitTime : Z;
  dcacheSets : Z;  dcacheAssoc : Z;  dcacheHitTime : Z;
  l2cacheSets : Z; l2cacheAssoc : Z; l2cacheHitTime : Z;
  inclusive : Z;
  blocksize : Z;
  memspeed : Z
}.

Record state : Type := State {
  icacheRefs : Z;  icacheMisses : Z;  icachePenalties : Z;
  dcacheRefs : Z;  dcacheMisses : Z;  dcachePenalties : Z;
  l2cacheRefs : Z; l2cacheMisses : Z; l2cachePenalties : Z;
  l2_did_evict : bool;
  l2_evicted_addr : Z;
  l1i_tag_storage : list (list Z);
  l1i_lru_storage : list (list Z);
  l1d_tag_storage : list (list Z);
  l1d_lru_storage : list (list Z);
  l2_tag_storage : list (list Z);
  l2_lru_storage : list (list Z)
}.

(** ** Array helpers *)

(** [a[i] = v], undefined when [i] is outside the array. *)
Definition store {A : Type} (a : list A) (i : nat) (v : A) : option (list A) :=
  if decide (i < length a)%nat then Some (<[i := v]> a) else None.

(** One aging step of a recency counter.  The L1 loops guard the increment
    with [!= UINT32_MAX] ([sentinel = true]); the L2 loops increment
    unconditionally ([sentinel = false]), so the counter wraps. *)
Definition age (sentinel : bool) (v : Z) : Z :=
  if sentinel && bool_decide (v = UINT32_MAX) then v else wrap32 (v + 1).

(** The tag scan [for (i = 0; i < assoc; i++) if (tags[i] == tag) ...]:
    the way of the first matching slot, if any. *)
Fixpoint find_tag (tags : list Z) (tag : Z) (i n : nat) : option (option nat) :=
  match n with
  | O => Some None
  | S n' =>
      t ← tags !! i;
      if decide (t = tag) then Some (Some i) else find_tag tags tag (S i) n'
  end.

(** The aging loop of the hit path. *)
Fixpoint bump (sentinel : bool) (lru : list Z) (j n : nat) : option (list Z) :=
  match n with
  | O => Some lru
  | S n' =>
      v ← lru !! j;
      bump sentinel (<[j := age sentinel v]> lru) (S j) n'
  end.

(** The victim search of the miss path, which ages every slot it visits:
    [index_to_evict] and [largest] are the loop's two locals. *)
Fixpoint scan (sentinel : bool) (lru : list Z) (i n : nat)
    (index_to_evict : nat) (largest : Z) : option (nat * list Z) :=
  match n with
  | O => Some (index_to_evict, lru)
  | S n' =>
      v ← lru !! i;
      let lru' := <[i := age sentinel v]> lru in
      if decide (largest < v)
      then scan sentinel lru' (S i) n' i v
      else scan sentinel lru' (S i) n' index_to_evict largest
  end.

(** The inclusion loop of an L1: every slot of [set_to_check] equal to
    [evicted_tag] is cleared and its recency, in row [evicted_index] of the
    recency storage, set to the sentinel. *)
Fixpoint invalidate (set_to_check : list Z) (lrus : list (list Z))
    (evicted_index : nat) (evicted_tag : Z) (i n : nat)
    : option (list Z * list (list Z)) :=
  match n with
  | O => Some (set_to_check, lrus)
  | S n' =>
      t ← set_to_check !! i;
      if decide (t = evicted_tag) then
        row ← lrus !! evicted_index;
        row' ← store row i UINT32_MAX;
        invalidate (<[i := 0]> set_to_check) (<[evicted_index := row']> lrus)
                   evicted_index evicted_tag (S i) n'
      else invalidate set_to_check lrus evicted_index evicted_tag (S i) n'
  end.

(** ** Address decoding, as each access function spells it out *)

Definition index_of (addr blocksize_bitwidth sets : Z) : nat :=
  Z.to_nat (Z.land (Z.shiftr addr blocksize_bitwidth) (wrap32 (sets - 1))).

Definition tag_of (addr blocksize_bitwidth index_bitwidth : Z) : Z :=
  Z.lor (Z.shiftr (Z.shiftr addr blocksize_bitwidth) index_bitwidth) VALID_BIT.

(** The address the L2 miss path writes to [l2_evicted_addr]:
    [((tags[index_to_evict] << bbw) << ibw) | (index_to_evict << bbw)].
    The left operand is a [uint32_t], the right one a [size_t] (64 bits), and
    the result is truncated to 32 bits by the assignment. *)
Definition evicted_address (victim : Z) (index_to_evict : nat)
    (blocksize_bitwidth index_bitwidth : Z) : Z :=
  wrap32 (Z.lor
    (wrap32 (Z.shiftl (wrap32 (Z.shiftl victim blocksize_bitwidth)) index_bitwidth))
    (wrap64 (Z.shiftl (Z.of_nat index_to_evict) blocksize_bitwidth))).

(** ** Field updates *)

Definition with_l2_signal (e : bool) (a : Z) (s : state) : state :=
  State (icacheRefs s) (icacheMisses s) (icachePenalties s)
        (dcacheRefs s) (dcacheMisses s) (dcachePenalties s)
        (l2cacheRefs s) (l2cacheMisses s) (l2cachePenalties s)
        e a
        (l1i_tag_storage s) (l1i_lru_storage s)
        (l1d_tag_storage s) (l1d_lru_storage s)
        (l2_tag_storage s) (l2_lru_storage s).

Definition with_icache_stats (r m p : Z) (s : state) : state :=
  State r m p
        (dcacheRefs s) (dcacheMisses s) (dcachePenalties s)
        (l2cacheRefs s) (l2cacheMisses s) (l2cachePenalties s)
        (l2_did_evict s) (l2_evicted_addr s)
        (l1i_tag_storage s) (l1i_lru_storage s)
        (l1d_tag_storage s) (l1d_lru_storage s)
        (l2_tag_storage s) (l2_lru_storage s).

Definition with_dcache_stats (r m p : Z) (s : state) : state :=
  State (icacheRefs s) (icacheMisses s) (icachePenalties s)
        r m p
        (l2cacheRefs s) (l2cacheMisses s) (l2cachePenalties s)
        (l2_did_evict s) (l2_evicted_addr s)
        (l1i_tag_storage s) (l1i_lru_storage s)
        (l1d_tag_storage s) (l1d_lru_storage s)
        (l2_tag_storage s) (l2_lru_storage s).

Definition with_l2cache_stats (r m p : Z) (s : state) : state :=
  State (icacheRefs s) (icacheMisses s) (icachePenalties s)
        (dcacheRefs s) (dcacheMisses s) (dcachePenalties s)
        r m p
        (l2_did_evict s) (l2_evicted_addr s)
        (l1i_tag_storage s) (l1i_lru_storage s)
        (l1d_tag_storage s) (l1d_lru_storage s)
        (l2_tag_storage s) (l2_lru_storage s).

Definition with_l1i (tags lrus : list (list Z)) (s : state) : state :=
  State (icacheRefs s) (icacheMisses s) (icachePenalties s)
        (dcacheRefs s) (dcacheMisses s) (dcachePenalties s)
        (l2cacheRefs s) (l2cacheMisses s) (l2cachePenalties s)
        (l2_did_evict s) (l2_evicted_addr s)
        tags lrus
        (l1d_tag_storage s) (l1d_lru_storage s)
        (l2_tag_storage s) (l2_lru_storage s).

Definition with_l1d (tags lrus : list (list Z)) (s : state) : state :=
  State (icacheRefs s) (icacheMisses s) (icachePenalties s)
        (dcacheRefs s) (dcacheMisses s) (dcachePenalties s)
        (l2cacheRefs s) (l2cacheMisses s) (l2cachePenalties s)
        (l2_did_evict s) (l2_evicted_addr s)
        (l1i_tag_storage s) (l1i_lru_storage s)
        tags lrus
        (l2_tag_storage s) (l2_lru_storage s).

Definition with_l2 (tags lrus : list (list Z)) (s : state) : state :=
  State (icacheRefs s) (icacheMisses s) (icachePenalties s)
        (dcacheRefs s) (dcacheMisses s) (dcachePenalties s)
        (l2cacheRefs s) (l2cacheMisses s) (l2cachePenalties s)
        (l2_did_evict s) (l2_evicted_addr s)
        (l1i_tag_storage s) (l1i_lru_storage s)
        (l1d_tag_storage s) (l1d_lru_storage s)
        tags lrus.

(** ** The cache functions *)

(** [init_cache]: the nine counters are zeroed, the six arrays allocated with
    zeroed rows, and [l2_did_evict] cleared.  [l2_evicted_addr] is not
    assigned and keeps whatever it held. *)
Definition init_cache (c : config) (s : state) : state :=
  let rows (sets assoc : Z) := replicate (Z.to_nat sets) (replicate (Z.to_nat assoc) 0) in
  State 0 0 0 0 0 0 0 0 0
        false (l2_evicted_addr s)
        (rows (icacheSets c) (icacheAssoc c)) (rows (icacheSets c) (icacheAssoc c))
        (rows (dcacheSets c) (dcacheAssoc c)) (rows (dcacheSets c) (dcacheAssoc c))
        (rows (l2cacheSets c) (l2cacheAssoc c)) (rows (l2cacheSets c) (l2cacheAssoc c)).

Definition l2cache_access (c : config) (s : state) (addr : Z) : option (state * Z) :=
  let s := with_l2_signal false (l2_evicted_addr s) s in
  if decide (l2cacheSets c = 0) then Some (s, memspeed c) else
  let s := with_l2cache_stats (wrap64 (l2cacheRefs s + 1)) (l2cacheMisses s) (l2cachePenalties s) s in
  blocksize_bitwidth ← log2 (blocksize c);
  let index := index_of addr blocksize_bitwidth (l2cacheSets c) in
  index_bitwidth ← log2 (l2cacheSets c);
  let tag := tag_of addr blocksize_bitwidth index_bitwidth in
  let assoc := Z.to_nat (l2cacheAssoc c) in
  tags ← l2_tag_storage s !! index;
  hit ← find_tag tags tag 0 assoc;
  match hit with
  | Some i =>
      lru ← l2_lru_storage s !! index;
      lru ← bump false lru 0 assoc;
      lru ← store lru i 0;
      Some (with_l2 (l2_tag_storage s) (<[index := lru]> (l2_lru_storage s)) s,
            l2cacheHitTime c)
  | None =>
      let s := with_l2cache_stats (l2cacheRefs s) (wrap64 (l2cacheMisses s + 1)) (l2cachePenalties s) s in
      lru_storage ← l2_lru_storage s !! index;
      '(index_to_evict, lru_storage) ← scan false lru_storage 0 assoc 0%nat 0;
      victim ← tags !! index_to_evict;
      let s :=
        if decide (Z.land victim VALID_BIT = 0) then s
        else with_l2_signal true
               (evicted_address victim index_to_evict blocksize_bitwidth index_bitwidth) s in
      tags ← store tags index_to_evict tag;
      lru_storage ← store lru_storage index_to_evict 0;
      let s := with_l2 (<[index := tags]> (l2_tag_storage s))
                       (<[index := lru_storage]> (l2_lru_storage s)) s in
      let s := with_l2cache_stats (l2cacheRefs s) (l2cacheMisses s)
                                  (wrap64 (l2cachePenalties s + memspeed c)) s in
      Some (s, wrap32 (l2cacheHitTime c + memspeed c))
  end.

Definition icache_access (c : config) (s : state) (addr : Z) : option (state * Z) :=
  if decide (icacheSets c = 0) then l2cache_access c s addr else
  let s := with_icache_stats (wrap64 (icacheRefs s + 1)) (icacheMisses s) (icachePenalties s) s in
  blocksize_bitwidth ← log2 (blocksize c);
  let index := index_of addr blocksize_bitwidth (icacheSets c) in
  index_bitwidth ← log2 (icacheSets c);
  let tag := tag_of addr blocksize_bitwidth index_bitwidth in
  let assoc := Z.to_nat (icacheAssoc c) in
  tags ← l1i_tag_storage s !! index;
  hit ← find_tag tags tag 0 assoc;
  match hit with
  | Some i =>
      lru ← l1i_lru_storage s !! index;
      lru ← bump true lru 0 assoc;
      lru ← store lru i 0;
      Some (with_l1i (l1i_tag_storage s) (<[index := lru]> (l1i_lru_storage s)) s,
            icacheHitTime c)
  | None =>
      let s := with_icache_stats (icacheRefs s) (wrap64 (icacheMisses s + 1)) (icachePenalties s) s in
      lru_storage ← l1i_lru_storage s !! index;
      '(index_to_evict, lru_storage) ← scan true lru_storage 0 assoc 0%nat 0;
      tags ← store tags index_to_evict tag;
      lru_storage ← store lru_storage index_to_evict 0;
      let s := with_l1i (<[index := tags]> (l1i_tag_storage s))
                        (<[index := lru_storage]> (l1i_lru_storage s)) s in
      '(s, l2_time) ← l2cache_access c s addr;
      s ← (if bool_decide (inclusive c ≠ 0) && l2_did_evict s then
             let evicted_index := index_of (l2_evicted_addr s) blocksize_bitwidth (icacheSets c) in
             let evicted_tag := tag_of (l2_evicted_addr s) blocksize_bitwidth index_bitwidth in
             set_to_check ← l1i_tag_storage s !! evicted_index;
             '(set_to_check, lrus) ←
               invalidate set_to_check (l1i_lru_storage s) evicted_index evicted_tag 0 assoc;
             Some (with_l1i (<[evicted_index := set_to_check]> (l1i_tag_storage s)) lrus s)
           else Some s);
      let s := with_icache_stats (icacheRefs s) (icacheMisses s)
                                 (wrap64 (icachePenalties s + l2_time)) s in
      Some (s, wrap32 (icacheHitTime c + l2_time))
  end.

Definition dcache_access (c : config) (s : state) (addr : Z) : option (state * Z) :=
  if decide (dcacheSets c = 0) then l2cache_access c s addr else
  let s := with_dcache_stats (wrap64 (dcacheRefs s + 1)) (dcacheMisses s) (dcachePenalties s) s in
  blocksize_bitwidth ← log2 (blocksize c);
  let index := index_of addr blocksize_bitwidth (dcacheSets c) in
  index_bitwidth ← log2 (dcacheSets c);
  let tag := tag_of addr blocksize_bitwidth index_bitwidth in
  let assoc := Z.to_nat (dcacheAssoc c) in
  tags ← l1d_tag_storage s !! index;
  hit ← find_tag tags tag 0 assoc;
  match hit with
  | Some i =>
      lru ← l1d_lru_storage s !! index;
      lru ← bump true lru 0 assoc;
      lru ← store lru i 0;
      Some (with_l1d (l1d_tag_storage s) (<[index := lru]> (l1d_lru_storage s)) s,
            dcacheHitTime c)
  | None =>
      let s := with_dcache_stats (dcacheRefs s) (wrap64 (dcacheMisses s + 1)) (dcachePenalties s) s in
      lru_storage ← l1d_lru_storage s !! index;
      '(index_to_evict, lru_storage) ← scan true lru_storage 0 assoc 0%nat 0;
      tags ← store tags index_to_evict tag;
      lru_storage ← store lru_storage index_to_evict 0;
      let s := with_l1d (<[index := tags]> (l1d_tag_storage s))
                        (<[index := lru_storage]> (l1d_lru_storage s)) s in
      '(s, l2_time) ← l2cache_access c s addr;
      s ← (if bool_decide (inclusive c ≠ 0) && l2_did_evict s then
             let evicted_index := index_of (l2_evicted_addr s) blocksize_bitwidth (dcacheSets c) in
             let evicted_tag := tag_of (l2_evicted_addr s) blocksize_bitwidth index_bitwidth in
             set_to_check ← l1d_tag_storage s !! evicted_index;
             '(set_to_check, lrus) ←
               invalidate set_to_check (l1d_lru_storage s) evicted_index evicted_tag 0 assoc;
             Some (with_l1d (<[evicted_index := set_to_check]> (l1d_tag_storage s)) lrus s)
           else Some s);
      let s := with_dcache_stats (dcacheRefs s) (dcacheMisses s)
                                 (wrap64 (dcachePenalties s + l2_time)) s in
      Some (s, wrap32 (dcacheHitTime c + l2_time))
  end.

(** ** Traces *)

(** What the driver feeds the hierarchy: an instruction fetch or a data
    access, each with its address. *)
Inductive access : Type :=
  | Instr (addr : Z)
  | Data (addr : Z).

Definition step (c : config) (s : state) (a : access) : option (state * Z) :=
  match a with
  | Instr addr => icache_access c s addr
  | Data addr => dcache_access c s addr
  end.

(** Replays a trace, collecting the latency of every access in order. *)
Fixpoint run (c : config) (s : state) (trace : list access) : option (state * list Z) :=
  match trace with
  | [] => Some (s, [])
  | a :: trace' =>
      '(s', t) ← step c s a;
      '(s'', ts) ← run c s' trace';
      Some (s'', t :: ts)
  end.

(** Any state to start from: [init_cache] overwrites all of it except
    [l2_evicted_addr]. *)
Definition blank : state :=
  State 0 0 0 0 0 0 0 0 0 false 0 [] [] [] [] [] [].

(** The statistics the reporting side reads. *)
Definition stats (s : state) : list Z :=
  [icacheRefs s; icacheMisses s; icachePenalties s;
   dcacheRefs s; dcacheMisses s; dcachePenalties s;
   l2cacheRefs s; l2cacheMisses s; l2cachePenalties s].

(** ** The tag check on its own

    Every access function starts with the same scan of one row.  [probe]
    isolates it: [Some (Some w)] is a hit in way [w], [Some None] a miss. *)

Definition probe (sets assoc : Z) (storage : list (list Z)) (c : config) (addr : Z)
    : option (option nat) :=
  blocksize_bitwidth ← log2 (blocksize c);
  index_bitwidth ← log2 sets;
  tags ← storage !! index_of addr blocksize_bitwidth sets;
  find_tag tags (tag_of addr blocksize_bitwidth index_bitwidth) 0 (Z.to_nat assoc).

Definition icache_probe (c : config) (s : state) : Z → option (option nat) :=
  probe (icacheSets c) (icacheAssoc c) (l1i_tag_storage s) c.
Definition dcache_probe (c : config) (s : state) : Z → option (option nat) :=
  probe (dcacheSets c) (dcacheAssoc c) (l1d_tag_storage s) c.
Definition l2cache_probe (c : config) (s : state) : Z → option (option nat) :=
  probe (l2cacheSets c) (l2cacheAssoc c) (l2_tag_storage s) c.

(** The row an address selects in a storage of [sets] rows. *)
Definition row_of (sets : Z) (storage : list (list Z)) (c : config) (addr : Z)
    : option (list Z) :=
  blocksize_bitwidth ← log2 (blocksize c);
  storage !! index_of addr blocksize_bitwidth sets.

(** ** Shapes and invariants *)

Definition uint32 (z : Z) : Prop := 0 ≤ z < 2 ^ 32.

(** A storage has one row per set and one slot per way. *)
Definition rows_ok (sets assoc : Z) (rows : list (list Z)) : Prop :=
  length rows = Z.to_nat sets ∧ Forall (λ row, length row = Z.to_nat assoc) rows.

Definition wf (c : config) (s : state) : Prop :=
  rows_ok (icacheSets c) (icacheAssoc c) (l1i_tag_storage s) ∧
  rows_ok (icacheSets c) (icacheAssoc c) (l1i_lru_storage s) ∧
  rows_ok (dcacheSets c) (dcacheAssoc c) (l1d_tag_storage s) ∧
  rows_ok (dcacheSets c) (dcacheAssoc c) (l1d_lru_storage s) ∧
  rows_ok (l2cacheSets c) (l2cacheAssoc c) (l2_tag_storage s) ∧
  rows_ok (l2cacheSets c) (l2cacheAssoc c) (l2_lru_storage s).

(** The configurations under which no access indexes out of bounds: a
    non-zero block size, and at least one way in every enabled level. *)
Definition config_ok (c : config) : Prop :=
  0 < blocksize c ∧
  0 ≤ icacheSets c ∧ (icacheSets c = 0 ∨ 0 < icacheAssoc c) ∧
  0 ≤ dcacheSets c ∧ (dcacheSets c = 0 ∨ 0 < dcacheAssoc c) ∧
  0 ≤ l2cacheSets c ∧ (l2cacheSets c = 0 ∨ 0 < l2cacheAssoc c).

(** A slot is valid when its flag bit is set: [tags[i] & 0x80000000]. *)
Definition valid (t : Z) : Prop := Z.land t VALID_BIT ≠ 0.

#[global] Instance valid_dec (t : Z) : Decision (valid t).
Proof. unfold valid. apply _. Defined.

Definition valid_tags (row : list Z) : list Z := filter valid row.

Definition set_ok (assoc : Z) (row : list Z) : Prop :=
  (length (valid_tags row) ≤ Z.to_nat assoc)%nat ∧ NoDup (valid_tags row).

Definition sets_ok (c : config) (s : state) : Prop :=
  Forall (set_ok (icacheAssoc c)) (l1i_tag_storage s) ∧
  Forall (set_ok (dcacheAssoc c)) (l1d_tag_storage s) ∧
  Forall (set_ok (l2cacheAssoc c)) (l2_tag_storage s).

(** The states a simulation can be in: those [init_cache] produces, closed
    under the three access functions. *)
Inductive reachable (c : config) : state → Prop :=
  | reach_init s0 : reachable c (init_cache c s0)
  | reach_icache s addr s' t :
      reachable c s → icache_access c s addr = Some (s', t) → reachable c s'
  | reach_dcache s addr s' t :
      reachable c s → dcache_access c s addr = Some (s', t) → reachable c s'
  | reach_l2cache s addr s' t :
      reachable c s → l2cache_access c s addr = Some (s', t) → reachable c s'.

(** On a hit the aging loop must not move a slot off the sentinel: every way
    other than the hit one that held [UINT32_MAX] still holds it. *)
Definition keeps_sentinel (row row' : list Z) (w : nat) : Prop :=
  ∀ j : nat, j ≠ w → row !! j = Some UINT32_MAX → row' !! j = Some UINT32_MAX.

(** The sum a full miss path is expected to cost: the hit time of every
    enabled level on the way down, plus main memory. *)
Definition enabled (sets hit_time : Z) : Z := if decide (sets = 0) then 0 else hit_time.

(** ** The two L1 caches side by side

    [icache_access] and [dcache_access] are the same text over different
    globals; [l1] picks one of them so that a statement can be made once. *)

Inductive l1 : Type := L1I | L1D.
Definition l1_access (lvl : l1) : config → state → Z → option (state * Z) :=
  match lvl with L1I => icache_access | L1D => dcache_access end.
Definition l1_probe (lvl : l1) : config → state → Z → option (option nat) :=
  match lvl with L1I => icache_probe | L1D => dcache_probe end.
Definition l1_sets (lvl : l1) : config → Z :=
  match lvl with L1I => icacheSets | L1D => dcacheSets end.
Definition l1_hit_time (lvl : l1) : config → Z :=
  match lvl with L1I => icacheHitTime | L1D => dcacheHitTime end.
Definition l1_lru_storage (lvl : l1) : state → list (list Z) :=
  match lvl with L1I => l1i_lru_storage | L1D => l1d_lru_storage end.

(** The recency row a hit in way [w] leaves behind. *)
Definition hit_row (sentinel : bool) (lru : list Z) (w : nat) : list Z :=
  <[w := 0]> (age sentinel <$> lru).

(** The state an L1 hit leaves behind: one more reference, one recency row
    replaced, everything else as it was. *)
Definition l1_after_hit (lvl : l1) (s : state) (index : nat) (row : list Z) : state :=
  match lvl with
  | L1I =>
      State (wrap64 (icacheRefs s + 1)) (icacheMisses s) (icachePenalties s)
            (dcacheRefs s) (dcacheMisses s) (dcachePenalties s)
            (l2cacheRefs s) (l2cacheMisses s) (l2cachePenalties s)
            (l2_did_evict s) (l2_evicted_addr s)
            (l1i_tag_storage s) (<[index := row]> (l1i_lru_storage s))
            (l1d_tag_storage s) (l1d_lru_storage s)
            (l2_tag_storage s) (l2_lru_storage s)
  | L1D =>
      State (icacheRefs s) (icacheMisses s) (icachePenalties s)
            (wrap64 (dcacheRefs s + 1)) (dcacheMisses s) (dcachePenalties s)
            (l2cacheRefs s) (l2cacheMisses s) (l2cachePenalties s)
            (l2_did_evict s) (l2_evicted_addr s)
            (l1i_tag_storage s) (l1i_lru_storage s)
            (l1d_tag_storage s) (<[index := row]> (l1d_lru_storage s))
            (l2_tag_storage s) (l2_lru_storage s)
  end.

(** A full miss path: every enabled level on the way down misses. *)
Definition full_miss (lvl : l1) (c : config) (s : state) (addr : Z) : Prop :=
  (l1_sets lvl c = 0 ∨ l1_probe lvl c s addr = Some None) ∧
  (l2cacheSets c = 0 ∨ l2cache_probe c s addr = Some None).

Definition full_miss_cost (lvl : l1) (c : config) : Z :=
  enabled (l1_sets lvl c) (l1_hit_time lvl c)
  + enabled (l2cacheSets c) (l2cacheHitTime c)
  + memspeed c.

Definition l1_stats (lvl : l1) (s : state) : list Z :=
  match lvl with
  | L1I => [icacheRefs s; icacheMisses s; icachePenalties s]
  | L1D => [dcacheRefs s; dcacheMisses s; dcachePenalties s]
  end.

Definition l2_stats (s : state) : list Z :=
  [l2cacheRefs s; l2cacheMisses s; l2cachePenalties s].

(** ** The eviction signal across calls *)

(** [stale a s]: the state [s] with another value left in
    [l2_evicted_addr]. *)
Definition stale (a : Z) (s : state) : state := with_l2_signal (l2_did_evict s) a s.

(** How a result changes when the run started with another stale address:
    not at all once the L2 has written the variable, and only in that
    variable before. *)
Definition restale {A} (a : Z) (r : state * A) : state * A :=
  (if l2_did_evict r.1 then r.1 else stale a r.1, r.2).

(** What is left of a run when [l2_evicted_addr] is disregarded. *)
Definition forget {A} (r : state * A) : state * A := (stale 0 r.1, r.2).

(** ** Concrete configurations and states *)

(** The configuration of the worked scenario: no I-cache, a 2-set 1-way
    D-cache (hit time 1), a 2-set 1-way inclusive L2 (hit time 5), 4-byte
    blocks, memory latency 50. *)
Definition scenario (icache_assoc icache_hit_time : Z) : config :=
  Config 0 icache_assoc icache_hit_time 2 1 1 2 1 5 1 4 50.

(** Both L1 caches off, a 2-set 1-way L2. *)
Definition two_set_l2 : config := Config 0 1 1 0 1 1 2 1 5 1 4 50.

(** A 4-set 1-way D-cache over a 2-set 1-way inclusive L2. *)
Definition wide_l1d : config := Config 0 1 1 4 1 1 2 1 5 1 4 50.

(** One 2-way set in each of the three caches, L2 inclusive. *)
Definition one_set_each : config := Config 1 2 1 1 2 1 1 2 5 1 4 50.

(** A D-cache set and an L2 set that hold block 0 in their first way and
    whose second way sits at the sentinel. *)
Definition at_sentinel : state :=
  State 0 0 0 0 0 0 0 0 0 false 0
        [[0; 0]] [[0; 0]]
        [[VALID_BIT; 0]] [[0; UINT32_MAX]]
        [[VALID_BIT; 0]] [[0; UINT32_MAX]].

Definition l1_tag_storage (lvl : l1) : state → list (list Z) :=
  match lvl with L1I => l1i_tag_storage | L1D => l1d_tag_storage end.
Definition l1_assoc (lvl : l1) : config → Z :=
  match lvl with L1I => icacheAssoc | L1D => dcacheAssoc end.

(** All a state holds for one L1: its counters and its two storages. *)
Definition l1_view (lvl : l1) (s : state) : list Z * list (list Z) * list (list Z) :=
  (l1_stats lvl s, l1_tag_storage lvl s, l1_lru_storage lvl s).

Definition other (lvl : l1) : l1 := match lvl with L1I => L1D | L1D => L1I end.

(** The flag bit of a slot is set by the very expression that computes the
    tag, so a stored value is either an untouched or cleared slot (0) or a
    flagged tag. *)
Definition slot_ok (t : Z) : Prop := t = 0 ∨ valid t.

Definition slots_ok (s : state) : Prop :=
  Forall (Forall slot_ok) (l1i_tag_storage s) ∧
  Forall (Forall slot_ok) (l1d_tag_storage s) ∧
  Forall (Forall slot_ok) (l2_tag_storage s).

(** The trace element that goes through a given L1. *)
Definition through (lvl : l1) (addr : Z) : access :=
  match lvl with L1I => Instr addr | L1D => Data addr end.
(** No valid tag anywhere in a storage. *)
Definition vacant (rows : list (list Z)) : Prop :=
  ∀ row v, row ∈ rows → v ∈ row → ¬ valid v.

(** Every recency counter is a [uint32_t]. *)
Definition lrus_ok (s : state) : Prop :=
  Forall (Forall uint32) (l1i_lru_storage s) ∧
  Forall (Forall uint32) (l1d_lru_storage s) ∧
  Forall (Forall uint32) (l2_lru_storage s).

(** Way [e] holds the largest recency of the row, and is the first way to
    do so: the slot the replacement policy gives up. *)
Definition first_oldest (lru : list Z) (e : nat) : Prop :=
  ∃ g, lru !! e = Some g ∧
       (∀ j v, lru !! j = Some v → v ≤ g) ∧
       (∀ j v, (j < e)%nat → lru !! j = Some v → v < g).

(** ** Filling a set *)

(** A set whose first ways hold [ts] and whose other ways were never
    written. *)
Definition filled (ts : list Z) (n : nat) : list Z := ts ++ replicate (n - length ts) 0.

(** The recency row of an [n]-way set whose first [k] ways were filled one
    after the other: way [j < k] was filled [k - 1 - j] accesses ago, and the
    untouched ways have been aged [k] times. *)
Definition recency (k n : nat) : list Z :=
  (λ j : nat, if decide (j < k)%nat then Z.of_nat (k - 1 - j) else Z.of_nat k) <$> seq 0 n.

(** A sequence of accesses through one entry point, latencies dropped. *)
Fixpoint visit (acc : state → Z → option (state * Z)) (s : state) (addrs : list Z)
    : option state :=
  match addrs with
  | [] => Some s
  | a :: addrs' => '(s', _) ← acc s a; visit acc s' addrs'
  end.

(** ** Counters modulo 2^64 *)

(** Two integers that a [uint64_t] counter cannot tell apart. *)
Definition same64 (a b : Z) : Prop := wrap64 a = wrap64 b.

(** What the counters of a hierarchy with all three levels enabled satisfy:
    every L1 miss is one L2 reference, every L2 miss costs [memspeed], and
    the penalties the two L1 caches accumulated are the time the L2 spent. *)
Definition balanced (c : config) (s : state) : Prop :=
  same64 (l2cacheRefs s) (icacheMisses s + dcacheMisses s) ∧
  same64 (l2cachePenalties s) (l2cacheMisses s * memspeed c) ∧
  same64 (icachePenalties s + dcachePenalties s)
         (l2cacheRefs s * l2cacheHitTime c + l2cachePenalties s).

(** How many accesses of a trace go to each entry point. *)
Fixpoint instr_count (trace : list access) : nat :=
  match trace with
  | [] => 0
  | Instr _ :: trace' => S (instr_count trace')
  | Data _ :: trace' => instr_count trace'
  end.

Fixpoint data_count (trace : list access) : nat :=
  match trace with
  | [] => 0
  | Instr _ :: trace' => data_count trace'
  | Data _ :: trace' => S (data_count trace')
  end.

(** ** More concrete configurations and states *)

(** [one_set_each] with a non-inclusive L2. *)
Definition exclusive : config := Config 1 2 1 1 2 1 1 2 5 0 4 50.

(** Every level enabled, none with a way to put a block in. *)
Definition zero_way : config := Config 1 0 1 1 0 1 1 0 5 1 4 50.

(** The state a trace leaves behind when replayed on a fresh hierarchy. *)
Definition after (c : config) (trace : list access) : state :=
  match run c (init_cache c blank) trace with
  | Some (s, _) => s
  | None => blank
  end.

(** The scenario hierarchy after one, and after two, data accesses. *)
Definition warm : state := Eval vm_compute in after (scenario 1 1) [Data 0].
Definition warm16 : state := Eval vm_compute in after (scenario 1 1) [Data 0; Data 16].

(** The L2-only hierarchy after one, and after two, accesses to its set 1. *)
Definition l2_warm : state := Eval vm_compute in after two_set_l2 [Data 4].
Definition l2_warm12 : state := Eval vm_compute in after two_set_l2 [Data 4; Data 12].

(** The non-inclusive hierarchy after one data access. *)
Definition exclusive_warm : state := Eval vm_compute in after exclusive [Data 0].

(** A one-way D-cache whose hit time is the largest [uint32_t], in front of
    a two-cycle memory; the other levels are disabled. *)
Definition slow_l1d : config := Config 0 1 1 1 1 4294967295 0 1 5 0 4 2.

(** [one_set_each] after three data blocks competed for the two ways of its
    sets. *)
Definition full_set : state :=
  Eval vm_compute in after one_set_each [Data 8; Data 12; Data 20].

(** The invariant every access maintains. *)
Definition Inv (c : config) (s : state) : Prop := wf c s ∧ sets_ok c s.

(** ** The loops *)

Section Loops.
Implicit Types (tags lru row : list Z) (i j n w : nat).

Lemma store_Some {A} (a : list A) i v a' :
  store a i v = Some a' → (i < length a)%nat ∧ a' = <[i := v]> a.
Proof. unfold store. case_decide; naive_solver. Qed.

Lemma store_lt {A} (a : list A) i v :
  (i < length a)%nat → store a i v = Some (<[i := v]> a).
Proof. unfold store. case_decide; [done | lia]. Qed.

Lemma find_tag_total tags tag i n :
  (i + n ≤ length tags)%nat → is_Some (find_tag tags tag i n).
Proof.
  revert i. induction n as [|n IH]; intros i Hlen; simpl; [by eexists|].
  destruct (lookup_lt_is_Some_2 tags i) as [t Ht]; [lia|].
  rewrite Ht. simpl. case_decide; [by eexists|]. apply IH. lia.
Qed.

Lemma find_tag_hit tags tag i n w :
  find_tag tags tag i n = Some (Some w) →
  tags !! w = Some tag ∧ (i ≤ w < i + n)%nat.
Proof.
  revert i. induction n as [|n IH]; intros i; simpl; [done|].
  destruct (tags !! i) as [t|] eqn:Ht; simpl; [|done].
  case_decide as Heq.
  - intros [= <-]. subst t. split; [done | lia].
  - intros Hf. apply IH in Hf as [? ?]. split; [done | lia].
Qed.

Lemma find_tag_miss tags tag i n j :
  find_tag tags tag i n = Some None → (i ≤ j < i + n)%nat → tags !! j ≠ Some tag.
Proof.
  revert i. induction n as [|n IH]; intros i; simpl; [lia|].
  destruct (tags !! i) as [t|] eqn:Ht; simpl; [|done].
  case_decide as Heq; [done|].
  intros Hf Hj. destruct (decide (j = i)) as [->|Hne].
  - rewrite Ht. congruence.
  - apply (IH (S i)); [done | lia].
Qed.

Lemma find_tag_absent tags tag n :
  find_tag tags tag 0 n = Some None → (length tags ≤ n)%nat → tag ∉ tags.
Proof.
  intros Hf Hlen [j Hj]%list_elem_of_lookup.
  apply (find_tag_miss _ _ _ _ j) in Hf; [done|].
  apply lookup_lt_Some in Hj. lia.
Qed.

(** What the aging loop leaves in every slot. *)
Lemma bump_spec sentinel lru j n lru' :
  bump sentinel lru j n = Some lru' →
  length lru' = length lru ∧
  ∀ k, lru' !! k =
       if decide (j ≤ k < j + n)%nat then age sentinel <$> lru !! k else lru !! k.
Proof.
  revert lru j. induction n as [|n IH]; intros lru j; simpl.
  - intros [= <-]. split; [done|]. intros k. case_decide; [lia | done].
  - destruct (lru !! j) as [v|] eqn:Hv; simpl; [|done].
    intros Hb. apply IH in Hb as [Hlen Hk]. rewrite length_insert in Hlen.
    split; [done|]. intros k. rewrite Hk.
    destruct (decide (k = j)) as [->|Hne].
    + rewrite (decide_False (P := (S j ≤ j < _)%nat)) by lia.
      rewrite (decide_True (P := (j ≤ j < _)%nat)) by lia.
      rewrite list_lookup_insert_eq by (by eapply lookup_lt_Some).
      by rewrite Hv.
    + rewrite list_lookup_insert_ne by done.
      repeat case_decide; (done || lia).
Qed.

Lemma bump_total sentinel lru j n :
  (j + n ≤ length lru)%nat → is_Some (bump sentinel lru j n).
Proof.
  revert lru j. induction n as [|n IH]; intros lru j Hlen; simpl; [by eexists|].
  destruct (lookup_lt_is_Some_2 lru j) as [v Hv]; [lia|].
  rewrite Hv. simpl. apply IH. rewrite length_insert. lia.
Qed.

(** The victim search ages the slots exactly as [bump] does, and its
    victim is the start value or a way it visited. *)
Lemma scan_spec sentinel lru i n e g e' lru' :
  scan sentinel lru i n e g = Some (e', lru') →
  bump sentinel lru i n = Some lru' ∧ (e' = e ∨ (i ≤ e' < i + n)%nat).
Proof.
  revert lru i e g. induction n as [|n IH]; intros lru i e g; simpl.
  - intros [= <- <-]. by split; [|left].
  - destruct (lru !! i) as [v|] eqn:Hv; simpl; [|done].
    case_decide; intros Hs; apply IH in Hs as [? [->|?]]; (split; [done|]);
      try (right; lia); by left.
Qed.

Lemma scan_total sentinel lru i n e g :
  (i + n ≤ length lru)%nat → is_Some (scan sentinel lru i n e g).
Proof.
  revert lru i e g. induction n as [|n IH]; intros lru i e g Hlen; simpl; [by eexists|].
  destruct (lookup_lt_is_Some_2 lru i) as [v Hv]; [lia|].
  rewrite Hv. simpl. case_decide; apply IH; rewrite length_insert; lia.
Qed.

End Loops.

(** ** Rows and storages *)

Section Rows.
Implicit Types (tags lru row : list Z) (rows lrus : list (list Z)) (i j n w : nat).

Lemma rows_ok_lookup sets assoc rows i row :
  rows_ok sets assoc rows → rows !! i = Some row → length row = Z.to_nat assoc.
Proof. intros [_ HF] Hi. by apply (Forall_lookup_1 _ _ _ _ HF Hi). Qed.

Lemma rows_ok_insert sets assoc rows i row :
  rows_ok sets assoc rows → length row = Z.to_nat assoc →
  rows_ok sets assoc (<[i := row]> rows).
Proof.
  intros [Hl HF] Hrow. split; [by rewrite length_insert|].
  by apply Forall_insert.
Qed.

Lemma rows_ok_replicate sets assoc :
  rows_ok sets assoc (replicate (Z.to_nat sets) (replicate (Z.to_nat assoc) 0)).
Proof.
  split; [by rewrite length_replicate|].
  apply Forall_replicate. by rewrite length_replicate.
Qed.

Lemma elem_of_insert_inv row i t x : x ∈ <[i := t]> row → x ∈ row ∨ x = t.
Proof.
  intros [j Hj]%list_elem_of_lookup.
  apply list_lookup_insert_Some in Hj as [(-> & -> & ?) | [? Hj]]; [by right | left].
  apply list_elem_of_lookup. eauto.
Qed.

(** Overwriting a slot keeps the valid tags of a row distinct, provided
    the value written is not already in the row whenever it is valid. *)
Lemma valid_tags_insert_NoDup row i t :
  NoDup (valid_tags row) → (valid t → t ∉ row) → NoDup (valid_tags (<[i := t]> row)).
Proof.
  unfold valid_tags. revert i. induction row as [|a row IH]; intros [|i] Hnd Hnew; simpl;
    try done.
  - assert (NoDup (filter valid row)) as Hnd'.
    { rewrite filter_cons in Hnd. case_decide; [by apply NoDup_cons in Hnd as [_ ?] | done]. }
    rewrite filter_cons. case_decide as Hv; [|done].
    apply NoDup_cons. split; [|done].
    intros [_ Hin]%list_elem_of_filter. apply (Hnew Hv). by right.
  - rewrite filter_cons in Hnd |- *. case_decide as Hv.
    + apply NoDup_cons in Hnd as [Hna Hnd]. apply NoDup_cons. split.
      * intros [Hva [Hin| ->]%elem_of_insert_inv]%list_elem_of_filter.
        -- apply Hna. by apply list_elem_of_filter.
        -- apply (Hnew Hva). by left.
      * apply IH; [done|]. intros Hvt Hin. apply (Hnew Hvt). by right.
    + apply IH; [done|]. intros Hvt Hin. apply (Hnew Hvt). by right.
Qed.

Lemma set_ok_intro assoc row :
  length row = Z.to_nat assoc → NoDup (valid_tags row) → set_ok assoc row.
Proof.
  intros Hlen Hnd. split; [|done]. rewrite <- Hlen. apply length_filter.
Qed.

Lemma not_valid_0 : ¬ valid 0.
Proof. unfold valid. rewrite Z.land_0_l. congruence. Qed.

Lemma set_ok_replicate assoc : set_ok assoc (replicate (Z.to_nat assoc) 0).
Proof.
  apply set_ok_intro; [by rewrite length_replicate|].
  unfold valid_tags.
  assert (filter valid (replicate (Z.to_nat assoc) 0) = []) as ->; [|constructor].
  induction (Z.to_nat assoc) as [|n IH]; simpl; [done|].
  rewrite filter_cons. case_decide as Hv; [|done]. by destruct not_valid_0.
Qed.

(** The inclusion loop keeps every shape, changes only slots it clears,
    and writes only into row [ei] of the recency storage. *)
Lemma invalidate_spec tags lrus ei etag i n tags' lrus' :
  invalidate tags lrus ei etag i n = Some (tags', lrus') →
  length tags' = length tags ∧
  (∀ k, tags' !! k = tags !! k ∨ (tags' !! k = Some 0 ∧ tags !! k = Some etag)) ∧
  (∀ k, (i ≤ k < i + n)%nat → tags' !! k ≠ Some etag ∨ etag = 0) ∧
  length lrus' = length lrus ∧
  (∀ r, r ≠ ei → lrus' !! r = lrus !! r) ∧
  (∀ r, length <$> lrus' !! r = length <$> lrus !! r).
Proof.
  revert tags lrus i. induction n as [|n IH]; intros tags lrus i; simpl.
  - intros [= <- <-]. repeat split; auto; lia.
  - destruct (tags !! i) as [t|] eqn:Ht; simpl; [|done].
    case_decide as Heq.
    + subst t. destruct (lrus !! ei) as [row|] eqn:Hrow; simpl; [|done].
      destruct (store row i UINT32_MAX) as [row'|] eqn:Hst; simpl; [|done].
      apply store_Some in Hst as [Hi ->].
      intros Hinv. apply IH in Hinv as (Hl & Hk & Hgone & Hll & Hother & Hlens).
      rewrite length_insert in Hl. rewrite length_insert in Hll.
      assert (tags' !! i = Some 0) as Hi0.
      { destruct (Hk i) as [Hki|[Hki _]]; [|done].
        rewrite Hki. apply list_lookup_insert_eq. by eapply lookup_lt_Some. }
      repeat split; [done| | |done| |].
      * intros k. destruct (decide (k = i)) as [->|Hne].
        { right. by split. }
        destruct (Hk k) as [Hkk|[Hkk Hkk']].
        -- left. rewrite Hkk. by apply list_lookup_insert_ne.
        -- right. split; [done|]. by rewrite list_lookup_insert_ne in Hkk'.
      * intros k Hrange. destruct (decide (k = i)) as [->|Hne].
        -- destruct (decide (etag = 0)); [by right | left]. rewrite Hi0. congruence.
        -- apply Hgone. lia.
      * intros r Hr. rewrite Hother by done. by apply list_lookup_insert_ne.
      * intros r. rewrite Hlens. destruct (decide (r = ei)) as [->|Hne].
        -- rewrite list_lookup_insert_eq by (by eapply lookup_lt_Some).
           rewrite Hrow. simpl. by rewrite length_insert.
        -- by rewrite list_lookup_insert_ne.
    + intros Hinv. apply IH in Hinv as (Hl & Hk & Hgone & Hll & Hother & Hlens).
      repeat split; try done.
      intros k Hrange. destruct (decide (k = i)) as [->|Hne]; [|apply Hgone; lia].
      destruct (Hk i) as [Hki|[Hki _]].
      * left. rewrite Hki, Ht. congruence.
      * destruct (decide (etag = 0)); [by right | left]. rewrite Hki. congruence.
Qed.

Lemma invalidate_total tags lrus ei etag i n row :
  (i + n ≤ length tags)%nat → lrus !! ei = Some row → (i + n ≤ length row)%nat →
  is_Some (invalidate tags lrus ei etag i n).
Proof.
  revert tags lrus i row. induction n as [|n IH]; intros tags lrus i row Ht Hrow Hr; simpl;
    [by eexists|].
  destruct (lookup_lt_is_Some_2 tags i) as [t Hti]; [lia|].
  rewrite Hti. simpl. case_decide.
  - rewrite Hrow. simpl. rewrite store_lt by lia. simpl.
    apply (IH _ _ _ (<[i := UINT32_MAX]> row)).
    + rewrite length_insert. lia.
    + apply list_lookup_insert_eq. by eapply lookup_lt_Some.
    + rewrite length_insert. lia.
  - by apply (IH _ _ _ row); [lia | | lia].
Qed.

Lemma invalidate_rows_ok tags lrus ei etag i n tags' lrus' sets assoc :
  invalidate tags lrus ei etag i n = Some (tags', lrus') →
  rows_ok sets assoc lrus → rows_ok sets assoc lrus'.
Proof.
  intros (_ & _ & _ & Hll & _ & Hlens)%invalidate_spec [Hl HF].
  split; [congruence|]. apply Forall_lookup. intros r row' Hr.
  specialize (Hlens r). rewrite Hr in Hlens. simpl in Hlens.
  destruct (lrus !! r) as [row|] eqn:Hrow; [|done].
  simpl in Hlens. injection Hlens as ->. by apply (Forall_lookup_1 _ _ _ _ HF Hrow).
Qed.

Lemma invalidate_NoDup tags lrus ei etag i n tags' lrus' :
  invalidate tags lrus ei etag i n = Some (tags', lrus') →
  NoDup (valid_tags tags) → NoDup (valid_tags tags').
Proof.
  revert tags lrus i. induction n as [|n IH]; intros tags lrus i; simpl.
  - by intros [= <- <-].
  - destruct (tags !! i) as [t|] eqn:Ht; simpl; [|done].
    case_decide as Heq; [|by apply IH].
    destruct (lrus !! ei) as [row|] eqn:Hrow; simpl; [|done].
    destruct (store row i UINT32_MAX) as [row'|] eqn:Hst; simpl; [|done].
    intros Hinv Hnd. eapply IH; [done|].
    apply valid_tags_insert_NoDup; [done|]. intros Hv. by destruct not_valid_0.
Qed.
End Rows.

(** ** Shapes and distinct tags are invariant *)

(** Peels one layer off a successful monadic computation. *)
Ltac inv_step :=
  match goal with
  | H : (_ ≫= _) = Some _ |- _ =>
      let x := fresh "x" in let Hx := fresh "Hx" in
      apply bind_Some in H as (x & Hx & H); simpl in H, Hx
  | H : (let '(_, _) := ?p in _) = Some _ |- _ => destruct p; simpl in H
  | H : (match ?m with Some _ => _ | None => _ end) = Some _ |- _ =>
      destruct m eqn:?; simpl in H
  | H : (if decide ?P then _ else _) = Some _ |- _ => destruct (decide P); simpl in H
  | H : (if ?b then _ else _) = Some _ |- _ => destruct b eqn:?; simpl in H
  | H : Some _ = Some _ |- _ => injection H as H
  | H : (_, _) = (_, _) |- _ => injection H as ? ?
  | H : None = Some _ |- _ => discriminate H
  end.

Ltac inv_bind H := simpl in H; repeat inv_step.

(** Turns what the loops returned into facts about lengths. *)
Ltac loop_facts :=
  repeat match goal with
  | H : store _ _ _ = Some _ |- _ => apply store_Some in H as [? ->]
  | H : scan _ _ _ _ _ _ = Some _ |- _ => apply scan_spec in H as [H ?]
  | H : bump _ _ _ _ = Some _ |- _ => apply bump_spec in H as [? _]
  | H : rows_ok _ _ ?rows, H' : ?rows !! _ = Some ?row |- _ =>
      lazymatch goal with
      | _ : length row = Z.to_nat _ |- _ => fail
      | _ => pose proof (rows_ok_lookup _ _ _ _ _ H H')
      end
  end.

Ltac case_valid :=
  try match goal with
      | |- context [decide (Z.land ?v VALID_BIT = 0)] => destruct (decide (Z.land v VALID_BIT = 0))
      end.

Ltac split_Inv :=
  split; [split; [|split; [|split; [|split; [|split]]]] | split; [|split]].

(** One row after a miss: the new tag replaces the victim. *)
Lemma miss_row_ok assoc tags tag e :
  set_ok assoc tags → length tags = Z.to_nat assoc →
  find_tag tags tag 0 (Z.to_nat assoc) = Some None →
  set_ok assoc (<[e := tag]> tags).
Proof.
  intros [_ Hnd] Hlen Hmiss. apply set_ok_intro; [by rewrite length_insert|].
  apply valid_tags_insert_NoDup; [done|]. intros _.
  eapply find_tag_absent; [done | lia].
Qed.

Lemma l2cache_access_Inv c s addr s' t :
  l2cache_access c s addr = Some (s', t) → Inv c s → Inv c s'.
Proof.
  unfold l2cache_access. intros H [Hwf Hok].
  destruct Hwf as (Hit & Hil & Hdt & Hdl & H2t & H2l).
  destruct Hok as (Hi & Hd & H2).
  inv_bind H; subst; unfold Inv, wf, sets_ok; case_valid; simpl; loop_facts;
    split_Inv; try assumption;
    try (apply rows_ok_insert; [assumption | rewrite ?length_insert; congruence]).
  all: apply Forall_insert; [assumption|].
  all: eapply miss_row_ok; [by eapply Forall_lookup_1 | done | done].
Qed.

(** The L2 never writes to what belongs to an L1. *)
Lemma l2cache_access_frame c s addr s' t :
  l2cache_access c s addr = Some (s', t) →
  stats s' = [icacheRefs s; icacheMisses s; icachePenalties s;
              dcacheRefs s; dcacheMisses s; dcachePenalties s;
              l2cacheRefs s'; l2cacheMisses s'; l2cachePenalties s'] ∧
  l1i_tag_storage s' = l1i_tag_storage s ∧ l1i_lru_storage s' = l1i_lru_storage s ∧
  l1d_tag_storage s' = l1d_tag_storage s ∧ l1d_lru_storage s' = l1d_lru_storage s.
Proof.
  unfold l2cache_access. intros H. by inv_bind H; subst; case_valid.
Qed.

Section Updates.
Context (sets assoc : Z) (tag_st lru_st : list (list Z)).
Hypothesis (Htag : rows_ok sets assoc tag_st) (Hlru : rows_ok sets assoc lru_st).

(** A hit: one recency row is aged and the hit way reset. *)
Lemma hit_ok sentinel index lru lru1 w lru2 :
  lru_st !! index = Some lru →
  bump sentinel lru 0 (Z.to_nat assoc) = Some lru1 →
  store lru1 w 0 = Some lru2 →
  rows_ok sets assoc (<[index := lru2]> lru_st).
Proof.
  intros. loop_facts. apply rows_ok_insert; [done|].
  rewrite length_insert. congruence.
Qed.

(** A miss: the victim of one set is overwritten by a tag the set lacks. *)
Lemma fill_ok sentinel index tags tag lru e lru1 tags' lru2 :
  Forall (set_ok assoc) tag_st →
  tag_st !! index = Some tags →
  find_tag tags tag 0 (Z.to_nat assoc) = Some None →
  lru_st !! index = Some lru →
  scan sentinel lru 0 (Z.to_nat assoc) 0 0 = Some (e, lru1) →
  store tags e tag = Some tags' →
  store lru1 e 0 = Some lru2 →
  rows_ok sets assoc (<[index := tags']> tag_st) ∧
  rows_ok sets assoc (<[index := lru2]> lru_st) ∧
  Forall (set_ok assoc) (<[index := tags']> tag_st).
Proof.
  intros Hok Htags Hmiss. intros. loop_facts. split_and!.
  - apply rows_ok_insert; [done|]. by rewrite length_insert.
  - apply rows_ok_insert; [done|]. rewrite length_insert. congruence.
  - apply Forall_insert; [done|].
    eapply miss_row_ok; [by eapply Forall_lookup_1 | done | done].
Qed.

(** Inclusion: some slots of one set are cleared. *)
Lemma purge_ok ei etag set_to_check set' lrus' :
  Forall (set_ok assoc) tag_st →
  tag_st !! ei = Some set_to_check →
  invalidate set_to_check lru_st ei etag 0 (Z.to_nat assoc) = Some (set', lrus') →
  rows_ok sets assoc (<[ei := set']> tag_st) ∧
  rows_ok sets assoc lrus' ∧
  Forall (set_ok assoc) (<[ei := set']> tag_st).
Proof.
  intros Hok Hset Hinv. loop_facts.
  pose proof (invalidate_spec _ _ _ _ _ _ _ _ Hinv) as (Hlen & _).
  assert (length set' = Z.to_nat assoc) by congruence.
  split_and!.
  - by apply rows_ok_insert.
  - by eapply invalidate_rows_ok.
  - apply Forall_insert; [done|]. apply set_ok_intro; [done|].
    eapply invalidate_NoDup; [done|]. by eapply (Forall_lookup_1 _ _ _ _ Hok Hset).
Qed.
End Updates.

Lemma icache_access_Inv c s addr s' t :
  icache_access c s addr = Some (s', t) → Inv c s → Inv c s'.
Proof.
  unfold icache_access. destruct (decide (icacheSets c = 0)); [apply l2cache_access_Inv|].
  intros H [(Hit & Hil & Hdt & Hdl & H2t & H2l) (Hi & Hd & H2)].
  inv_bind H; subst.
  - split_Inv; simpl; try assumption. by eapply hit_ok.
  - edestruct (fill_ok _ _ _ _ Hit Hil) as (Ft & Fl & Fs); [eassumption..|].
    match goal with H : l2cache_access _ _ _ = Some _ |- _ =>
      apply l2cache_access_Inv in H as [(Hit' & Hil' & ? & ? & ? & ?) (Hi' & ? & ?)];
        [|by split_Inv] end.
    edestruct (purge_ok _ _ _ _ Hit' Hil') as (? & ? & ?); [eassumption..|].
    by split_Inv.
  - edestruct (fill_ok _ _ _ _ Hit Hil) as (Ft & Fl & Fs); [eassumption..|].
    match goal with H : l2cache_access _ _ _ = Some _ |- _ =>
      apply l2cache_access_Inv in H as [(Hit' & Hil' & ? & ? & ? & ?) (Hi' & ? & ?)];
        [|by split_Inv] end.
    by split_Inv.
Qed.

Lemma dcache_access_Inv c s addr s' t :
  dcache_access c s addr = Some (s', t) → Inv c s → Inv c s'.
Proof.
  unfold dcache_access. destruct (decide (dcacheSets c = 0)); [apply l2cache_access_Inv|].
  intros H [(Hit & Hil & Hdt & Hdl & H2t & H2l) (Hi & Hd & H2)].
  inv_bind H; subst.
  - split_Inv; simpl; try assumption. by eapply hit_ok.
  - edestruct (fill_ok _ _ _ _ Hdt Hdl) as (Ft & Fl & Fs); [eassumption..|].
    match goal with H : l2cache_access _ _ _ = Some _ |- _ =>
      apply l2cache_access_Inv in H as [(? & ? & Hdt' & Hdl' & ? & ?) (? & Hd' & ?)];
        [|by split_Inv] end.
    edestruct (purge_ok _ _ _ _ Hdt' Hdl') as (? & ? & ?); [eassumption..|].
    by split_Inv.
  - edestruct (fill_ok _ _ _ _ Hdt Hdl) as (Ft & Fl & Fs); [eassumption..|].
    match goal with H : l2cache_access _ _ _ = Some _ |- _ =>
      apply l2cache_access_Inv in H as [(? & ? & Hdt' & Hdl' & ? & ?) (? & Hd' & ?)];
        [|by split_Inv] end.
    by split_Inv.
Qed.

Lemma init_cache_Inv c s0 : Inv c (init_cache c s0).
Proof.
  split_Inv; simpl; try apply rows_ok_replicate;
    apply Forall_replicate, set_ok_replicate.
Qed.

Lemma reachable_Inv c s : reachable c s → Inv c s.
Proof.
  induction 1; eauto using init_cache_Inv, icache_access_Inv, dcache_access_Inv,
    l2cache_access_Inv.
Qed.

(** ** No access indexes out of bounds *)

Lemma land_le_mask x m : 0 ≤ m → 0 ≤ Z.land x m ≤ m.
Proof.
  intros Hm.
  assert (Z.land x m + Z.land (Z.lnot x) m = m) as Hsum.
  { rewrite Z.add_nocarry_lxor, Z.lxor_lor.
    - apply Z.bits_inj'. intros n Hn.
      rewrite Z.lor_spec, !Z.land_spec, Z.lnot_spec by done.
      destruct (Z.testbit x n), (Z.testbit m n); done.
    - apply Z.bits_inj'. intros n Hn.
      rewrite !Z.land_spec, Z.lnot_spec, Z.bits_0 by done.
      destruct (Z.testbit x n), (Z.testbit m n); done.
    - apply Z.bits_inj'. intros n Hn.
      rewrite !Z.land_spec, Z.lnot_spec, Z.bits_0 by done.
      destruct (Z.testbit x n), (Z.testbit m n); done. }
  assert (0 ≤ Z.land x m) by (apply Z.land_nonneg; by right).
  assert (0 ≤ Z.land (Z.lnot x) m) by (apply Z.land_nonneg; by right).
  lia.
Qed.

(** The set index is always inside the storage of an enabled level. *)
Lemma index_of_lt addr bw sets : 0 < sets → (index_of addr bw sets < Z.to_nat sets)%nat.
Proof.
  intros Hs. unfold index_of, wrap32.
  pose proof (Z.mod_pos_bound (sets - 1) (2 ^ 32) ltac:(lia)).
  pose proof (Z.mod_le (sets - 1) (2 ^ 32) ltac:(lia) ltac:(lia)).
  pose proof (land_le_mask (Z.shiftr addr bw) ((sets - 1) mod 2 ^ 32) ltac:(lia)).
  lia.
Qed.

Lemma rows_ok_is_Some sets assoc rows addr bw :
  rows_ok sets assoc rows → 0 < sets →
  ∃ row, rows !! index_of addr bw sets = Some row ∧ length row = Z.to_nat assoc.
Proof.
  intros Hok Hs. destruct (lookup_lt_is_Some_2 rows (index_of addr bw sets)) as [row Hrow].
  { destruct Hok as [-> _]. by apply index_of_lt. }
  exists row. split; [done|]. by eapply rows_ok_lookup.
Qed.

Lemma log2_is_Some x : 0 < x → log2 x = Some (Z.log2 x).
Proof. intros. unfold log2. by rewrite decide_True. Qed.

Lemma l2cache_access_total c s addr :
  config_ok c → wf c s → is_Some (l2cache_access c s addr).
Proof.
  intros (Hbs & _ & _ & _ & _ & Hs & Ha) (_ & _ & _ & _ & H2t & H2l).
  unfold l2cache_access. simpl. case_decide as Hz; [by eexists|].
  destruct Ha as [?|Ha]; [done|].
  rewrite !log2_is_Some by lia. simpl.
  destruct (rows_ok_is_Some _ _ _ addr (Z.log2 (blocksize c)) H2t) as (tags & -> & Htl); [lia|].
  destruct (rows_ok_is_Some _ _ _ addr (Z.log2 (blocksize c)) H2l) as (lru & Hlru & Hll); [lia|].
  simpl.
  destruct (find_tag_total tags (tag_of addr (Z.log2 (blocksize c)) (Z.log2 (l2cacheSets c)))
              0 (Z.to_nat (l2cacheAssoc c))) as [[w|] Hf]; [lia| |]; rewrite Hf; simpl.
  - rewrite Hlru. simpl.
    destruct (bump_total false lru 0 (Z.to_nat (l2cacheAssoc c))) as [lru1 Hb]; [lia|].
    rewrite Hb. simpl. apply find_tag_hit in Hf as [_ ?]. apply bump_spec in Hb as [? _].
    rewrite store_lt by lia. by eexists.
  - rewrite Hlru. simpl.
    destruct (scan_total false lru 0 (Z.to_nat (l2cacheAssoc c)) 0%nat 0) as [[e lru1] Hsc]; [lia|].
    rewrite Hsc. simpl. apply scan_spec in Hsc as [Hb He]. apply bump_spec in Hb as [? _].
    assert (e < Z.to_nat (l2cacheAssoc c))%nat by lia.
    destruct (lookup_lt_is_Some_2 tags e) as [v ->]; [lia|]. simpl.
    rewrite !store_lt by lia. by eexists.
Qed.

Ltac split_wf := split; [|split; [|split; [|split; [|split]]]].

Lemma icache_access_total c s addr :
  config_ok c → wf c s → is_Some (icache_access c s addr).
Proof.
  intros Hc Hwf. unfold icache_access.
  destruct (decide (icacheSets c = 0)) as [|Hz]; [by apply l2cache_access_total|].
  pose proof Hc as (Hbs & Hs & Ha & _). destruct Ha as [?|Ha]; [done|].
  pose proof Hwf as (Ht & Hl & Hdt & Hdl & H2t & H2l).
  simpl. rewrite !log2_is_Some by lia. simpl.
  set (bw := Z.log2 (blocksize c)). set (iw := Z.log2 (icacheSets c)).
  destruct (rows_ok_is_Some _ _ _ addr bw Ht) as (tags & -> & Htl); [lia|].
  destruct (rows_ok_is_Some _ _ _ addr bw Hl) as (lru & Hlru & Hll); [lia|].
  simpl.
  destruct (find_tag_total tags (tag_of addr bw iw) 0 (Z.to_nat (icacheAssoc c)))
    as [[w|] Hf]; [lia| |]; rewrite Hf; simpl; rewrite Hlru; simpl.
  - destruct (bump_total true lru 0 (Z.to_nat (icacheAssoc c))) as [lru1 Hb]; [lia|].
    rewrite Hb. simpl. apply find_tag_hit in Hf as [_ ?]. apply bump_spec in Hb as [? _].
    rewrite store_lt by lia. by eexists.
  - destruct (scan_total true lru 0 (Z.to_nat (icacheAssoc c)) 0%nat 0) as [[e lru1] Hsc]; [lia|].
    rewrite Hsc. simpl. apply scan_spec in Hsc as [Hb He]. apply bump_spec in Hb as [? _].
    assert (e < Z.to_nat (icacheAssoc c))%nat by lia.
    rewrite !store_lt by lia. simpl.
    match goal with |- context [l2cache_access c ?pre addr] =>
      destruct (l2cache_access_total c pre addr) as [[s0 t2] Hl2];
        [done | split_wf; simpl; try assumption;
                 (apply rows_ok_insert; [assumption | rewrite length_insert; lia]) |];
      rewrite Hl2; simpl;
      apply l2cache_access_frame in Hl2 as (_ & Ht0 & Hl0 & _); simpl in Ht0, Hl0
    end.
    destruct (bool_decide (inclusive c ≠ 0) && l2_did_evict s0); simpl; [|by eexists].
    assert (rows_ok (icacheSets c) (icacheAssoc c) (l1i_tag_storage s0)) as Ht'.
    { rewrite Ht0. apply rows_ok_insert; [done|]. by rewrite length_insert. }
    assert (rows_ok (icacheSets c) (icacheAssoc c) (l1i_lru_storage s0)) as Hl'.
    { rewrite Hl0. apply rows_ok_insert; [done|]. rewrite length_insert. lia. }
    destruct (rows_ok_is_Some _ _ _ (l2_evicted_addr s0) bw Ht') as (set & -> & Hsl); [lia|].
    destruct (rows_ok_is_Some _ _ _ (l2_evicted_addr s0) bw Hl') as (row & Hrow & Hrl); [lia|].
    simpl.
    edestruct (invalidate_total set (l1i_lru_storage s0)) as [[set' lrus'] ->];
      [|exact Hrow| |]; [lia..|].
    by eexists.
Qed.

Lemma dcache_access_total c s addr :
  config_ok c → wf c s → is_Some (dcache_access c s addr).
Proof.
  intros Hc Hwf. unfold dcache_access.
  destruct (decide (dcacheSets c = 0)) as [|Hz]; [by apply l2cache_access_total|].
  pose proof Hc as (Hbs & _ & _ & Hs & Ha & _). destruct Ha as [?|Ha]; [done|].
  pose proof Hwf as (Hit & Hil & Ht & Hl & H2t & H2l).
  simpl. rewrite !log2_is_Some by lia. simpl.
  set (bw := Z.log2 (blocksize c)). set (iw := Z.log2 (dcacheSets c)).
  destruct (rows_ok_is_Some _ _ _ addr bw Ht) as (tags & -> & Htl); [lia|].
  destruct (rows_ok_is_Some _ _ _ addr bw Hl) as (lru & Hlru & Hll); [lia|].
  simpl.
  destruct (find_tag_total tags (tag_of addr bw iw) 0 (Z.to_nat (dcacheAssoc c)))
    as [[w|] Hf]; [lia| |]; rewrite Hf; simpl; rewrite Hlru; simpl.
  - destruct (bump_total true lru 0 (Z.to_nat (dcacheAssoc c))) as [lru1 Hb]; [lia|].
    rewrite Hb. simpl. apply find_tag_hit in Hf as [_ ?]. apply bump_spec in Hb as [? _].
    rewrite store_lt by lia. by eexists.
  - destruct (scan_total true lru 0 (Z.to_nat (dcacheAssoc c)) 0%nat 0) as [[e lru1] Hsc]; [lia|].
    rewrite Hsc. simpl. apply scan_spec in Hsc as [Hb He]. apply bump_spec in Hb as [? _].
    assert (e < Z.to_nat (dcacheAssoc c))%nat by lia.
    rewrite !store_lt by lia. simpl.
    match goal with |- context [l2cache_access c ?pre addr] =>
      destruct (l2cache_access_total c pre addr) as [[s0 t2] Hl2];
        [done | split_wf; simpl; try assumption;
                 (apply rows_ok_insert; [assumption | rewrite length_insert; lia]) |];
      rewrite Hl2; simpl;
      apply l2cache_access_frame in Hl2 as (_ & _ & _ & Ht0 & Hl0); simpl in Ht0, Hl0
    end.
    destruct (bool_decide (inclusive c ≠ 0) && l2_did_evict s0); simpl; [|by eexists].
    assert (rows_ok (dcacheSets c) (dcacheAssoc c) (l1d_tag_storage s0)) as Ht'.
    { rewrite Ht0. apply rows_ok_insert; [done|]. by rewrite length_insert. }
    assert (rows_ok (dcacheSets c) (dcacheAssoc c) (l1d_lru_storage s0)) as Hl'.
    { rewrite Hl0. apply rows_ok_insert; [done|]. rewrite length_insert. lia. }
    destruct (rows_ok_is_Some _ _ _ (l2_evicted_addr s0) bw Ht') as (set & -> & Hsl); [lia|].
    destruct (rows_ok_is_Some _ _ _ (l2_evicted_addr s0) bw Hl') as (row & Hrow & Hrl); [lia|].
    simpl.
    edestruct (invalidate_total set (l1d_lru_storage s0)) as [[set' lrus'] ->];
      [|exact Hrow| |]; [lia..|].
    by eexists.
Qed.

(** ** The hit path *)

Lemma probe_Some sets assoc storage c addr r :
  probe sets assoc storage c addr = Some r →
  ∃ bw iw tags, log2 (blocksize c) = Some bw ∧ log2 sets = Some iw ∧
    storage !! index_of addr bw sets = Some tags ∧
    find_tag tags (tag_of addr bw iw) 0 (Z.to_nat assoc) = Some r.
Proof. unfold probe. intros H. inv_bind H. eauto 10. Qed.

Lemma bump_all sentinel lru :
  bump sentinel lru 0 (length lru) = Some (age sentinel <$> lru).
Proof.
  destruct (bump_total sentinel lru 0 (length lru)) as [lru' Hb]; [lia|].
  rewrite Hb. f_equal. apply bump_spec in Hb as [Hlen Hk].
  apply list_eq. intros k. rewrite Hk, list_lookup_fmap.
  case_decide as Hr; [done|].
  rewrite (lookup_ge_None_2 lru k) by lia. done.
Qed.

(** The hit path of all three caches, on one recency storage. *)
Lemma hit_path sets assoc tag_st lrus sentinel index tags tag w :
  rows_ok sets assoc tag_st → rows_ok sets assoc lrus →
  tag_st !! index = Some tags →
  find_tag tags tag 0 (Z.to_nat assoc) = Some (Some w) →
  ∃ lru, lrus !! index = Some lru ∧
    bump sentinel lru 0 (Z.to_nat assoc) = Some (age sentinel <$> lru) ∧
    store (age sentinel <$> lru) w 0 = Some (hit_row sentinel lru w).
Proof.
  intros [Hts _] Hok Htags [_ Hw]%find_tag_hit.
  destruct (lookup_lt_is_Some_2 lrus index) as [lru Hlru].
  { destruct Hok as [-> _]. rewrite <- Hts. by eapply lookup_lt_Some. }
  exists lru. split; [done|].
  pose proof (rows_ok_lookup _ _ _ _ _ Hok Hlru) as Hlen.
  rewrite <- Hlen, bump_all. split; [done|]. rewrite store_lt; [done|].
  rewrite length_fmap. lia.
Qed.

Lemma l1_hit c s lvl addr w :
  wf c s → l1_sets lvl c ≠ 0 → l1_probe lvl c s addr = Some (Some w) →
  ∃ bw lru,
    log2 (blocksize c) = Some bw ∧
    l1_lru_storage lvl s !! index_of addr bw (l1_sets lvl c) = Some lru ∧
    l1_access lvl c s addr =
      Some (l1_after_hit lvl s (index_of addr bw (l1_sets lvl c)) (hit_row true lru w),
            l1_hit_time lvl c).
Proof.
  intros (Hit & Hil & Hdt & Hdl & _) Hz Hp.
  destruct lvl; simpl in *;
    apply probe_Some in Hp as (bw & iw & tags & Hbw & Hiw & Htags & Hf); exists bw.
  - destruct (hit_path _ _ _ _ true _ _ _ _ Hit Hil Htags Hf) as (lru & Hlru & Hb & Hst).
    exists lru. split_and!; [done..|].
    unfold icache_access. rewrite decide_False by done. simpl.
    rewrite Hbw, Hiw. simpl. rewrite Htags. simpl. rewrite Hf. simpl.
    rewrite Hlru. simpl. rewrite Hb. simpl. by rewrite Hst.
  - destruct (hit_path _ _ _ _ true _ _ _ _ Hdt Hdl Htags Hf) as (lru & Hlru & Hb & Hst).
    exists lru. split_and!; [done..|].
    unfold dcache_access. rewrite decide_False by done. simpl.
    rewrite Hbw, Hiw. simpl. rewrite Htags. simpl. rewrite Hf. simpl.
    rewrite Hlru. simpl. rewrite Hb. simpl. by rewrite Hst.
Qed.

Lemma l2_hit c s addr w :
  wf c s → l2cacheSets c ≠ 0 → l2cache_probe c s addr = Some (Some w) →
  ∃ bw lru,
    log2 (blocksize c) = Some bw ∧
    l2_lru_storage s !! index_of addr bw (l2cacheSets c) = Some lru ∧
    l2cache_access c s addr =
      Some (State (icacheRefs s) (icacheMisses s) (icachePenalties s)
                  (dcacheRefs s) (dcacheMisses s) (dcachePenalties s)
                  (wrap64 (l2cacheRefs s + 1)) (l2cacheMisses s) (l2cachePenalties s)
                  false (l2_evicted_addr s)
                  (l1i_tag_storage s) (l1i_lru_storage s)
                  (l1d_tag_storage s) (l1d_lru_storage s)
                  (l2_tag_storage s)
                  (<[index_of addr bw (l2cacheSets c) := hit_row false lru w]> (l2_lru_storage s)),
            l2cacheHitTime c).
Proof.
  intros (_ & _ & _ & _ & H2t & H2l) Hz Hp.
  apply probe_Some in Hp as (bw & iw & tags & Hbw & Hiw & Htags & Hf). exists bw.
  destruct (hit_path _ _ _ _ false _ _ _ _ H2t H2l Htags Hf) as (lru & Hlru & Hb & Hst).
  exists lru. split_and!; [done..|].
  unfold l2cache_access. rewrite decide_False by done. simpl.
  rewrite Hbw, Hiw. simpl. rewrite Htags. simpl. rewrite Hf. simpl.
  rewrite Hlru. simpl. rewrite Hb. simpl. by rewrite Hst.
Qed.

(** ** Latencies on the miss path *)

Lemma l2_miss_latency c s addr s' t :
  l2cache_access c s addr = Some (s', t) →
  l2cacheSets c = 0 ∨ l2cache_probe c s addr = Some None →
  t = wrap32 (enabled (l2cacheSets c) (l2cacheHitTime c) + memspeed c) ∨
  (l2cacheSets c = 0 ∧ t = memspeed c).
Proof.
  unfold l2cache_access. intros H Hm. inv_bind H; subst.
  - right. done.
  - destruct Hm as [?|Hm]; [done|].
    apply probe_Some in Hm as (bw & iw & tags & ? & ? & ? & ?). simplify_eq.
  - left. unfold enabled. by rewrite decide_False.
Qed.

Lemma l1_miss_latency lvl c s addr s' t :
  l1_access lvl c s addr = Some (s', t) →
  l1_sets lvl c ≠ 0 → l1_probe lvl c s addr = Some None →
  ∃ pre s2 t2,
    l2cache_access c pre addr = Some (s2, t2) ∧
    l2_tag_storage pre = l2_tag_storage s ∧
    t = wrap32 (l1_hit_time lvl c + t2).
Proof.
  intros H Hz Hm. destruct lvl; simpl in *;
    apply probe_Some in Hm as (bw & iw & tags & ? & ? & ? & ?).
  - unfold icache_access in H. rewrite decide_False in H by done.
    inv_bind H; simplify_eq; eauto 10.
  - unfold dcache_access in H. rewrite decide_False in H by done.
    inv_bind H; simplify_eq; eauto 10.
Qed.

Lemma wrap32_small z : uint32 z → wrap32 z = z.
Proof. intros ?. unfold wrap32. by apply Z.mod_small. Qed.

Lemma wrap32_add_r a b : wrap32 (a + wrap32 b) = wrap32 (a + b).
Proof. unfold wrap32. by rewrite Zplus_mod_idemp_r. Qed.

Lemma l1_access_total lvl c s addr :
  config_ok c → wf c s → is_Some (l1_access lvl c s addr).
Proof. destruct lvl; [apply icache_access_total | apply dcache_access_total]. Qed.

Lemma l1_bypass lvl c s addr :
  l1_sets lvl c = 0 → l1_access lvl c s addr = l2cache_access c s addr.
Proof.
  destruct lvl; simpl; intros Hz; [unfold icache_access | unfold dcache_access];
    by rewrite decide_True.
Qed.

Lemma full_miss_latency lvl c s addr :
  config_ok c → wf c s → uint32 (memspeed c) → full_miss lvl c s addr →
  ∃ s', l1_access lvl c s addr = Some (s', wrap32 (full_miss_cost lvl c)).
Proof.
  intros Hc Hwf Hmem [H1 H2].
  destruct (l1_access_total lvl c s addr Hc Hwf) as [[s' t] Hacc].
  exists s'. rewrite Hacc. do 2 f_equal. unfold full_miss_cost.
  destruct (decide (l1_sets lvl c = 0)) as [Hz|Hz].
  - rewrite l1_bypass in Hacc by done. unfold enabled at 1. rewrite decide_True by done.
    apply l2_miss_latency in Hacc as [->|[Hz2 ->]]; [| |done].
    + f_equal; lia.
    + unfold enabled. rewrite decide_True by done. by rewrite wrap32_small.
  - destruct H1 as [?|H1]; [done|]. unfold enabled at 1. rewrite decide_False by done.
    destruct (l1_miss_latency _ _ _ _ _ _ Hacc Hz H1) as (pre & s2 & t2 & Hl2 & Hpre & ->).
    apply l2_miss_latency in Hl2 as [->|[Hz2 ->]].
    + rewrite wrap32_add_r. f_equal; lia.
    + unfold enabled. rewrite decide_True by done. f_equal; lia.
    + unfold l2cache_probe in *. by rewrite Hpre.
Qed.

(** ** Addresses matter only through their block number *)

Ltac bind_ext :=
  repeat match goal with
    | |- ?x = ?x => reflexivity
    | |- ?m ≫= _ = ?m ≫= _ => apply option_bind_ext_fun; intros ?
    | |- match ?x with _ => _ end = match ?x with _ => _ end => destruct x
    end.

Section SameBlock.
Context (c : config) (bw : Z) (a b : Z).
Hypothesis (Hbw : log2 (blocksize c) = Some bw).
Hypothesis (Hab : Z.shiftr a bw = Z.shiftr b bw).

Lemma l2cache_access_same_block s : l2cache_access c s a = l2cache_access c s b.
Proof.
  unfold l2cache_access. rewrite Hbw. simpl. unfold index_of, tag_of.
  by rewrite Hab.
Qed.

Lemma icache_access_same_block s : icache_access c s a = icache_access c s b.
Proof.
  unfold icache_access. case_decide; [apply l2cache_access_same_block|].
  rewrite Hbw. simpl. unfold index_of, tag_of. rewrite Hab.
  bind_ext. apply option_bind_ext; [intros ?; reflexivity|].
  apply l2cache_access_same_block.
Qed.

Lemma dcache_access_same_block s : dcache_access c s a = dcache_access c s b.
Proof.
  unfold dcache_access. case_decide; [apply l2cache_access_same_block|].
  rewrite Hbw. simpl. unfold index_of, tag_of. rewrite Hab.
  bind_ext. apply option_bind_ext; [intros ?; reflexivity|].
  apply l2cache_access_same_block.
Qed.
End SameBlock.

Lemma same_block_shiftr bs k a b :
  0 ≤ k → bs = 2 ^ k → a / bs = b / bs →
  log2 bs = Some k ∧ Z.shiftr a k = Z.shiftr b k.
Proof.
  intros Hk -> Hdiv. split.
  - unfold log2. rewrite decide_True by (apply Z.pow_pos_nonneg; lia).
    by rewrite Z.log2_pow2.
  - by rewrite !Z.shiftr_div_pow2.
Qed.

(** ** A stale eviction address is never read *)

Lemma l2cache_access_stale c s a addr :
  l2cache_access c (stale a s) addr = restale a <$> l2cache_access c s addr.
Proof.
  unfold l2cache_access. simpl.
  destruct (decide (l2cacheSets c = 0)); [done|].
  destruct (log2 (blocksize c)) as [bw|]; [simpl|done].
  destruct (log2 (l2cacheSets c)) as [iw|]; [simpl|done].
  destruct (l2_tag_storage s !! _) as [tags|]; [simpl|done].
  destruct (find_tag tags _ 0 _) as [[w|]|]; [simpl| |done].
  - destruct (l2_lru_storage s !! _) as [lru|]; [simpl|done].
    destruct (bump false lru 0 _) as [lru1|]; [simpl|done].
    destruct (store lru1 w 0) as [lru2|]; [simpl|done]. done.
  - simpl. destruct (l2_lru_storage s !! _) as [lru|]; [simpl|done].
    destruct (scan false lru 0 _ 0 0) as [[e lru1]|]; [simpl|done].
    destruct (tags !! e) as [v|]; [simpl|done].
    destruct (store tags e _) as [tags'|]; [simpl|done].
    destruct (store lru1 e 0) as [lru2|]; [simpl|done].
    by destruct (decide (Z.land v VALID_BIT = 0)).
Qed.

Lemma l2cache_access_stale_eq c s s1 a addr :
  s1 = stale a s → l2cache_access c s1 addr = restale a <$> l2cache_access c s addr.
Proof. intros ->. apply l2cache_access_stale. Qed.

Lemma icache_access_stale c s a addr :
  l2_did_evict s = false →
  icache_access c (stale a s) addr = restale a <$> icache_access c s addr.
Proof.
  intros Hne. unfold icache_access.
  destruct (decide (icacheSets c = 0)); [apply l2cache_access_stale|]. simpl.
  destruct (log2 (blocksize c)) as [bw|]; [simpl|done].
  destruct (log2 (icacheSets c)) as [iw|]; [simpl|done].
  destruct (l1i_tag_storage s !! _) as [tags|]; [simpl|done].
  destruct (find_tag tags _ 0 _) as [[w|]|]; [simpl| |done].
  - destruct (l1i_lru_storage s !! _) as [lru|]; [simpl|done].
    destruct (bump true lru 0 _) as [lru1|]; [simpl|done].
    destruct (store lru1 w 0) as [lru2|]; [simpl|done].
    unfold restale. simpl. by rewrite Hne.
  - simpl. destruct (l1i_lru_storage s !! _) as [lru|]; [simpl|done].
    destruct (scan true lru 0 _ 0 0) as [[e lru1]|]; [simpl|done].
    destruct (store tags e _) as [tags'|]; [simpl|done].
    destruct (store lru1 e 0) as [lru2|]; [simpl|done].
    match goal with
    | |- context [l2cache_access c (with_l1i ?t ?l (with_icache_stats ?r ?m ?p
                    (with_icache_stats ?r' ?m' ?p' (stale a s)))) addr] =>
        rewrite (l2cache_access_stale_eq c
                   (with_l1i t l (with_icache_stats r m p (with_icache_stats r' m' p' s)))
                   (with_l1i t l (with_icache_stats r m p
                      (with_icache_stats r' m' p' (stale a s))))
                   a addr eq_refl)
    end.
    destruct (l2cache_access c _ addr) as [[s0 t2]|]; [simpl|done].
    destruct (l2_did_evict s0) eqn:He; simpl; rewrite ?He, ?andb_false_r, ?andb_true_r; simpl.
    2:{ unfold restale. simpl. by rewrite He. }
    destruct (bool_decide (inclusive c ≠ 0)); simpl.
    + destruct (l1i_tag_storage s0 !! _) as [set|]; [simpl|done].
      destruct (invalidate set _ _ _ 0 _) as [[set' lrus']|]; [simpl|done].
      unfold restale. simpl. by rewrite He.
    + unfold restale. simpl. by rewrite He.
Qed.

Lemma dcache_access_stale c s a addr :
  l2_did_evict s = false →
  dcache_access c (stale a s) addr = restale a <$> dcache_access c s addr.
Proof.
  intros Hne. unfold dcache_access.
  destruct (decide (dcacheSets c = 0)); [apply l2cache_access_stale|]. simpl.
  destruct (log2 (blocksize c)) as [bw|]; [simpl|done].
  destruct (log2 (dcacheSets c)) as [iw|]; [simpl|done].
  destruct (l1d_tag_storage s !! _) as [tags|]; [simpl|done].
  destruct (find_tag tags _ 0 _) as [[w|]|]; [simpl| |done].
  - destruct (l1d_lru_storage s !! _) as [lru|]; [simpl|done].
    destruct (bump true lru 0 _) as [lru1|]; [simpl|done].
    destruct (store lru1 w 0) as [lru2|]; [simpl|done].
    unfold restale. simpl. by rewrite Hne.
  - simpl. destruct (l1d_lru_storage s !! _) as [lru|]; [simpl|done].
    destruct (scan true lru 0 _ 0 0) as [[e lru1]|]; [simpl|done].
    destruct (store tags e _) as [tags'|]; [simpl|done].
    destruct (store lru1 e 0) as [lru2|]; [simpl|done].
    match goal with
    | |- context [l2cache_access c (with_l1d ?t ?l (with_dcache_stats ?r ?m ?p
                    (with_dcache_stats ?r' ?m' ?p' (stale a s)))) addr] =>
        rewrite (l2cache_access_stale_eq c
                   (with_l1d t l (with_dcache_stats r m p (with_dcache_stats r' m' p' s)))
                   (with_l1d t l (with_dcache_stats r m p
                      (with_dcache_stats r' m' p' (stale a s))))
                   a addr eq_refl)
    end.
    destruct (l2cache_access c _ addr) as [[s0 t2]|]; [simpl|done].
    destruct (l2_did_evict s0) eqn:He; simpl; rewrite ?He, ?andb_false_r, ?andb_true_r; simpl.
    2:{ unfold restale. simpl. by rewrite He. }
    destruct (bool_decide (inclusive c ≠ 0)); simpl.
    + destruct (l1d_tag_storage s0 !! _) as [set|]; [simpl|done].
      destruct (invalidate set _ _ _ 0 _) as [[set' lrus']|]; [simpl|done].
      unfold restale. simpl. by rewrite He.
    + unfold restale. simpl. by rewrite He.
Qed.

Lemma step_stale c s a x :
  l2_did_evict s = false → step c (stale a s) x = restale a <$> step c s x.
Proof. destruct x; [apply icache_access_stale | apply dcache_access_stale]. Qed.

Lemma run_stale c s a trace :
  l2_did_evict s = false →
  forget <$> run c (stale a s) trace = forget <$> run c s trace.
Proof.
  revert s. induction trace as [|x trace IH]; intros s Hne; simpl; [done|].
  rewrite step_stale by done.
  destruct (step c s x) as [[s1 t1]|]; [simpl|done].
  destruct (l2_did_evict s1) eqn:He; [done|].
  specialize (IH s1 He).
  destruct (run c (stale a s1) trace) as [[sa tsa]|],
           (run c s1 trace) as [[sb tsb]|]; try done.
  apply (inj Some), pair_equal_spec in IH as [Hs Ht].
  change (Some (stale 0 sa, t1 :: tsa) = Some (stale 0 sb, t1 :: tsb)).
  change (stale 0 sa = stale 0 sb) in Hs. change (tsa = tsb) in Ht.
  by rewrite Hs, Ht.
Qed.

Lemma init_cache_stale c s1 s2 :
  init_cache c s2 = stale (l2_evicted_addr s2) (init_cache c s1).
Proof. reflexivity. Qed.

(** ** The claims *)

(** C4. In the scenario configuration (whatever the disabled I-cache's
    associativity and hit time, and whatever state [init_cache] starts
    from), the data accesses 0, 16, 0 each cost 56.  After the second one
    set 0 of the D-cache and of the L2 hold the block of address 16 only, so
    address 0 has left both levels and the third access pays the full miss
    again. *)
Theorem scenario_latencies ia ih s0 :
  let c := scenario ia ih in
  let after2 := run c (init_cache c s0) [Data 0; Data 16] in
  snd <$> run c (init_cache c s0) [Data 0; Data 16; Data 0] = Some [56; 56; 56] ∧
  snd <$> after2 = Some [56; 56] ∧
  (after2 ≫= λ r, l1d_tag_storage r.1 !! 0%nat) = Some [tag_of 16 2 1] ∧
  (after2 ≫= λ r, l2_tag_storage r.1 !! 0%nat) = Some [tag_of 16 2 1] ∧
  (after2 ≫= λ r, snd <$> dcache_access c r.1 0) = Some 56.
Proof. vm_compute. repeat split; reflexivity. Qed.

(** C1, at the failing input.  A 2-set 1-way L2 with 4-byte blocks is
    accessed at address 4 and then at address 12.  Both map to set 1; the
    second access evicts the block of address 4 from way 0 of that set, and
    the address left in [l2_evicted_addr] is 0, not 4: the reconstruction
    puts the way where the set index belongs. *)
Theorem l2_evicted_addr_names_the_way s0 :
  let c := two_set_l2 in
  let after1 := l2cache_access c (init_cache c s0) 4 in
  let after2 := after1 ≫= λ r, l2cache_access c r.1 12 in
  index_of 4 2 (l2cacheSets c) = 1%nat ∧
  (after1 ≫= λ r, l2_tag_storage r.1 !! 1%nat) = Some [tag_of 4 2 1] ∧
  (after2 ≫= λ r, l2_tag_storage r.1 !! 1%nat) = Some [tag_of 12 2 1] ∧
  (λ r, (l2_did_evict r.1, l2_evicted_addr r.1)) <$> after2 = Some (true, 0).
Proof. vm_compute. repeat split; reflexivity. Qed.

(** C2, at the failing input.  A 4-set 1-way D-cache over a 2-set 1-way
    inclusive L2: after the data accesses 4 and 12 the L2 has evicted the
    block of address 4 (its set holds the block of 12 only) and reported
    address 0, so the D-cache looked in set 0 and still holds the block of
    address 4 in set 1: a further data access to 4 is a D-cache hit. *)
Theorem inclusion_misses_the_evicted_block s0 :
  let c := wide_l1d in
  let after2 := run c (init_cache c s0) [Data 4; Data 12] in
  snd <$> after2 = Some [56; 56] ∧
  (λ r, (l2_did_evict r.1, l2_evicted_addr r.1)) <$> after2 = Some (true, 0) ∧
  (after2 ≫= λ r, l2_tag_storage r.1 !! index_of 4 2 (l2cacheSets c))
    = Some [tag_of 12 2 1] ∧
  (after2 ≫= λ r, l1d_tag_storage r.1 !! index_of 4 2 (dcacheSets c))
    = Some [tag_of 4 2 2] ∧
  (after2 ≫= λ r, dcache_probe c r.1 4) = Some (Some 0%nat) ∧
  (after2 ≫= λ r, snd <$> dcache_access c r.1 4) = Some (dcacheHitTime c).
Proof. vm_compute. repeat split; reflexivity. Qed.

(** C5, at the failing input.  One 2-way set per cache, L2 inclusive.  After
    an instruction fetch the D-cache set is still empty.  The data accesses
    8, 12, 12 (a hit), 20 then fill it: the third distinct block evicts the
    block of 8, and the address the L2 reports for it is that of block 12,
    so the re-accessed block is cleared from the D-cache as well, although
    the L2 still holds it; the next data access to 12 misses in the D-cache
    and hits in the L2. *)
Theorem inclusion_evicts_a_shielded_block s0 :
  let c := one_set_each in
  let start := run c (init_cache c s0) [Instr 40] in
  let after := start ≫= λ r, run c r.1 [Data 8; Data 12; Data 12; Data 20] in
  (start ≫= λ r, l1d_tag_storage r.1 !! 0%nat) = Some [0; 0] ∧
  snd <$> after = Some [56; 56; 1; 56] ∧
  (after ≫= λ r, l1d_tag_storage r.1 !! 0%nat) = Some [tag_of 20 2 0; 0] ∧
  (after ≫= λ r, l2_tag_storage r.1 !! 0%nat) = Some [tag_of 12 2 0; tag_of 20 2 0] ∧
  (after ≫= λ r, dcache_probe c r.1 12) = Some None ∧
  (after ≫= λ r, snd <$> dcache_access c r.1 12) = Some 6.
Proof. vm_compute. repeat split; reflexivity. Qed.

(** C3 as stated fails at the L2: a hit in way 0 of an L2 set whose way 1
    holds [UINT32_MAX] increments way 1 past the sentinel, to 0. *)
Lemma l2_hit_moves_the_sentinel :
  let c := one_set_each in
  l2cache_probe c at_sentinel 0 = Some (Some 0%nat) ∧
  l2_lru_storage at_sentinel !! 0%nat = Some [0; UINT32_MAX] ∧
  (l2cache_access c at_sentinel 0 ≫= λ r, l2_lru_storage r.1 !! 0%nat) = Some [0; 0] ∧
  ¬ keeps_sentinel [0; UINT32_MAX] [0; 0] 0.
Proof.
  split_and!; [by vm_compute..|].
  intros H. specialize (H 1%nat ltac:(done) eq_refl). discriminate H.
Qed.

(** C6, amended in its last clause.  A level whose set count is 0 is
    bypassed: the L1 access is the L2 access, the L2 access returns
    [memspeed] and only clears the eviction flag, and the bypassed level's
    counters are unchanged.  On a full miss path the latency is the sum of
    the enabled levels' hit times and [memspeed], computed in 32 bits; it is
    that sum exactly when the sum fits. *)
Theorem bypass c s addr :
  (∀ lvl, l1_sets lvl c = 0 →
     l1_access lvl c s addr = l2cache_access c s addr ∧
     ∀ s' t, l1_access lvl c s addr = Some (s', t) → l1_stats lvl s' = l1_stats lvl s) ∧
  (l2cacheSets c = 0 →
     l2cache_access c s addr = Some (with_l2_signal false (l2_evicted_addr s) s, memspeed c) ∧
     ∀ s' t, l2cache_access c s addr = Some (s', t) → l2_stats s' = l2_stats s) ∧
  (∀ lvl, config_ok c → wf c s → uint32 (memspeed c) → full_miss lvl c s addr →
     ∃ s' t, l1_access lvl c s addr = Some (s', t) ∧
       t = wrap32 (full_miss_cost lvl c) ∧
       (uint32 (full_miss_cost lvl c) → t = full_miss_cost lvl c)).
Proof.
  split_and!.
  - intros lvl Hz. split; [by apply l1_bypass|].
    intros s' t. rewrite l1_bypass by done.
    intros (Hst & _)%l2cache_access_frame. unfold stats in Hst.
    destruct lvl; simpl; congruence.
  - intros Hz. unfold l2cache_access. rewrite decide_True by done. simpl.
    split; [done|]. by intros s' t [= <- _].
  - intros lvl Hc Hwf Hmem Hfull.
    destruct (full_miss_latency lvl c s addr Hc Hwf Hmem Hfull) as [s' Hacc].
    exists s', (wrap32 (full_miss_cost lvl c)). split_and!; [done..|].
    apply wrap32_small.
Qed.

Lemma bypass_witness :
  let c := scenario 1 1 in
  let s := init_cache c blank in
  (l1_access L1I c s 0 = l2cache_access c s 0) ∧
  (∃ s' t, l1_access L1D c s 0 = Some (s', t) ∧ t = 56).
Proof.
  intros c s. destruct (bypass c s 0) as (H1 & _ & H3). split.
  - by apply (H1 L1I).
  - destruct (H3 L1D) as (s' & t & Hacc & _ & Ht).
    + unfold config_ok. simpl. lia.
    + apply init_cache_Inv.
    + unfold uint32. simpl. lia.
    + split; right; vm_compute; reflexivity.
    + exists s', t. split; [done|]. apply Ht. by vm_compute.
Defined.

(** C7.  In every reachable state every set of every level holds at most
    [assoc] valid tags, and its valid tags are pairwise distinct. *)
Theorem capacity_and_distinctness c s :
  reachable c s →
  (∀ row, row ∈ l1i_tag_storage s →
     (length (valid_tags row) ≤ Z.to_nat (icacheAssoc c))%nat ∧ NoDup (valid_tags row)) ∧
  (∀ row, row ∈ l1d_tag_storage s →
     (length (valid_tags row) ≤ Z.to_nat (dcacheAssoc c))%nat ∧ NoDup (valid_tags row)) ∧
  (∀ row, row ∈ l2_tag_storage s →
     (length (valid_tags row) ≤ Z.to_nat (l2cacheAssoc c))%nat ∧ NoDup (valid_tags row)).
Proof.
  intros [_ (Hi & Hd & H2)]%reachable_Inv.
  rewrite Forall_forall in Hi, Hd, H2.
  split_and!; intros row Hrow; [apply (Hi _ Hrow) | apply (Hd _ Hrow) | apply (H2 _ Hrow)].
Qed.

(** C8.  Two runs of one trace under one configuration, each from a freshly
    initialised hierarchy, give the same latencies and the same nine
    counters (or both run out of bounds), whatever the two hierarchies held
    before [init_cache]. *)
Theorem run_deterministic c s1 s2 trace :
  (λ r, (r.2, stats r.1)) <$> run c (init_cache c s1) trace =
  (λ r, (r.2, stats r.1)) <$> run c (init_cache c s2) trace.
Proof.
  pose proof (run_stale c (init_cache c s1) (l2_evicted_addr s2) trace eq_refl) as H.
  rewrite <- init_cache_stale in H.
  destruct (run c (init_cache c s1) trace) as [[sa tsa]|],
           (run c (init_cache c s2) trace) as [[sb tsb]|]; try done.
  apply (inj Some), pair_equal_spec in H as [Hs Ht].
  change (stale 0 sb = stale 0 sa) in Hs. change (tsb = tsa) in Ht.
  change (Some (tsa, stats (stale 0 sa)) = Some (tsb, stats (stale 0 sb))).
  by rewrite Hs, Ht.
Qed.

(** C9.  An L1 hit returns the hit time and changes nothing but that L1's
    reference counter and one row of its recency storage, the row of the set
    the address maps to. *)
Theorem l1_hit_frame c s lvl addr w :
  wf c s → l1_sets lvl c ≠ 0 → l1_probe lvl c s addr = Some (Some w) →
  ∃ bw row,
    log2 (blocksize c) = Some bw ∧
    l1_access lvl c s addr =
      Some (l1_after_hit lvl s (index_of addr bw (l1_sets lvl c)) row, l1_hit_time lvl c).
Proof.
  intros Hwf Hz Hp.
  destruct (l1_hit c s lvl addr w Hwf Hz Hp) as (bw & row & Hbw & _ & Hacc).
  by exists bw, (hit_row true row w).
Qed.

Lemma l1_hit_frame_witness :
  ∃ bw row,
    log2 (blocksize one_set_each) = Some bw ∧
    l1_access L1D one_set_each at_sentinel 0 =
      Some (l1_after_hit L1D at_sentinel (index_of 0 bw 1) row, 1).
Proof.
  apply (l1_hit_frame one_set_each at_sentinel L1D 0 0).
  - unfold wf, rows_ok. simpl. repeat split; repeat constructor.
  - simpl. lia.
  - vm_compute. reflexivity.
Defined.

(** C10.  With a power-of-two block size, two addresses in the same block
    give the same result (latency and state) at each of the three entry
    points. *)
Theorem same_block_same_result c s k a b :
  0 ≤ k → blocksize c = 2 ^ k → a / blocksize c = b / blocksize c →
  icache_access c s a = icache_access c s b ∧
  dcache_access c s a = dcache_access c s b ∧
  l2cache_access c s a = l2cache_access c s b.
Proof.
  intros Hk Hbs Hdiv.
  destruct (same_block_shiftr (blocksize c) k a b Hk Hbs Hdiv) as [Hbw Hab].
  split_and!; [by eapply icache_access_same_block | by eapply dcache_access_same_block
              | by eapply l2cache_access_same_block].
Qed.

Lemma same_block_same_result_witness :
  let c := one_set_each in
  icache_access c at_sentinel 8 = icache_access c at_sentinel 11 ∧
  dcache_access c at_sentinel 8 = dcache_access c at_sentinel 11 ∧
  l2cache_access c at_sentinel 8 = l2cache_access c at_sentinel 11.
Proof.
  apply (same_block_same_result one_set_each at_sentinel 2 8 11); [lia | reflexivity | reflexivity].
Defined.

(** ** Further properties of the access functions *)

Lemma reachable_wf c s : reachable c s → wf c s.
Proof. by intros [? _]%reachable_Inv. Qed.

(** X1.  With a non-zero block size and at least one way in every enabled
    level, no access from a reachable state indexes outside an array: all
    three entry points return. *)
Theorem access_in_bounds c s addr :
  config_ok c → reachable c s →
  is_Some (icache_access c s addr) ∧
  is_Some (dcache_access c s addr) ∧
  is_Some (l2cache_access c s addr).
Proof.
  intros Hc Hwf%reachable_wf. split_and!;
    [by apply icache_access_total | by apply dcache_access_total
    | by apply l2cache_access_total].
Qed.

Lemma access_in_bounds_witness :
  is_Some (icache_access one_set_each (init_cache one_set_each blank) 12) ∧
  is_Some (dcache_access one_set_each (init_cache one_set_each blank) 12) ∧
  is_Some (l2cache_access one_set_each (init_cache one_set_each blank) 12).
Proof.
  apply (access_in_bounds one_set_each (init_cache one_set_each blank) 12).
  - unfold config_ok. simpl. lia.
  - apply reach_init.
Defined.

Lemma find_tag_nil tag n : find_tag [] tag 0 n = Some None ∨ find_tag [] tag 0 n = None.
Proof. destruct n; simpl; auto. Qed.

(** X2.  An enabled level configured with no ways makes every access
    through it index outside its (empty) rows: the miss path writes to, or
    reads from, slot 0 of a row that has none. *)
Theorem zero_ways_out_of_bounds c s addr :
  wf c s →
  (icacheSets c ≠ 0 → icacheAssoc c ≤ 0 → icache_access c s addr = None) ∧
  (dcacheSets c ≠ 0 → dcacheAssoc c ≤ 0 → dcache_access c s addr = None) ∧
  (l2cacheSets c ≠ 0 → l2cacheAssoc c ≤ 0 → l2cache_access c s addr = None).
Proof.
  intros (Hit & Hil & Hdt & Hdl & H2t & H2l).
  split_and!; intros Hz Ha.
  - destruct (icache_access c s addr) as [[s' t]|] eqn:H; [exfalso|done].
    unfold icache_access in H. rewrite decide_False in H by done.
    replace (Z.to_nat (icacheAssoc c)) with 0%nat in * by lia.
    inv_bind H; loop_facts; lia.
  - destruct (dcache_access c s addr) as [[s' t]|] eqn:H; [exfalso|done].
    unfold dcache_access in H. rewrite decide_False in H by done.
    replace (Z.to_nat (dcacheAssoc c)) with 0%nat in * by lia.
    inv_bind H; loop_facts; lia.
  - destruct (l2cache_access c s addr) as [[s' t]|] eqn:H; [exfalso|done].
    unfold l2cache_access in H. rewrite decide_False in H by done.
    replace (Z.to_nat (l2cacheAssoc c)) with 0%nat in * by lia.
    inv_bind H; loop_facts; lia.
Qed.

Lemma l2cache_access_l1_view lvl c s addr s' t :
  l2cache_access c s addr = Some (s', t) → l1_view lvl s' = l1_view lvl s.
Proof.
  intros (Hst & ? & ? & ? & ?)%l2cache_access_frame. unfold stats in Hst.
  unfold l1_view. destruct lvl; simpl; congruence.
Qed.

(** X3.  The L2 never writes to the counters or storage of either L1, and
    an access through one L1 leaves the counters and storage of the other
    L1 untouched. *)
Theorem caches_keep_apart c s addr s' t :
  (l2cache_access c s addr = Some (s', t) →
     l1_view L1I s' = l1_view L1I s ∧ l1_view L1D s' = l1_view L1D s) ∧
  (∀ lvl, l1_access lvl c s addr = Some (s', t) →
     l1_view (other lvl) s' = l1_view (other lvl) s).
Proof.
  split.
  - intros H. split; by eapply l2cache_access_l1_view.
  - intros [] H; simpl in H.
    + unfold icache_access in H.
      destruct (decide (icacheSets c = 0)); [by eapply l2cache_access_l1_view|].
      inv_bind H; subst; [reflexivity|..];
        match goal with H : l2cache_access _ _ _ = Some _ |- _ =>
          apply (l2cache_access_l1_view L1D) in H; apply H end.
    + unfold dcache_access in H.
      destruct (decide (dcacheSets c = 0)); [by eapply l2cache_access_l1_view|].
      inv_bind H; subst; [reflexivity|..];
        match goal with H : l2cache_access _ _ _ = Some _ |- _ =>
          apply (l2cache_access_l1_view L1I) in H; apply H end.
Qed.

(** X4.  An L2 hit returns the L2 hit time, clears the eviction flag, counts
    one reference, and changes one recency row only: every counter of the
    set is incremented (with wrap-around) and the hit way reset to 0.  Tags,
    misses and penalties are unchanged. *)
Theorem l2_hit_frame c s addr w :
  wf c s → l2cacheSets c ≠ 0 → l2cache_probe c s addr = Some (Some w) →
  ∃ bw lru,
    log2 (blocksize c) = Some bw ∧
    l2_lru_storage s !! index_of addr bw (l2cacheSets c) = Some lru ∧
    l2cache_access c s addr =
      Some (State (icacheRefs s) (icacheMisses s) (icachePenalties s)
                  (dcacheRefs s) (dcacheMisses s) (dcachePenalties s)
                  (wrap64 (l2cacheRefs s + 1)) (l2cacheMisses s) (l2cachePenalties s)
                  false (l2_evicted_addr s)
                  (l1i_tag_storage s) (l1i_lru_storage s)
                  (l1d_tag_storage s) (l1d_lru_storage s)
                  (l2_tag_storage s)
                  (<[index_of addr bw (l2cacheSets c) :=
                       <[w := 0]> ((λ v, wrap32 (v + 1)) <$> lru)]> (l2_lru_storage s)),
            l2cacheHitTime c).
Proof. apply l2_hit. Qed.

Lemma l2_hit_frame_witness :
  ∃ bw lru,
    log2 (blocksize one_set_each) = Some bw ∧
    l2_lru_storage at_sentinel !! index_of 0 bw 1 = Some lru ∧
    l2cache_access one_set_each at_sentinel 0 =
      Some (State 0 0 0 0 0 0 (wrap64 (0 + 1)) 0 0 false 0
                  [[0; 0]] [[0; 0]] [[VALID_BIT; 0]] [[0; UINT32_MAX]] [[VALID_BIT; 0]]
                  (<[index_of 0 bw 1 := <[0%nat := 0]> ((λ v, wrap32 (v + 1)) <$> lru)]>
                     [[0; UINT32_MAX]]),
            5).
Proof.
  apply (l2_hit_frame one_set_each at_sentinel 0 0).
  - unfold wf, rows_ok. simpl. repeat split; repeat constructor.
  - simpl. lia.
  - vm_compute. reflexivity.
Defined.

(** A tag present in the scanned part of a row is found. *)
Lemma find_tag_found tags tag i n j :
  tags !! j = Some tag → (i ≤ j < i + n)%nat →
  ∃ w, find_tag tags tag i n = Some (Some w).
Proof.
  revert i. induction n as [|n IH]; intros i Hj Hr; [lia|]. simpl.
  destruct (lookup_lt_is_Some_2 tags i) as [t Ht].
  { apply lookup_lt_Some in Hj. lia. }
  rewrite Ht. simpl. case_decide; [by eexists|].
  apply IH; [done|]. destruct (decide (i = j)) as [->|]; [congruence | lia].
Qed.

Lemma probe_intro sets assoc storage c addr bw iw tags r :
  log2 (blocksize c) = Some bw → log2 sets = Some iw →
  storage !! index_of addr bw sets = Some tags →
  find_tag tags (tag_of addr bw iw) 0 (Z.to_nat assoc) = Some r →
  probe sets assoc storage c addr = Some r.
Proof. intros Hbw Hiw Ht Hf. unfold probe. rewrite Hbw, Hiw. simpl. by rewrite Ht. Qed.

(** After a miss has filled way [e], the tag is found. *)
Lemma refill_found (rows : list (list Z)) (index : nat) (tags : list Z) tag e n :
  rows !! index = Some tags → (e < length tags)%nat → (length tags ≤ n)%nat →
  ∃ w, <[index := <[e := tag]> tags]> rows !! index = Some (<[e := tag]> tags) ∧
       find_tag (<[e := tag]> tags) tag 0 n = Some (Some w).
Proof.
  intros Hrow He Hn.
  destruct (find_tag_found (<[e := tag]> tags) tag 0 n e) as [w Hw];
    [by apply list_lookup_insert_eq | lia |].
  exists w. split; [|done].
  apply list_lookup_insert_eq. by eapply lookup_lt_Some.
Qed.

Lemma l2_resident_after c s addr s' t :
  wf c s → l2cacheSets c ≠ 0 → l2cache_access c s addr = Some (s', t) →
  ∃ w, l2cache_probe c s' addr = Some (Some w).
Proof.
  intros (_ & _ & _ & _ & H2t & H2l) Hz H.
  unfold l2cache_access in H. rewrite decide_False in H by done.
  inv_bind H; subst; unfold l2cache_probe; case_valid; simpl.
  - eexists. by eapply probe_intro.
  - loop_facts.
    edestruct (refill_found (l2_tag_storage s)) as (w & Hrow & Hf); [done..| |].
    2:{ exists w. by eapply probe_intro. }
    lia.
  - loop_facts.
    edestruct (refill_found (l2_tag_storage s)) as (w & Hrow & Hf); [done..| |].
    2:{ exists w. by eapply probe_intro. }
    lia.
Qed.

(** X5.  Whatever an L2 access did, the block is resident afterwards: the
    same address accessed again costs the L2 hit time, without a miss. *)
Theorem l2_access_then_hit c s addr s' t :
  reachable c s → l2cacheSets c ≠ 0 → l2cache_access c s addr = Some (s', t) →
  ∃ s'', l2cache_access c s' addr = Some (s'', l2cacheHitTime c) ∧
         l2_tag_storage s'' = l2_tag_storage s' ∧
         l2cacheMisses s'' = l2cacheMisses s'.
Proof.
  intros Hr Hz H.
  pose proof (reachable_Inv _ _ (reach_l2cache _ _ _ _ _ Hr H)) as [Hwf' _].
  apply reachable_Inv in Hr as [Hwf _].
  destruct (l2_resident_after _ _ _ _ _ Hwf Hz H) as [w Hw].
  destruct (l2_hit _ _ _ _ Hwf' Hz Hw) as (bw & lru & _ & _ & Hacc).
  eexists. split; [exact Hacc|]. done.
Qed.

(** ** Stored tags carry the flag bit *)

Lemma tag_of_valid addr bw iw : valid (tag_of addr bw iw).
Proof.
  unfold valid, tag_of.
  assert (Z.land (Z.lor (Z.shiftr (Z.shiftr addr bw) iw) VALID_BIT) VALID_BIT = VALID_BIT)
    as ->; [|done].
  apply Z.bits_inj'. intros n Hn. rewrite Z.land_spec, Z.lor_spec.
  by destruct (Z.testbit _ n), (Z.testbit VALID_BIT n).
Qed.

Lemma tag_of_nonzero addr bw iw : tag_of addr bw iw ≠ 0.
Proof. intros H. pose proof (tag_of_valid addr bw iw) as Hv. rewrite H in Hv. by apply not_valid_0. Qed.

Lemma invalidate_slots tags lrus ei etag i n tags' lrus' :
  invalidate tags lrus ei etag i n = Some (tags', lrus') →
  Forall slot_ok tags → Forall slot_ok tags'.
Proof.
  intros (_ & Hk & _)%invalidate_spec HF. apply Forall_lookup. intros k t Ht.
  destruct (Hk k) as [Heq|[Heq _]]; rewrite Heq in Ht.
  - by eapply Forall_lookup_1.
  - injection Ht as <-. by left.
Qed.

Lemma slots_insert (rows : list (list Z)) index tags e addr bw iw :
  Forall (Forall slot_ok) rows → rows !! index = Some tags →
  Forall (Forall slot_ok) (<[index := <[e := tag_of addr bw iw]> tags]> rows).
Proof.
  intros HF Hrow. apply Forall_insert; [done|]. apply Forall_insert.
  - by eapply Forall_lookup_1.
  - right. apply tag_of_valid.
Qed.

Lemma l2cache_access_slots c s addr s' t :
  l2cache_access c s addr = Some (s', t) → slots_ok s → slots_ok s'.
Proof.
  unfold l2cache_access. intros H (Hi & Hd & H2).
  inv_bind H; subst; case_valid; simpl; loop_facts; split_and!; simpl; try assumption;
    (eapply slots_insert; eassumption).
Qed.

Lemma icache_access_slots c s addr s' t :
  icache_access c s addr = Some (s', t) → slots_ok s → slots_ok s'.
Proof.
  unfold icache_access. destruct (decide (icacheSets c = 0)); [apply l2cache_access_slots|].
  intros H (Hi & Hd & H2). inv_bind H; subst; loop_facts.
  - by split; [|split].
  - match goal with H : l2cache_access _ _ _ = Some _ |- _ =>
      apply l2cache_access_slots in H as (Hi' & ? & ?);
        [|split; [|split]; simpl; try assumption; (eapply slots_insert; eassumption)] end.
    split; [|split]; simpl; try assumption. apply Forall_insert; [done|].
    eapply invalidate_slots; [done|]. eapply (Forall_lookup_1 (Forall slot_ok)); last eassumption; eassumption.
  - match goal with H : l2cache_access _ _ _ = Some _ |- _ =>
      apply l2cache_access_slots in H as (Hi' & ? & ?);
        [|split; [|split]; simpl; try assumption; (eapply slots_insert; eassumption)] end.
    by split; [|split].
Qed.

Lemma dcache_access_slots c s addr s' t :
  dcache_access c s addr = Some (s', t) → slots_ok s → slots_ok s'.
Proof.
  unfold dcache_access. destruct (decide (dcacheSets c = 0)); [apply l2cache_access_slots|].
  intros H (Hi & Hd & H2). inv_bind H; subst; loop_facts.
  - by split; [|split].
  - match goal with H : l2cache_access _ _ _ = Some _ |- _ =>
      apply l2cache_access_slots in H as (? & Hd' & ?);
        [|split; [|split]; simpl; try assumption; (eapply slots_insert; eassumption)] end.
    split; [|split]; simpl; try assumption. apply Forall_insert; [done|].
    eapply invalidate_slots; [done|]. eapply (Forall_lookup_1 (Forall slot_ok)); last eassumption; eassumption.
  - match goal with H : l2cache_access _ _ _ = Some _ |- _ =>
      apply l2cache_access_slots in H as (? & Hd' & ?);
        [|split; [|split]; simpl; try assumption; (eapply slots_insert; eassumption)] end.
    by split; [|split].
Qed.

Lemma init_cache_slots c s0 : slots_ok (init_cache c s0).
Proof. split_and!; simpl; apply Forall_replicate, Forall_replicate; by left. Qed.

(** X6.  In every reachable state every stored tag is either 0 (an empty or
    cleared slot) or has the flag bit set, and the tag computed for an
    address is never 0: a lookup cannot match an empty slot. *)
Theorem stored_tags_are_flagged c s :
  reachable c s →
  slots_ok s ∧ ∀ addr bw iw, tag_of addr bw iw ≠ 0.
Proof.
  intros Hr. split; [|apply tag_of_nonzero].
  induction Hr; eauto using init_cache_slots, icache_access_slots, dcache_access_slots,
    l2cache_access_slots.
Qed.

(** ** Cold misses and warm hits *)

Lemma find_tag_not_in tags tag i n :
  tag ∉ tags → (i + n ≤ length tags)%nat → find_tag tags tag i n = Some None.
Proof.
  intros Hnot. revert i. induction n as [|n IH]; intros i Hlen; simpl; [done|].
  destruct (lookup_lt_is_Some_2 tags i) as [t Ht]; [lia|].
  rewrite Ht. simpl. case_decide as Heq.
  - subst t. destruct Hnot. apply list_elem_of_lookup. eauto.
  - apply IH. lia.
Qed.

Lemma probe_fresh sets assoc c addr :
  0 < blocksize c → 0 < sets →
  probe sets assoc (replicate (Z.to_nat sets) (replicate (Z.to_nat assoc) 0)) c addr
    = Some None.
Proof.
  intros Hb Hs. unfold probe. rewrite !log2_is_Some by done. simpl.
  rewrite lookup_replicate_2 by (by apply index_of_lt). simpl.
  apply find_tag_not_in; [|by rewrite length_replicate].
  intros [Heq _]%elem_of_replicate. by apply tag_of_nonzero in Heq.
Qed.

Lemma full_miss_fresh lvl c s0 addr :
  config_ok c → full_miss lvl c (init_cache c s0) addr.
Proof.
  intros (Hb & Hsi & _ & Hsd & _ & Hs2 & _). split.
  - destruct (decide (l1_sets lvl c = 0)) as [|Hz]; [by left | right].
    destruct lvl; simpl in *; apply probe_fresh; lia.
  - destruct (decide (l2cacheSets c = 0)) as [|Hz]; [by left | right].
    apply probe_fresh; lia.
Qed.

(** X7.  The first access to a freshly initialised hierarchy misses in every
    enabled level: it costs the hit times of the enabled levels plus
    [memspeed]. *)
Theorem cold_miss lvl c s0 addr :
  config_ok c → uint32 (memspeed c) →
  ∃ s', l1_access lvl c (init_cache c s0) addr = Some (s', wrap32 (full_miss_cost lvl c)).
Proof.
  intros Hc Hm. apply full_miss_latency; [done | | done | by apply full_miss_fresh].
  apply init_cache_Inv.
Qed.

Lemma cold_miss_witness :
  ∃ s', l1_access L1D (scenario 1 1) (init_cache (scenario 1 1) blank) 16
        = Some (s', wrap32 (full_miss_cost L1D (scenario 1 1))).
Proof.
  apply (cold_miss L1D (scenario 1 1) blank 16).
  - unfold config_ok. simpl. lia.
  - unfold uint32. simpl. lia.
Defined.

Lemma l2_vacant_no_evict c s addr s' t :
  l2cache_access c s addr = Some (s', t) → vacant (l2_tag_storage s) →
  l2_did_evict s' = false.
Proof.
  unfold l2cache_access. intros H Hvac. inv_bind H; subst; try done.
  case_valid; [done|]. exfalso.
  match goal with Hrow : l2_tag_storage s !! _ = Some ?row, Hv : ?row !! _ = Some ?v |- _ =>
    apply (Hvac row v); [by eapply list_elem_of_lookup_2 | by eapply list_elem_of_lookup_2 |]
  end. done.
Qed.

Lemma l1_access_did_evict lvl c s addr s' t :
  l1_access lvl c s addr = Some (s', t) →
  (l1_sets lvl c ≠ 0 → l1_probe lvl c s addr = Some None) →
  vacant (l2_tag_storage s) →
  l2_did_evict s' = false.
Proof.
  intros H Hm Hvac. destruct (decide (l1_sets lvl c = 0)) as [Hz|Hz].
  - rewrite l1_bypass in H by done. by eapply l2_vacant_no_evict.
  - specialize (Hm Hz).
    destruct lvl; simpl in *; apply probe_Some in Hm as (bw & iw & tags & ? & ? & ? & ?).
    + unfold icache_access in H. rewrite decide_False in H by done.
      inv_bind H; simplify_eq;
        match goal with H : l2cache_access _ _ _ = Some _ |- _ =>
          apply l2_vacant_no_evict in H; [|done] end; simpl in *; [|done].
      rewrite andb_true_iff in *. naive_solver.
    + unfold dcache_access in H. rewrite decide_False in H by done.
      inv_bind H; simplify_eq;
        match goal with H : l2cache_access _ _ _ = Some _ |- _ =>
          apply l2_vacant_no_evict in H; [|done] end; simpl in *; [|done].
      rewrite andb_true_iff in *. naive_solver.
Qed.

Lemma l1_resident_after lvl c s addr s' t :
  wf c s → l1_sets lvl c ≠ 0 → l1_access lvl c s addr = Some (s', t) →
  inclusive c = 0 ∨ l2_did_evict s' = false →
  ∃ w, l1_probe lvl c s' addr = Some (Some w).
Proof.
  intros (Hit & Hil & Hdt & Hdl & _) Hz H Hno.
  assert (∀ s0 : state, l2_did_evict s0 = l2_did_evict s' →
            bool_decide (inclusive c ≠ 0) && l2_did_evict s0 = true → False) as Hoff.
  { intros s0 Heq [Hi He]%andb_true_iff. apply bool_decide_eq_true_1 in Hi.
    destruct Hno as [?|Hf]; [done|]. congruence. }
  destruct lvl; simpl in *.
  - unfold icache_access in H. rewrite decide_False in H by done.
    inv_bind H; subst; unfold icache_probe; simpl.
    + eexists. by eapply probe_intro.
    + exfalso. by eapply Hoff.
    + match goal with H : l2cache_access _ _ _ = Some _ |- _ =>
        apply l2cache_access_frame in H as (_ & -> & _) end. simpl. loop_facts.
      edestruct (refill_found (l1i_tag_storage s)) as (w & Hrow & Hf); [done..| |].
      2:{ exists w. by eapply probe_intro. }
      lia.
  - unfold dcache_access in H. rewrite decide_False in H by done.
    inv_bind H; subst; unfold dcache_probe; simpl.
    + eexists. by eapply probe_intro.
    + exfalso. by eapply Hoff.
    + match goal with H : l2cache_access _ _ _ = Some _ |- _ =>
        apply l2cache_access_frame in H as (_ & _ & _ & -> & _) end. simpl. loop_facts.
      edestruct (refill_found (l1d_tag_storage s)) as (w & Hrow & Hf); [done..| |].
      2:{ exists w. by eapply probe_intro. }
      lia.
Qed.

Lemma vacant_fresh sets assoc :
  vacant (replicate (Z.to_nat sets) (replicate (Z.to_nat assoc) 0)).
Proof.
  intros row v [-> _]%elem_of_replicate [-> _]%elem_of_replicate. apply not_valid_0.
Qed.

Lemma l1_probe_after_hit lvl c s index row addr :
  l1_probe lvl c (l1_after_hit lvl s index row) addr = l1_probe lvl c s addr.
Proof. by destruct lvl. Qed.

Lemma step_through lvl c s addr : step c s (through lvl addr) = l1_access lvl c s addr.
Proof. by destruct lvl. Qed.

Lemma reachable_l1 lvl c s addr s' t :
  reachable c s → l1_access lvl c s addr = Some (s', t) → reachable c s'.
Proof. destruct lvl; [apply reach_icache | apply reach_dcache]. Qed.

(** Once a block is resident in an L1, accesses to it keep hitting. *)
Lemma warm_hits lvl c s addr n w :
  reachable c s → l1_sets lvl c ≠ 0 → l1_probe lvl c s addr = Some (Some w) →
  snd <$> run c s (replicate n (through lvl addr)) = Some (replicate n (l1_hit_time lvl c)).
Proof.
  revert s. induction n as [|n IH]; intros s Hr Hz Hp; simpl; [done|].
  destruct (l1_hit c s lvl addr w (reachable_wf _ _ Hr) Hz Hp) as (bw & lru & Hbw & Hlru & Hacc).
  rewrite step_through, Hacc. simpl.
  match goal with |- context [run c ?s1 _] =>
    assert (snd <$> run c s1 (replicate n (through lvl addr))
            = Some (replicate n (l1_hit_time lvl c))) as Hrest
  end.
  { apply IH; [by eapply reachable_l1 | done | by rewrite l1_probe_after_hit]. }
  destruct (run c _ _) as [[s2 ts]|]; simpl in *; by simplify_eq.
Qed.

(** X8.  One address accessed again and again through an enabled L1 of a
    fresh hierarchy: one full miss, then nothing but L1 hits. *)
Theorem repeated_address lvl c s0 addr n :
  config_ok c → uint32 (memspeed c) → l1_sets lvl c ≠ 0 →
  snd <$> run c (init_cache c s0) (replicate (S n) (through lvl addr)) =
    Some (wrap32 (full_miss_cost lvl c) :: replicate n (l1_hit_time lvl c)).
Proof.
  intros Hc Hm Hz. simpl.
  pose proof (full_miss_fresh lvl c s0 addr Hc) as Hfull.
  destruct (full_miss_latency lvl c (init_cache c s0) addr Hc
              (proj1 (init_cache_Inv c s0)) Hm Hfull) as [s1 Hacc].
  rewrite step_through, Hacc. simpl.
  assert (reachable c s1) as Hr1 by (eapply reachable_l1; [apply reach_init | done]).
  assert (l2_did_evict s1 = false) as Hne.
  { eapply l1_access_did_evict; [done| |apply vacant_fresh].
    intros _. by destruct Hfull as [[?|?] _]. }
  destruct (l1_resident_after lvl c _ addr s1 _ (proj1 (init_cache_Inv c s0)) Hz Hacc)
    as [w Hw]; [by right|].
  pose proof (warm_hits lvl c s1 addr n w Hr1 Hz Hw) as Hrest.
  destruct (run c s1 _) as [[s2 ts]|]; simpl in *; by simplify_eq.
Qed.

Lemma repeated_address_witness :
  snd <$> run (scenario 1 1) (init_cache (scenario 1 1) blank) (replicate 4 (Data 16)) =
    Some (wrap32 (full_miss_cost L1D (scenario 1 1)) :: replicate 3 1).
Proof.
  apply (repeated_address L1D (scenario 1 1) blank 16 3).
  - unfold config_ok. simpl. lia.
  - unfold uint32. simpl. lia.
  - simpl. lia.
Defined.

(** X9.  In a non-inclusive hierarchy the block just accessed through an L1
    is resident in it: accessing the address again costs the L1 hit time
    and leaves the tags alone. *)
Theorem l1_access_then_hit lvl c s addr s' t :
  reachable c s → l1_sets lvl c ≠ 0 → inclusive c = 0 →
  l1_access lvl c s addr = Some (s', t) →
  ∃ s'', l1_access lvl c s' addr = Some (s'', l1_hit_time lvl c) ∧
         l1_tag_storage lvl s'' = l1_tag_storage lvl s'.
Proof.
  intros Hr Hz Hni Hacc.
  destruct (l1_resident_after lvl c s addr s' t (reachable_wf _ _ Hr) Hz Hacc) as [w Hw];
    [by left|].
  pose proof (reachable_wf _ _ (reachable_l1 _ _ _ _ _ _ Hr Hacc)) as Hwf'.
  destruct (l1_hit c s' lvl addr w Hwf' Hz Hw) as (bw & lru & _ & _ & Hhit).
  eexists. split; [exact Hhit|]. by destruct lvl.
Qed.

(** ** What an eviction removes *)

(** X10.  What the inclusion loop does guarantee: after an L1 miss in an
    inclusive hierarchy whose L2 access signalled an eviction, the address
    left in [l2_evicted_addr] is not cached in the requesting L1. *)
Theorem inclusion_clears_reported_block lvl c s addr s' t :
  wf c s → l1_sets lvl c ≠ 0 → l1_probe lvl c s addr = Some None →
  inclusive c ≠ 0 → l1_access lvl c s addr = Some (s', t) → l2_did_evict s' = true →
  l1_probe lvl c s' (l2_evicted_addr s') = Some None.
Proof.
  intros (Hit & Hil & Hdt & Hdl & _) Hz Hm Hinc H Hev.
  destruct lvl; simpl in *; apply probe_Some in Hm as (bw & iw & tags & ? & ? & ? & ?).
  - unfold icache_access in H. rewrite decide_False in H by done.
    inv_bind H; simplify_eq; simpl in *.
    + match goal with H : invalidate _ _ _ _ _ _ = Some _ |- _ =>
        pose proof (invalidate_spec _ _ _ _ _ _ _ _ H) as (Hlen & _ & Hgone & _) end.
      match goal with H : l2cache_access _ _ _ = Some _ |- _ =>
        pose proof (l2cache_access_frame _ _ _ _ _ H) as (_ & Ht0 & _) end.
      simpl in Ht0. loop_facts.
      match goal with H : l1i_tag_storage s0 !! _ = Some ?x |- _ =>
        assert (length x = Z.to_nat (icacheAssoc c)) as Hlx
      end.
      { eapply rows_ok_lookup; [|done]. rewrite Ht0.
        apply rows_ok_insert; [done|]. by rewrite length_insert. }
      unfold icache_probe. simpl.
      eapply probe_intro; [done | done | |].
      * apply list_lookup_insert_eq. by eapply lookup_lt_Some.
      * apply find_tag_not_in; [|lia].
        intros [k Hk]%list_elem_of_lookup. pose proof (lookup_lt_Some _ _ _ Hk).
        destruct (Hgone k) as [?|?]; [lia | done | by eapply tag_of_nonzero].
    + rewrite Hev, andb_true_r in *.
      match goal with H : bool_decide _ = false |- _ => apply bool_decide_eq_false_1 in H end.
      done.
  - unfold dcache_access in H. rewrite decide_False in H by done.
    inv_bind H; simplify_eq; simpl in *.
    + match goal with H : invalidate _ _ _ _ _ _ = Some _ |- _ =>
        pose proof (invalidate_spec _ _ _ _ _ _ _ _ H) as (Hlen & _ & Hgone & _) end.
      match goal with H : l2cache_access _ _ _ = Some _ |- _ =>
        pose proof (l2cache_access_frame _ _ _ _ _ H) as (_ & _ & _ & Ht0 & _) end.
      simpl in Ht0. loop_facts.
      match goal with H : l1d_tag_storage s0 !! _ = Some ?x |- _ =>
        assert (length x = Z.to_nat (dcacheAssoc c)) as Hlx
      end.
      { eapply rows_ok_lookup; [|done]. rewrite Ht0.
        apply rows_ok_insert; [done|]. by rewrite length_insert. }
      unfold dcache_probe. simpl.
      eapply probe_intro; [done | done | |].
      * apply list_lookup_insert_eq. by eapply lookup_lt_Some.
      * apply find_tag_not_in; [|lia].
        intros [k Hk]%list_elem_of_lookup. pose proof (lookup_lt_Some _ _ _ Hk).
        destruct (Hgone k) as [?|?]; [lia | done | by eapply tag_of_nonzero].
    + rewrite Hev, andb_true_r in *.
      match goal with H : bool_decide _ = false |- _ => apply bool_decide_eq_false_1 in H end.
      done.
Qed.

Lemma valid_tags_lookup_unique (row : list Z) i j v :
  NoDup (valid_tags row) → valid v → row !! i = Some v → row !! j = Some v → i = j.
Proof.
  unfold valid_tags. revert i j. induction row as [|a row IH]; intros i j Hnd Hv Hi Hj; [done|].
  rewrite filter_cons in Hnd.
  destruct i as [|i], j as [|j]; simpl in *; simplify_eq; [done| | |].
  - rewrite decide_True in Hnd by done. apply NoDup_cons in Hnd as [Hnot _].
    destruct Hnot. apply list_elem_of_filter. split; [done|]. by eapply list_elem_of_lookup_2.
  - rewrite decide_True in Hnd by done. apply NoDup_cons in Hnd as [Hnot _].
    destruct Hnot. apply list_elem_of_filter. split; [done|]. by eapply list_elem_of_lookup_2.
  - f_equal. apply IH; [|done..]. case_decide; [by apply NoDup_cons in Hnd as [_ ?] | done].
Qed.

(** X11.  When an L2 access signals an eviction, it was a miss, the victim
    was a valid tag of the addressed set, the new tag took its way and no
    other, the victim occurs nowhere in the set any more, and the address
    reported is computed from the victim and its way. *)
Theorem l2_eviction_removes_victim c s addr s' t :
  reachable c s → l2cache_access c s addr = Some (s', t) → l2_did_evict s' = true →
  ∃ bw iw row way victim,
    log2 (blocksize c) = Some bw ∧ log2 (l2cacheSets c) = Some iw ∧
    l2_tag_storage s !! index_of addr bw (l2cacheSets c) = Some row ∧
    row !! way = Some victim ∧ valid victim ∧
    l2_tag_storage s' =
      <[index_of addr bw (l2cacheSets c) := <[way := tag_of addr bw iw]> row]> (l2_tag_storage s) ∧
    (victim ∉ <[way := tag_of addr bw iw]> row) ∧
    l2_evicted_addr s' = evicted_address victim way bw iw ∧
    t = wrap32 (l2cacheHitTime c + memspeed c).
Proof.
  intros [(_ & _ & _ & _ & H2t & H2l) (_ & _ & H2)]%reachable_Inv H Hev.
  unfold l2cache_access in H. inv_bind H; subst; try done.
  revert Hev. case_valid; simpl; [done|intros _].
  loop_facts.
  exists x, x0, x1, n0, x4. split_and!; try done.
  pose proof (Forall_lookup_1 _ _ _ _ H2 Hx1) as [_ Hnd].
  pose proof (find_tag_absent _ _ _ Hx2 ltac:(lia)) as Hnew.
  intros [j Hj]%list_elem_of_lookup.
  apply list_lookup_insert_Some in Hj as [(-> & <- & _)|[Hne Hj]].
  - destruct Hnew. by eapply list_elem_of_lookup_2.
  - destruct Hne. by eapply (valid_tags_lookup_unique x1).
Qed.

(** ** The victim of a miss *)

Lemma scan_victim sentinel lru i n e g e' lru' :
  scan sentinel lru i n e g = Some (e', lru') →
  ∃ g', g ≤ g' ∧
    (∀ j v, (i ≤ j < i + n)%nat → lru !! j = Some v → v ≤ g') ∧
    ((e' = e ∧ g' = g) ∨
     ((i ≤ e' < i + n)%nat ∧ lru !! e' = Some g' ∧ g < g' ∧
      ∀ j v, (i ≤ j < e')%nat → lru !! j = Some v → v < g')).
Proof.
  revert lru i e g. induction n as [|n IH]; intros lru i e g; simpl.
  - intros [= <- <-]. exists g. split_and!; [lia | intros; lia | by left].
  - destruct (lru !! i) as [v|] eqn:Hv; simpl; [|done].
    assert (∀ j, (S i ≤ j)%nat → <[i := age sentinel v]> lru !! j = lru !! j) as Hsame.
    { intros j Hj. apply list_lookup_insert_ne. lia. }
    case_decide as Hlt; intros (g' & Hg & Hbound & Hcase)%IH; exists g'.
    + split_and!; [lia| |].
      * intros j w Hj Hw. destruct (decide (j = i)) as [->|]; [by simplify_eq|].
        apply (Hbound j); [lia|]. by rewrite Hsame by lia.
      * right. destruct Hcase as [[-> ->]|(Hr & He & Hgt & Hfirst)].
        -- split_and!; try done; try lia; intros; lia.
        -- rewrite Hsame in He by lia. split_and!; try done; try lia.
           intros j w Hj Hw. destruct (decide (j = i)) as [->|]; [simplify_eq; lia|].
           apply (Hfirst j); [lia|]. by rewrite Hsame by lia.
    + split_and!; [lia| |].
      * intros j w Hj Hw. destruct (decide (j = i)) as [->|]; [simplify_eq; lia|].
        apply (Hbound j); [lia|]. by rewrite Hsame by lia.
      * destruct Hcase as [[-> ->]|(Hr & He & Hgt & Hfirst)]; [by left | right].
        rewrite Hsame in He by lia. split_and!; try done; try lia.
        intros j w Hj Hw. destruct (decide (j = i)) as [->|]; [simplify_eq; lia|].
        apply (Hfirst j); [lia|]. by rewrite Hsame by lia.
Qed.

Lemma scan_first_oldest sentinel lru e lru' :
  Forall uint32 lru → (0 < length lru)%nat →
  scan sentinel lru 0 (length lru) 0 0 = Some (e, lru') → first_oldest lru e.
Proof.
  intros Hr Hlen (g' & Hg & Hbound & Hcase)%scan_victim.
  destruct Hcase as [[-> ->]|(Hrange & He & Hgt & Hfirst)].
  - destruct (lookup_lt_is_Some_2 lru 0) as [v0 H0]; [lia|].
    exists v0. split_and!; [done| |intros; lia].
    intros j v Hv. pose proof (Forall_lookup_1 _ _ _ _ Hr H0) as [? _].
    pose proof (lookup_lt_Some _ _ _ Hv). specialize (Hbound j v ltac:(lia) Hv). lia.
  - exists g'. split_and!; [done| |].
    + intros j v Hv. pose proof (lookup_lt_Some _ _ _ Hv). apply (Hbound j); [lia | done].
    + intros j v Hj Hv. apply (Hfirst j); [lia | done].
Qed.

Lemma age_uint32 sentinel v : uint32 v → uint32 (age sentinel v).
Proof.
  intros Hv. unfold age. destruct (sentinel && bool_decide (v = UINT32_MAX)); [done|].
  unfold uint32, wrap32. apply Z.mod_pos_bound. lia.
Qed.

Lemma bump_uint32 sentinel lru j n lru' :
  bump sentinel lru j n = Some lru' → Forall uint32 lru → Forall uint32 lru'.
Proof.
  intros [_ Hk]%bump_spec HF. apply Forall_lookup. intros k v. rewrite Hk.
  case_decide.
  - intros (w & Hw & ->)%fmap_Some. apply age_uint32. by eapply Forall_lookup_1.
  - by apply Forall_lookup_1.
Qed.

Lemma invalidate_uint32 tags lrus ei etag i n tags' lrus' :
  invalidate tags lrus ei etag i n = Some (tags', lrus') →
  Forall (Forall uint32) lrus → Forall (Forall uint32) lrus'.
Proof.
  revert tags lrus i. induction n as [|n IH]; intros tags lrus i; simpl.
  - by intros [= <- <-].
  - destruct (tags !! i) as [t|] eqn:Ht; simpl; [|done].
    case_decide as Heq; [|by apply IH].
    destruct (lrus !! ei) as [row|] eqn:Hrow; simpl; [|done].
    destruct (store row i UINT32_MAX) as [row'|] eqn:Hst; simpl; [|done].
    apply store_Some in Hst as [_ ->].
    intros Hinv HF. eapply IH; [done|].
    apply Forall_insert; [done|]. apply Forall_insert; [by eapply Forall_lookup_1|].
    unfold uint32, UINT32_MAX. lia.
Qed.

Lemma uint32_0 : uint32 0.
Proof. unfold uint32. lia. Qed.

(** A recency row after a hit or a miss: aged, one way reset. *)
Lemma aged_row_uint32 (rows : list (list Z)) index sentinel lru lru1 j n w :
  Forall (Forall uint32) rows → rows !! index = Some lru →
  bump sentinel lru j n = Some lru1 →
  Forall (Forall uint32) (<[index := <[w := 0]> lru1]> rows).
Proof.
  intros HF Hrow Hb. apply Forall_insert; [done|].
  apply Forall_insert; [|apply uint32_0].
  eapply bump_uint32; [done|]. by eapply Forall_lookup_1.
Qed.

Ltac loop_rows :=
  repeat match goal with
  | H : store _ _ _ = Some _ |- _ => apply store_Some in H as [_ ->]
  | H : scan _ _ _ _ _ _ = Some _ |- _ => apply scan_spec in H as [H _]
  end.

Lemma l2cache_access_lrus c s addr s' t :
  l2cache_access c s addr = Some (s', t) → lrus_ok s → lrus_ok s'.
Proof.
  unfold l2cache_access. intros H (Hi & Hd & H2).
  inv_bind H; subst; case_valid; simpl; loop_rows;
    (split; [|split]); simpl; try assumption;
    (eapply aged_row_uint32; last eassumption; eassumption).
Qed.

Lemma icache_access_lrus c s addr s' t :
  icache_access c s addr = Some (s', t) → lrus_ok s → lrus_ok s'.
Proof.
  unfold icache_access. destruct (decide (icacheSets c = 0)); [apply l2cache_access_lrus|].
  intros H (Hi & Hd & H2). inv_bind H; subst; loop_rows.
  - split; [|split]; simpl; try assumption.
    eapply aged_row_uint32; last eassumption; eassumption.
  - match goal with H : l2cache_access _ _ _ = Some _ |- _ =>
      apply l2cache_access_lrus in H as (Hi' & ? & ?);
        [|split; [|split]; simpl; try assumption;
          (eapply aged_row_uint32; last eassumption; eassumption)] end.
    split; [|split]; simpl; try assumption. by eapply invalidate_uint32.
  - match goal with H : l2cache_access _ _ _ = Some _ |- _ =>
      apply l2cache_access_lrus in H as (Hi' & ? & ?);
        [|split; [|split]; simpl; try assumption;
          (eapply aged_row_uint32; last eassumption; eassumption)] end.
    by split; [|split].
Qed.

Lemma dcache_access_lrus c s addr s' t :
  dcache_access c s addr = Some (s', t) → lrus_ok s → lrus_ok s'.
Proof.
  unfold dcache_access. destruct (decide (dcacheSets c = 0)); [apply l2cache_access_lrus|].
  intros H (Hi & Hd & H2). inv_bind H; subst; loop_rows.
  - split; [|split]; simpl; try assumption.
    eapply aged_row_uint32; last eassumption; eassumption.
  - match goal with H : l2cache_access _ _ _ = Some _ |- _ =>
      apply l2cache_access_lrus in H as (? & Hd' & ?);
        [|split; [|split]; simpl; try assumption;
          (eapply aged_row_uint32; last eassumption; eassumption)] end.
    split; [|split]; simpl; try assumption. by eapply invalidate_uint32.
  - match goal with H : l2cache_access _ _ _ = Some _ |- _ =>
      apply l2cache_access_lrus in H as (? & Hd' & ?);
        [|split; [|split]; simpl; try assumption;
          (eapply aged_row_uint32; last eassumption; eassumption)] end.
    by split; [|split].
Qed.

Lemma reachable_lrus c s : reachable c s → lrus_ok s.
Proof.
  induction 1; eauto using icache_access_lrus, dcache_access_lrus, l2cache_access_lrus.
  split; [|split]; simpl; apply Forall_replicate, Forall_replicate, uint32_0.
Qed.

(** The row-level content of every miss path. *)
Lemma miss_path sets assoc (lrus : list (list Z)) sentinel index lru way lru1 lru2 :
  rows_ok sets assoc lrus → Forall (Forall uint32) lrus →
  lrus !! index = Some lru →
  scan sentinel lru 0 (Z.to_nat assoc) 0 0 = Some (way, lru1) →
  store lru1 way 0 = Some lru2 →
  lru2 = <[way := 0]> (age sentinel <$> lru) ∧ first_oldest lru way.
Proof.
  intros Hok Hr Hlru Hscan [Hway ->]%store_Some.
  pose proof (rows_ok_lookup _ _ _ _ _ Hok Hlru) as Hlen. rewrite <- Hlen in Hscan.
  pose proof (scan_spec _ _ _ _ _ _ _ _ Hscan) as [Hb _].
  rewrite bump_all in Hb. injection Hb as <-. rewrite length_fmap in Hway.
  split; [done|].
  eapply scan_first_oldest; [by eapply Forall_lookup_1 | lia | done].
Qed.

Lemma l2_miss_step c s addr :
  config_ok c → reachable c s → l2cacheSets c ≠ 0 → l2cache_probe c s addr = Some None →
  ∃ bw iw tags lru way s',
    log2 (blocksize c) = Some bw ∧ log2 (l2cacheSets c) = Some iw ∧
    l2_tag_storage s !! index_of addr bw (l2cacheSets c) = Some tags ∧
    l2_lru_storage s !! index_of addr bw (l2cacheSets c) = Some lru ∧
    first_oldest lru way ∧
    l2cache_access c s addr = Some (s', wrap32 (l2cacheHitTime c + memspeed c)) ∧
    l2_tag_storage s' =
      <[index_of addr bw (l2cacheSets c) := <[way := tag_of addr bw iw]> tags]>
        (l2_tag_storage s) ∧
    l2_lru_storage s' =
      <[index_of addr bw (l2cacheSets c) := <[way := 0]> ((λ v, wrap32 (v + 1)) <$> lru)]>
        (l2_lru_storage s) ∧
    (l2_did_evict s' = true ↔ ∃ v, tags !! way = Some v ∧ valid v).
Proof.
  intros Hc Hr Hz Hm.
  pose proof (reachable_lrus _ _ Hr) as (_ & _ & Hr2).
  pose proof (reachable_wf _ _ Hr) as Hwf. pose proof Hwf as (_ & _ & _ & _ & H2t & H2l).
  destruct (l2cache_access_total c s addr Hc Hwf) as [[s' t] Hacc].
  apply probe_Some in Hm as (bw & iw & tags & Hbw & Hiw & Htags & Hf).
  pose proof Hacc as H. unfold l2cache_access in H. rewrite decide_False in H by done.
  inv_bind H; simplify_eq.
  match goal with
  | Hl : l2_lru_storage s !! _ = Some ?lru, Hs : scan _ ?lru _ _ _ _ = Some _,
    Hst : store _ _ 0 = Some _ |- _ =>
      destruct (miss_path _ _ _ _ _ _ _ _ _ H2l Hr2 Hl Hs Hst) as [-> Hfirst];
      eexists bw, iw, tags, lru, _, _
  end.
  loop_facts.
  split_and!; try done; case_valid; simpl; try done.
  - split; [done|]. intros (v & Hv & Hvalid). by simplify_eq.
  - split; [|done]. intros _. eauto.
Qed.

Lemma first_oldest_sentinel lru way j :
  Forall uint32 lru → first_oldest lru way → lru !! j = Some UINT32_MAX →
  lru !! way = Some UINT32_MAX.
Proof.
  intros Hr (g & Hg & Hmax & _) Hj.
  pose proof (Forall_lookup_1 _ _ _ _ Hr Hg) as [_ Hlt].
  specialize (Hmax j _ Hj). rewrite Hg. f_equal. unfold UINT32_MAX in *. lia.
Qed.

Lemma l1_miss_step lvl c s addr :
  config_ok c → reachable c s → l1_sets lvl c ≠ 0 → inclusive c = 0 →
  l1_probe lvl c s addr = Some None →
  ∃ bw iw tags lru way s' t,
    log2 (blocksize c) = Some bw ∧ log2 (l1_sets lvl c) = Some iw ∧
    l1_tag_storage lvl s !! index_of addr bw (l1_sets lvl c) = Some tags ∧
    l1_lru_storage lvl s !! index_of addr bw (l1_sets lvl c) = Some lru ∧
    first_oldest lru way ∧
    (∀ j, lru !! j = Some UINT32_MAX → lru !! way = Some UINT32_MAX) ∧
    l1_access lvl c s addr = Some (s', t) ∧
    l1_tag_storage lvl s' =
      <[index_of addr bw (l1_sets lvl c) := <[way := tag_of addr bw iw]> tags]>
        (l1_tag_storage lvl s) ∧
    l1_lru_storage lvl s' =
      <[index_of addr bw (l1_sets lvl c) := <[way := 0]> (age true <$> lru)]>
        (l1_lru_storage lvl s).
Proof.
  intros Hc Hr Hz Hinc Hm.
  pose proof (reachable_lrus _ _ Hr) as (Hri & Hrd & _).
  pose proof (reachable_wf _ _ Hr) as Hwf. pose proof Hwf as (Hit & Hil & Hdt & Hdl & _).
  destruct (l1_access_total lvl c s addr Hc Hwf) as [[s' t] Hacc].
  assert (bool_decide (inclusive c ≠ 0) = false) as Hoff by by apply bool_decide_eq_false_2; intros [].
  destruct lvl; simpl in *;
    apply probe_Some in Hm as (bw & iw & tags & Hbw & Hiw & Htags & Hf);
    pose proof Hacc as H.
  - unfold icache_access in H. rewrite decide_False in H by done.
    inv_bind H; simplify_eq; [by rewrite Hoff in *|].
    match goal with
    | Hl : l1i_lru_storage s !! _ = Some ?lru, Hs : scan _ ?lru _ _ _ _ = Some _,
      Hst : store _ _ 0 = Some _ |- _ =>
        destruct (miss_path _ _ _ _ _ _ _ _ _ Hil Hri Hl Hs Hst) as [-> Hfirst]; clear Hst;
        eexists bw, iw, tags, lru, _, _, _
    end.
    match goal with H : l2cache_access _ _ _ = Some _ |- _ =>
      apply l2cache_access_frame in H as (_ & Ht0 & Hl0 & _) end.
    loop_facts. split_and!; try done.
    intros j Hj. eapply first_oldest_sentinel; [|done..].
    eapply (Forall_lookup_1 (Forall uint32)); last eassumption; eassumption.
  - unfold dcache_access in H. rewrite decide_False in H by done.
    inv_bind H; simplify_eq; [by rewrite Hoff in *|].
    match goal with
    | Hl : l1d_lru_storage s !! _ = Some ?lru, Hs : scan _ ?lru _ _ _ _ = Some _,
      Hst : store _ _ 0 = Some _ |- _ =>
        destruct (miss_path _ _ _ _ _ _ _ _ _ Hdl Hrd Hl Hs Hst) as [-> Hfirst]; clear Hst;
        eexists bw, iw, tags, lru, _, _, _
    end.
    match goal with H : l2cache_access _ _ _ = Some _ |- _ =>
      apply l2cache_access_frame in H as (_ & _ & _ & Ht0 & Hl0) end.
    loop_facts. split_and!; try done.
    intros j Hj. eapply first_oldest_sentinel; [|done..].
    eapply (Forall_lookup_1 (Forall uint32)); last eassumption; eassumption.
Qed.

(** X12.  An L2 miss overwrites the first way among those with the largest
    recency, increments every counter of the set and resets that way's to
    0; it signals an eviction exactly when the overwritten slot was
    valid. *)
Theorem l2_miss_replaces_first_oldest c s addr :
  config_ok c → reachable c s → l2cacheSets c ≠ 0 → l2cache_probe c s addr = Some None →
  ∃ bw iw tags lru way s',
    log2 (blocksize c) = Some bw ∧ log2 (l2cacheSets c) = Some iw ∧
    l2_tag_storage s !! index_of addr bw (l2cacheSets c) = Some tags ∧
    l2_lru_storage s !! index_of addr bw (l2cacheSets c) = Some lru ∧
    first_oldest lru way ∧
    l2cache_access c s addr = Some (s', wrap32 (l2cacheHitTime c + memspeed c)) ∧
    l2_tag_storage s' =
      <[index_of addr bw (l2cacheSets c) := <[way := tag_of addr bw iw]> tags]>
        (l2_tag_storage s) ∧
    l2_lru_storage s' =
      <[index_of addr bw (l2cacheSets c) := <[way := 0]> ((λ v, wrap32 (v + 1)) <$> lru)]>
        (l2_lru_storage s) ∧
    (l2_did_evict s' = true ↔ ∃ v, tags !! way = Some v ∧ valid v).
Proof. apply l2_miss_step. Qed.

(** X13.  An L1 miss in a non-inclusive hierarchy overwrites the first way
    among those with the largest recency; if any way of the set sits at the
    sentinel, the overwritten way does.  Counters other than the sentinel
    are incremented and the refilled way's is reset to 0. *)
Theorem l1_miss_refills_first_oldest lvl c s addr :
  config_ok c → reachable c s → l1_sets lvl c ≠ 0 → inclusive c = 0 →
  l1_probe lvl c s addr = Some None →
  ∃ bw iw tags lru way s' t,
    log2 (blocksize c) = Some bw ∧ log2 (l1_sets lvl c) = Some iw ∧
    l1_tag_storage lvl s !! index_of addr bw (l1_sets lvl c) = Some tags ∧
    l1_lru_storage lvl s !! index_of addr bw (l1_sets lvl c) = Some lru ∧
    first_oldest lru way ∧
    (∀ j, lru !! j = Some UINT32_MAX → lru !! way = Some UINT32_MAX) ∧
    l1_access lvl c s addr = Some (s', t) ∧
    l1_tag_storage lvl s' =
      <[index_of addr bw (l1_sets lvl c) := <[way := tag_of addr bw iw]> tags]>
        (l1_tag_storage lvl s) ∧
    l1_lru_storage lvl s' =
      <[index_of addr bw (l1_sets lvl c) := <[way := 0]> (age true <$> lru)]>
        (l1_lru_storage lvl s).
Proof. apply l1_miss_step. Qed.

(** ** Least recently used *)

Lemma recency_lookup k n j :
  (j < n)%nat →
  recency k n !! j = Some (if decide (j < k)%nat then Z.of_nat (k - 1 - j) else Z.of_nat k).
Proof.
  intros Hj. unfold recency. rewrite list_lookup_fmap, lookup_seq_lt by done. done.
Qed.

Lemma recency_length k n : length (recency k n) = n.
Proof. unfold recency. by rewrite length_fmap, length_seq. Qed.

Lemma recency_0 n : recency 0 n = replicate n 0.
Proof.
  apply list_eq. intros j. destruct (decide (j < n)%nat).
  - rewrite recency_lookup, lookup_replicate_2 by done. by rewrite decide_False by lia.
  - rewrite !lookup_ge_None_2; [done | rewrite length_replicate; lia | rewrite recency_length; lia].
Qed.

Lemma first_oldest_filling k n way : (k < n)%nat → first_oldest (recency k n) way → way = k.
Proof.
  intros Hk (g & Hg & Hmax & Hfirst).
  pose proof (lookup_lt_Some _ _ _ Hg) as Hway. rewrite recency_length in Hway.
  rewrite recency_lookup in Hg by done.
  pose proof (Hmax k _ (recency_lookup k n k Hk)) as Hk'. rewrite decide_False in Hk' by lia.
  destruct (decide (way < k)%nat); simplify_eq; [lia|].
  destruct (decide (way = k)) as [|Hne]; [done|].
  pose proof (Hfirst k _ ltac:(lia) (recency_lookup k n k Hk)) as Hlt.
  rewrite decide_False in Hlt by lia. lia.
Qed.

Lemma first_oldest_full n way : (0 < n)%nat → first_oldest (recency n n) way → way = 0%nat.
Proof.
  intros Hn (g & Hg & Hmax & _).
  pose proof (lookup_lt_Some _ _ _ Hg) as Hway. rewrite recency_length in Hway.
  rewrite recency_lookup in Hg by done. rewrite decide_True in Hg by done.
  pose proof (Hmax 0%nat _ (recency_lookup n n 0 Hn)) as H0. rewrite decide_True in H0 by done.
  simplify_eq. lia.
Qed.

Lemma age_small sentinel v : 0 ≤ v < UINT32_MAX → age sentinel v = v + 1.
Proof.
  intros Hv. unfold age. rewrite bool_decide_eq_false_2 by lia.
  rewrite andb_false_r. apply wrap32_small. unfold uint32, UINT32_MAX in *. lia.
Qed.

Lemma recency_step sentinel k n :
  (k < n)%nat → Z.of_nat n ≤ UINT32_MAX →
  <[k := 0]> (age sentinel <$> recency k n) = recency (S k) n.
Proof.
  intros Hk Hn. apply list_eq. intros j. destruct (decide (j < n)%nat) as [Hj|Hj].
  - rewrite (recency_lookup (S k)) by done. destruct (decide (j = k)) as [->|Hne].
    + rewrite list_lookup_insert_eq by (rewrite length_fmap, recency_length; lia).
      rewrite decide_True by lia. f_equal. lia.
    + rewrite list_lookup_insert_ne by done.
      rewrite list_lookup_fmap, recency_lookup by done. simpl.
      rewrite age_small by (case_decide; lia). f_equal. repeat case_decide; lia.
  - rewrite !lookup_ge_None_2; [done | rewrite recency_length; lia |].
    rewrite length_insert, length_fmap, recency_length. lia.
Qed.

Lemma filled_length ts n : (length ts ≤ n)%nat → length (filled ts n) = n.
Proof. intros. unfold filled. rewrite length_app, length_replicate. lia. Qed.

Lemma filled_step ts n t :
  (length ts < n)%nat → <[length ts := t]> (filled ts n) = filled (ts ++ [t]) n.
Proof.
  intros Hlt. unfold filled. rewrite insert_app_r_alt by lia.
  rewrite Nat.sub_diag, length_app. simpl.
  destruct (n - length ts)%nat as [|m] eqn:Hm; [lia|]. simpl.
  rewrite <- app_assoc. simpl. do 3 f_equal. lia.
Qed.

Lemma filled_full ts n : length ts = n → filled ts n = ts.
Proof. intros <-. unfold filled. by rewrite Nat.sub_diag, app_nil_r. Qed.

Lemma not_elem_of_filled ts n t : t ≠ 0 → t ∉ ts → t ∉ filled ts n.
Proof.
  intros H0 Hts [?|[? _]%elem_of_replicate]%elem_of_app; [done | congruence].
Qed.

Lemma aged_full_lookup sentinel n j i :
  (i < n)%nat → Z.of_nat n ≤ UINT32_MAX →
  <[j := 0]> (age sentinel <$> recency n n) !! i =
    Some (if decide (i = j) then 0 else Z.of_nat (n - i)).
Proof.
  intros Hi Hn. destruct (decide (i = j)) as [->|Hne].
  - apply list_lookup_insert_eq. by rewrite length_fmap, recency_length.
  - rewrite list_lookup_insert_ne by done.
    rewrite list_lookup_fmap, recency_lookup by done. simpl.
    rewrite decide_True by done. rewrite age_small by lia. f_equal. lia.
Qed.

(** After a hit in way [j] of a full set, the next victim is way 0, or way 1
    when it was way 0 that was hit. *)
Lemma first_oldest_after_hit sentinel n j way :
  (2 ≤ n)%nat → Z.of_nat n ≤ UINT32_MAX → (j < n)%nat →
  first_oldest (<[j := 0]> (age sentinel <$> recency n n)) way →
  way = if decide (j = 0%nat) then 1%nat else 0%nat.
Proof.
  intros Hn Hmax Hj (g & Hg & Hall & _).
  pose proof (lookup_lt_Some _ _ _ Hg) as Hway.
  rewrite length_insert, length_fmap, recency_length in Hway.
  rewrite aged_full_lookup in Hg by done.
  destruct (decide (j = 0%nat)) as [->|Hj0].
  - pose proof (Hall 1%nat _ (aged_full_lookup sentinel n 0 1 ltac:(lia) Hmax)) as H1.
    simpl in H1. try rewrite decide_False in H1 by done.
    destruct (decide (way = 0%nat)); simplify_eq; lia.
  - pose proof (Hall 0%nat _ (aged_full_lookup sentinel n j 0 ltac:(lia) Hmax)) as H0.
    simpl in H0. try rewrite decide_False in H0 by done.
    destruct (decide (way = j)); simplify_eq; lia.
Qed.

Section Policy.
(** One cache level, seen through what its miss and hit paths do to the set
    an address selects.  [P] is whatever holds of the states met on the
    way. *)
Context (c : config) (sets assoc : Z) (sentinel : bool).
Context (acc : state → Z → option (state * Z)).
Context (tagst lrust : state → list (list Z)) (P : state → Prop).
Context (bw iw : Z) (index : nat) (hit_time : Z).

Hypothesis Hbw : log2 (blocksize c) = Some bw.
Hypothesis Hiw : log2 sets = Some iw.
Hypothesis Hways : 0 < assoc ≤ UINT32_MAX.

Hypothesis miss_step : ∀ s addr,
  P s → probe sets assoc (tagst s) c addr = Some None →
  ∃ tags lru way s' t,
    tagst s !! index_of addr bw sets = Some tags ∧
    lrust s !! index_of addr bw sets = Some lru ∧
    first_oldest lru way ∧
    acc s addr = Some (s', t) ∧ P s' ∧
    tagst s' = <[index_of addr bw sets := <[way := tag_of addr bw iw]> tags]> (tagst s) ∧
    lrust s' = <[index_of addr bw sets := <[way := 0]> (age sentinel <$> lru)]> (lrust s).

Hypothesis hit_step : ∀ s addr w,
  P s → probe sets assoc (tagst s) c addr = Some (Some w) →
  ∃ lru s',
    lrust s !! index_of addr bw sets = Some lru ∧
    acc s addr = Some (s', hit_time) ∧ P s' ∧
    tagst s' = tagst s ∧
    lrust s' = <[index_of addr bw sets := <[w := 0]> (age sentinel <$> lru)]> (lrust s).

#[local] Abbreviation ways := (Z.to_nat assoc).
#[local] Abbreviation tag a := (tag_of a bw iw).
#[local] Abbreviation here a := (index_of a bw sets = index).

Lemma probe_absent s a ts :
  tagst s !! index = Some (filled ts ways) → (length ts ≤ ways)%nat →
  here a → tag a ∉ ts →
  probe sets assoc (tagst s) c a = Some None.
Proof.
  intros Hrow Hlen Ha Hnew. eapply probe_intro; [done | done | by rewrite Ha |].
  apply find_tag_not_in; [|by rewrite filled_length].
  apply not_elem_of_filled; [apply tag_of_nonzero | done].
Qed.

(** One more way is filled. *)
Lemma fill_one s a ts :
  P s → tagst s !! index = Some (filled ts ways) →
  lrust s !! index = Some (recency (length ts) ways) →
  (length ts < ways)%nat → here a → tag a ∉ ts →
  ∃ s' t, acc s a = Some (s', t) ∧ P s' ∧
    tagst s' !! index = Some (filled (ts ++ [tag a]) ways) ∧
    lrust s' !! index = Some (recency (S (length ts)) ways).
Proof.
  intros HP Hrow Hlru Hlt Ha Hnew.
  destruct (miss_step s a HP) as (tags & lru & way & s' & t & Ht & Hl & Hfirst & Hacc & HP' & Hts & Hls).
  { eapply probe_absent; [done | lia | done | done]. }
  rewrite Ha in *. simplify_eq.
  apply first_oldest_filling in Hfirst as ->; [|done].
  exists s', t. split_and!; [done | done | |].
  - rewrite Hts, list_lookup_insert_eq by (by eapply lookup_lt_Some).
    by rewrite filled_step.
  - rewrite Hls, list_lookup_insert_eq by (by eapply lookup_lt_Some).
    rewrite recency_step; [done | done | lia].
Qed.

Lemma fill_ways s ts blocks :
  P s → tagst s !! index = Some (filled ts ways) →
  lrust s !! index = Some (recency (length ts) ways) →
  (length ts + length blocks ≤ ways)%nat →
  Forall (λ a, here a) blocks →
  NoDup (ts ++ ((λ a, tag a) <$> blocks)) →
  ∃ s1, visit acc s blocks = Some s1 ∧ P s1 ∧
    tagst s1 !! index = Some (filled (ts ++ ((λ a, tag a) <$> blocks)) ways) ∧
    lrust s1 !! index = Some (recency (length ts + length blocks) ways).
Proof.
  revert s ts. induction blocks as [|a blocks IH]; intros s ts HP Hrow Hlru Hlen Hhere Hnd; simpl.
  - exists s. rewrite app_nil_r, Nat.add_0_r. done.
  - apply Forall_cons in Hhere as [Ha Hhere]. simpl in Hlen.
    destruct (fill_one s a ts HP Hrow Hlru ltac:(lia) Ha) as (s' & t & Hacc & HP' & Hrow' & Hlru').
    { apply NoDup_app in Hnd as (_ & Hdisj & _). intros Hin. apply (Hdisj _ Hin). by left. }
    rewrite Hacc. simpl.
    destruct (IH s' (ts ++ [tag a]) HP' Hrow') as (s1 & Hvisit & HP1 & Hrow1 & Hlru1).
    + rewrite length_app. simpl. by rewrite Nat.add_1_r.
    + rewrite length_app. simpl. lia.
    + done.
    + by rewrite <- app_assoc.
    + exists s1. split_and!; [done | done | |].
      * by rewrite <- app_assoc in Hrow1.
      * rewrite Hlru1, length_app. simpl. f_equal. f_equal. lia.
Qed.

(** A full set gives up its first way. *)
Lemma evict_first s a ts :
  P s → tagst s !! index = Some ts → length ts = ways →
  lrust s !! index = Some (recency ways ways) →
  here a → tag a ∉ ts →
  ∃ s' t, acc s a = Some (s', t) ∧ P s' ∧
    tagst s' !! index = Some (<[0%nat := tag a]> ts).
Proof.
  intros HP Hrow Hlen Hlru Ha Hnew.
  destruct (miss_step s a HP) as (tags & lru & way & s' & t & Ht & Hl & Hfirst & Hacc & HP' & Hts & Hls).
  { eapply probe_absent; [by rewrite filled_full | lia | done | done]. }
  rewrite Ha in *. simplify_eq.
  apply first_oldest_full in Hfirst as ->; [|lia].
  exists s', t. split_and!; [done | done |].
  by rewrite Hts, list_lookup_insert_eq by (by eapply lookup_lt_Some).
Qed.

Lemma lru_evicts_first s blocks last :
  P s → tagst s !! index = Some (replicate ways 0) →
  lrust s !! index = Some (replicate ways 0) →
  length blocks = ways →
  Forall (λ a, here a) (blocks ++ [last]) →
  NoDup ((λ a, tag a) <$> (blocks ++ [last])) →
  ∃ s1 s2 t,
    visit acc s blocks = Some s1 ∧
    tagst s1 !! index = Some ((λ a, tag a) <$> blocks) ∧
    acc s1 last = Some (s2, t) ∧ P s2 ∧
    tagst s2 !! index = Some (<[0%nat := tag last]> ((λ a, tag a) <$> blocks)).
Proof.
  intros HP Hrow Hlru Hlen [Hhere Hlast]%Forall_app Hnd.
  rewrite Forall_singleton in Hlast. rewrite fmap_app in Hnd.
  apply NoDup_app in Hnd as (Hnd & Hdisj & _).
  destruct (fill_ways s [] blocks HP) as (s1 & Hvisit & HP1 & Hrow1 & Hlru1);
    [rewrite Hrow; unfold filled; simpl; by rewrite Nat.sub_0_r
    |by rewrite Hlru, recency_0 | simpl; lia | done | done |].
  simpl in *. rewrite filled_full in Hrow1 by (by rewrite length_fmap).
  rewrite Hlen in Hlru1.
  destruct (evict_first s1 last _ HP1 Hrow1) as (s2 & t & Hacc & HP2 & Hrow2);
    [by rewrite length_fmap | done | done | |].
  { intros Hin. apply (Hdisj _ Hin). simpl. by left. }
  by exists s1, s2, t.
Qed.

(** A block re-accessed while the set is full survives the next miss. *)
Lemma lru_shields s blocks j b last :
  P s → tagst s !! index = Some (replicate ways 0) →
  lrust s !! index = Some (replicate ways 0) →
  length blocks = ways → (2 ≤ ways)%nat →
  Forall (λ a, here a) (blocks ++ [last]) →
  NoDup ((λ a, tag a) <$> (blocks ++ [last])) →
  blocks !! j = Some b →
  ∃ s1 s2 s3 t',
    visit acc s blocks = Some s1 ∧ acc s1 b = Some (s2, hit_time) ∧
    acc s2 last = Some (s3, t') ∧ P s3 ∧
    tagst s3 !! index =
      Some (<[(if decide (j = 0%nat) then 1%nat else 0%nat) := tag last]>
              ((λ a, tag a) <$> blocks)) ∧
    ∃ w, probe sets assoc (tagst s3) c b = Some (Some w).
Proof.
  intros HP Hrow Hlru Hlen Hn [Hhere Hlast]%Forall_app Hnd Hb.
  rewrite Forall_singleton in Hlast. rewrite fmap_app in Hnd.
  apply NoDup_app in Hnd as (Hnd & Hdisj & _).
  destruct (fill_ways s [] blocks HP) as (s1 & Hvisit & HP1 & Hrow1 & Hlru1);
    [rewrite Hrow; unfold filled; simpl; by rewrite Nat.sub_0_r
    |by rewrite Hlru, recency_0 | simpl; lia | done | done |].
  simpl in *. rewrite filled_full in Hrow1 by (by rewrite length_fmap).
  rewrite Hlen in Hlru1.
  pose proof (lookup_lt_Some _ _ _ Hb) as Hj.
  assert (here b) as Hhb by by eapply (Forall_lookup_1 _ _ _ _ Hhere Hb).
  assert (((λ a, tag a) <$> blocks) !! j = Some (tag b)) as Htb
    by by rewrite list_lookup_fmap, Hb.
  destruct (find_tag_found _ (tag b) 0 ways j Htb ltac:(lia)) as [w Hw].
  assert (w = j) as ->.
  { apply find_tag_hit in Hw as [Hw _]. by eapply NoDup_lookup. }
  destruct (hit_step s1 b j HP1) as (lru & s2 & Hl & Hacc & HP2 & Hts & Hls).
  { eapply probe_intro; [done | done | by rewrite Hhb | done]. }
  rewrite Hhb in Hl, Hls. rewrite Hlru1 in Hl. injection Hl as <-.
  destruct (miss_step s2 last HP2) as
    (tags & lru & way & s3 & t' & Ht & Hl & Hfirst & Hacc' & HP3 & Hts' & Hls').
  { eapply (probe_absent s2 last ((λ a, tag a) <$> blocks)); [| | done |].
    - rewrite Hts, filled_full; [done | by rewrite length_fmap].
    - rewrite length_fmap. lia.
    - intros Hin. apply (Hdisj _ Hin). by left. }
  rewrite Hlast in Ht, Hl, Hts'. rewrite Hts, Hrow1 in Ht. injection Ht as <-.
  rewrite Hls, list_lookup_insert_eq in Hl by (by eapply lookup_lt_Some).
  injection Hl as <-.
  apply first_oldest_after_hit in Hfirst as ->; [|lia..].
  assert (tagst s3 !! index =
            Some (<[(if decide (j = 0%nat) then 1%nat else 0%nat) := tag last]>
                    ((λ a, tag a) <$> blocks))) as Hrow3.
  { rewrite Hts', Hts. apply list_lookup_insert_eq. by eapply lookup_lt_Some. }
  exists s1, s2, s3, t'. split_and!; [done..|].
  destruct (find_tag_found
              (<[(if decide (j = 0%nat) then 1%nat else 0%nat) := tag last]>
                 ((λ a, tag a) <$> blocks)) (tag b) 0 ways j) as [w' Hw']; [|lia|].
  { rewrite list_lookup_insert_ne; [done|]. case_decide; lia. }
  exists w'. eapply probe_intro; [done | done | by rewrite Hhb | done].
Qed.
End Policy.

Lemma visit_reachable_l2 c s addrs s1 :
  reachable c s → visit (l2cache_access c) s addrs = Some s1 → reachable c s1.
Proof.
  revert s. induction addrs as [|a addrs IH]; intros s Hr; simpl; [by intros [= <-]|].
  destruct (l2cache_access c s a) as [[s' t]|] eqn:Hacc; [simpl|done].
  apply IH. by eapply reach_l2cache.
Qed.

Section L2Policy.
Context (c : config) (bw iw : Z).
Hypothesis Hc : config_ok c.
Hypothesis Hz : l2cacheSets c ≠ 0.
Hypothesis Hbw : log2 (blocksize c) = Some bw.
Hypothesis Hiw : log2 (l2cacheSets c) = Some iw.

Lemma l2_policy_miss s addr :
  reachable c s → probe (l2cacheSets c) (l2cacheAssoc c) (l2_tag_storage s) c addr = Some None →
  ∃ tags lru way s' t,
    l2_tag_storage s !! index_of addr bw (l2cacheSets c) = Some tags ∧
    l2_lru_storage s !! index_of addr bw (l2cacheSets c) = Some lru ∧
    first_oldest lru way ∧
    l2cache_access c s addr = Some (s', t) ∧ reachable c s' ∧
    l2_tag_storage s' =
      <[index_of addr bw (l2cacheSets c) := <[way := tag_of addr bw iw]> tags]>
        (l2_tag_storage s) ∧
    l2_lru_storage s' =
      <[index_of addr bw (l2cacheSets c) := <[way := 0]> (age false <$> lru)]>
        (l2_lru_storage s).
Proof.
  intros Hr Hm.
  destruct (l2_miss_step c s addr Hc Hr Hz Hm)
    as (bw' & iw' & tags & lru & way & s' & ? & ? & ? & ? & ? & Hacc & ? & ? & _).
  simplify_eq. eexists tags, lru, way, s', _. split_and!; try done.
  by eapply reach_l2cache.
Qed.

Lemma l2_policy_hit s addr w :
  reachable c s →
  probe (l2cacheSets c) (l2cacheAssoc c) (l2_tag_storage s) c addr = Some (Some w) →
  ∃ lru s',
    l2_lru_storage s !! index_of addr bw (l2cacheSets c) = Some lru ∧
    l2cache_access c s addr = Some (s', l2cacheHitTime c) ∧ reachable c s' ∧
    l2_tag_storage s' = l2_tag_storage s ∧
    l2_lru_storage s' =
      <[index_of addr bw (l2cacheSets c) := <[w := 0]> (age false <$> lru)]>
        (l2_lru_storage s).
Proof.
  intros Hr Hp.
  destruct (l2_hit c s addr w (reachable_wf _ _ Hr) Hz Hp) as (bw' & lru & ? & ? & Hacc).
  simplify_eq. eexists lru, _. split_and!; [done | exact Hacc | | done | done].
  by eapply reach_l2cache.
Qed.
End L2Policy.

(** X14.  Least recently used, at the L2.  Starting from a zeroed set of N
    ways, N blocks with distinct tags that map to the set fill its ways in
    order, and one more such block takes the place of the first one: the
    other N-1 stay. *)
Theorem l2_lru_evicts_first c s bw iw index blocks last :
  config_ok c → reachable c s → l2cacheSets c ≠ 0 → l2cacheAssoc c ≤ UINT32_MAX →
  log2 (blocksize c) = Some bw → log2 (l2cacheSets c) = Some iw →
  l2_tag_storage s !! index = Some (replicate (Z.to_nat (l2cacheAssoc c)) 0) →
  l2_lru_storage s !! index = Some (replicate (Z.to_nat (l2cacheAssoc c)) 0) →
  length blocks = Z.to_nat (l2cacheAssoc c) →
  Forall (λ a, index_of a bw (l2cacheSets c) = index) (blocks ++ [last]) →
  NoDup ((λ a, tag_of a bw iw) <$> (blocks ++ [last])) →
  ∃ s1 s2 t,
    visit (l2cache_access c) s blocks = Some s1 ∧
    l2_tag_storage s1 !! index = Some ((λ a, tag_of a bw iw) <$> blocks) ∧
    l2cache_access c s1 last = Some (s2, t) ∧
    l2_tag_storage s2 !! index =
      Some (<[0%nat := tag_of last bw iw]> ((λ a, tag_of a bw iw) <$> blocks)).
Proof.
  intros Hc Hr Hz Hmax Hbw Hiw Hrow Hlru Hlen Hhere Hnd.
  assert (0 < l2cacheAssoc c) by (destruct Hc as (_ & _ & _ & _ & _ & _ & [?|?]); done).
  destruct (lru_evicts_first c (l2cacheSets c) (l2cacheAssoc c) false (l2cache_access c)
              l2_tag_storage l2_lru_storage (reachable c) bw iw index Hbw Hiw ltac:(lia)
              (l2_policy_miss c bw iw Hc Hz Hbw Hiw) s blocks last Hr Hrow Hlru Hlen Hhere Hnd)
    as (s1 & s2 & t & ? & ? & ? & _ & ?).
  by exists s1, s2, t.
Qed.

(** X15.  At the L2, with at least two ways: a block of the full set that
    is accessed again (a hit) is still resident after the next miss, which
    takes way 0, or way 1 when way 0 was the one re-accessed. *)
Theorem l2_lru_shields c s bw iw index blocks j b last :
  config_ok c → reachable c s → l2cacheSets c ≠ 0 → 2 ≤ l2cacheAssoc c ≤ UINT32_MAX →
  log2 (blocksize c) = Some bw → log2 (l2cacheSets c) = Some iw →
  l2_tag_storage s !! index = Some (replicate (Z.to_nat (l2cacheAssoc c)) 0) →
  l2_lru_storage s !! index = Some (replicate (Z.to_nat (l2cacheAssoc c)) 0) →
  length blocks = Z.to_nat (l2cacheAssoc c) →
  Forall (λ a, index_of a bw (l2cacheSets c) = index) (blocks ++ [last]) →
  NoDup ((λ a, tag_of a bw iw) <$> (blocks ++ [last])) →
  blocks !! j = Some b →
  ∃ s1 s2 s3 t',
    visit (l2cache_access c) s blocks = Some s1 ∧
    l2cache_access c s1 b = Some (s2, l2cacheHitTime c) ∧
    l2cache_access c s2 last = Some (s3, t') ∧
    l2_tag_storage s3 !! index =
      Some (<[(if decide (j = 0%nat) then 1%nat else 0%nat) := tag_of last bw iw]>
              ((λ a, tag_of a bw iw) <$> blocks)) ∧
    ∃ w, l2cache_probe c s3 b = Some (Some w).
Proof.
  intros Hc Hr Hz Hmax Hbw Hiw Hrow Hlru Hlen Hhere Hnd Hb.
  destruct (lru_shields c (l2cacheSets c) (l2cacheAssoc c) false (l2cache_access c)
              l2_tag_storage l2_lru_storage (reachable c) bw iw index (l2cacheHitTime c)
              Hbw Hiw ltac:(lia)
              (l2_policy_miss c bw iw Hc Hz Hbw Hiw) (l2_policy_hit c bw Hz Hbw)
              s blocks j b last Hr Hrow Hlru Hlen ltac:(lia) Hhere Hnd Hb)
    as (s1 & s2 & s3 & t' & ? & ? & ? & _ & ? & ?).
  by exists s1, s2, s3, t'.
Qed.

Lemma l1_probe_unfold lvl c s addr :
  l1_probe lvl c s addr = probe (l1_sets lvl c) (l1_assoc lvl c) (l1_tag_storage lvl s) c addr.
Proof. by destruct lvl. Qed.

Section L1Policy.
Context (lvl : l1) (c : config) (bw iw : Z).
Hypothesis Hc : config_ok c.
Hypothesis Hz : l1_sets lvl c ≠ 0.
Hypothesis Hinc : inclusive c = 0.
Hypothesis Hbw : log2 (blocksize c) = Some bw.
Hypothesis Hiw : log2 (l1_sets lvl c) = Some iw.

Lemma l1_policy_miss s addr :
  reachable c s →
  probe (l1_sets lvl c) (l1_assoc lvl c) (l1_tag_storage lvl s) c addr = Some None →
  ∃ tags lru way s' t,
    l1_tag_storage lvl s !! index_of addr bw (l1_sets lvl c) = Some tags ∧
    l1_lru_storage lvl s !! index_of addr bw (l1_sets lvl c) = Some lru ∧
    first_oldest lru way ∧
    l1_access lvl c s addr = Some (s', t) ∧ reachable c s' ∧
    l1_tag_storage lvl s' =
      <[index_of addr bw (l1_sets lvl c) := <[way := tag_of addr bw iw]> tags]>
        (l1_tag_storage lvl s) ∧
    l1_lru_storage lvl s' =
      <[index_of addr bw (l1_sets lvl c) := <[way := 0]> (age true <$> lru)]>
        (l1_lru_storage lvl s).
Proof.
  intros Hr Hm. rewrite <- l1_probe_unfold in Hm.
  destruct (l1_miss_step lvl c s addr Hc Hr Hz Hinc Hm)
    as (bw' & iw' & tags & lru & way & s' & t & ? & ? & ? & ? & ? & _ & Hacc & ? & ?).
  simplify_eq. eexists tags, lru, way, s', t. split_and!; try done.
  by eapply reachable_l1.
Qed.

Lemma l1_policy_hit s addr w :
  reachable c s →
  probe (l1_sets lvl c) (l1_assoc lvl c) (l1_tag_storage lvl s) c addr = Some (Some w) →
  ∃ lru s',
    l1_lru_storage lvl s !! index_of addr bw (l1_sets lvl c) = Some lru ∧
    l1_access lvl c s addr = Some (s', l1_hit_time lvl c) ∧ reachable c s' ∧
    l1_tag_storage lvl s' = l1_tag_storage lvl s ∧
    l1_lru_storage lvl s' =
      <[index_of addr bw (l1_sets lvl c) := <[w := 0]> (age true <$> lru)]>
        (l1_lru_storage lvl s).
Proof.
  intros Hr Hp. rewrite <- l1_probe_unfold in Hp.
  destruct (l1_hit c s lvl addr w (reachable_wf _ _ Hr) Hz Hp) as (bw' & lru & ? & ? & Hacc).
  simplify_eq. eexists lru, _. split_and!; [done | exact Hacc | | |].
  - by eapply reachable_l1.
  - by destruct lvl.
  - by destruct lvl.
Qed.
End L1Policy.

(** X16.  Least recently used, at an L1 of a non-inclusive hierarchy: N
    blocks fill a zeroed N-way set in order and the next one replaces the
    first. *)
Theorem l1_lru_evicts_first lvl c s bw iw index blocks last :
  config_ok c → reachable c s → l1_sets lvl c ≠ 0 → inclusive c = 0 →
  l1_assoc lvl c ≤ UINT32_MAX →
  log2 (blocksize c) = Some bw → log2 (l1_sets lvl c) = Some iw →
  l1_tag_storage lvl s !! index = Some (replicate (Z.to_nat (l1_assoc lvl c)) 0) →
  l1_lru_storage lvl s !! index = Some (replicate (Z.to_nat (l1_assoc lvl c)) 0) →
  length blocks = Z.to_nat (l1_assoc lvl c) →
  Forall (λ a, index_of a bw (l1_sets lvl c) = index) (blocks ++ [last]) →
  NoDup ((λ a, tag_of a bw iw) <$> (blocks ++ [last])) →
  ∃ s1 s2 t,
    visit (l1_access lvl c) s blocks = Some s1 ∧
    l1_tag_storage lvl s1 !! index = Some ((λ a, tag_of a bw iw) <$> blocks) ∧
    l1_access lvl c s1 last = Some (s2, t) ∧
    l1_tag_storage lvl s2 !! index =
      Some (<[0%nat := tag_of last bw iw]> ((λ a, tag_of a bw iw) <$> blocks)).
Proof.
  intros Hc Hr Hz Hinc Hmax Hbw Hiw Hrow Hlru Hlen Hhere Hnd.
  assert (0 < l1_assoc lvl c).
  { destruct Hc as (_ & _ & Hi & _ & Hd & _).
    destruct lvl; simpl in *; [destruct Hi | destruct Hd]; done. }
  destruct (lru_evicts_first c (l1_sets lvl c) (l1_assoc lvl c) true (l1_access lvl c)
              (l1_tag_storage lvl) (l1_lru_storage lvl) (reachable c) bw iw index
              Hbw Hiw ltac:(lia)
              (l1_policy_miss lvl c bw iw Hc Hz Hinc Hbw Hiw)
              s blocks last Hr Hrow Hlru Hlen Hhere Hnd)
    as (s1 & s2 & t & ? & ? & ? & _ & ?).
  by exists s1, s2, t.
Qed.

(** X17.  At an L1 of a non-inclusive hierarchy with at least two ways, a
    block re-accessed while the set is full survives the next miss. *)
Theorem l1_lru_shields lvl c s bw iw index blocks j b last :
  config_ok c → reachable c s → l1_sets lvl c ≠ 0 → inclusive c = 0 →
  2 ≤ l1_assoc lvl c ≤ UINT32_MAX →
  log2 (blocksize c) = Some bw → log2 (l1_sets lvl c) = Some iw →
  l1_tag_storage lvl s !! index = Some (replicate (Z.to_nat (l1_assoc lvl c)) 0) →
  l1_lru_storage lvl s !! index = Some (replicate (Z.to_nat (l1_assoc lvl c)) 0) →
  length blocks = Z.to_nat (l1_assoc lvl c) →
  Forall (λ a, index_of a bw (l1_sets lvl c) = index) (blocks ++ [last]) →
  NoDup ((λ a, tag_of a bw iw) <$> (blocks ++ [last])) →
  blocks !! j = Some b →
  ∃ s1 s2 s3 t',
    visit (l1_access lvl c) s blocks = Some s1 ∧
    l1_access lvl c s1 b = Some (s2, l1_hit_time lvl c) ∧
    l1_access lvl c s2 last = Some (s3, t') ∧
    l1_tag_storage lvl s3 !! index =
      Some (<[(if decide (j = 0%nat) then 1%nat else 0%nat) := tag_of last bw iw]>
              ((λ a, tag_of a bw iw) <$> blocks)) ∧
    ∃ w, l1_probe lvl c s3 b = Some (Some w).
Proof.
  intros Hc Hr Hz Hinc Hmax Hbw Hiw Hrow Hlru Hlen Hhere Hnd Hb.
  destruct (lru_shields c (l1_sets lvl c) (l1_assoc lvl c) true (l1_access lvl c)
              (l1_tag_storage lvl) (l1_lru_storage lvl) (reachable c) bw iw index
              (l1_hit_time lvl c) Hbw Hiw ltac:(lia)
              (l1_policy_miss lvl c bw iw Hc Hz Hinc Hbw Hiw)
              (l1_policy_hit lvl c bw iw Hz Hbw Hiw)
              s blocks j b last Hr Hrow Hlru Hlen ltac:(lia) Hhere Hnd Hb)
    as (s1 & s2 & s3 & t' & ? & ? & ? & _ & ? & [w Hw]).
  exists s1, s2, s3, t'. split_and!; [done..|].
  exists w. by rewrite l1_probe_unfold.
Qed.

(** ** The statistics add up *)

#[local] Instance same64_equivalence : Equivalence same64.
Proof.
  unfold same64. split; [by intros ? | by intros ? ? | intros ? ? ?; congruence].
Qed.

#[local] Instance same64_add : Proper (same64 ==> same64 ==> same64) Z.add.
Proof.
  unfold same64, wrap64. intros a a' Ha b b' Hb.
  by rewrite (Z.add_mod a), (Z.add_mod a'), Ha, Hb by lia.
Qed.

#[local] Instance same64_mul : Proper (same64 ==> same64 ==> same64) Z.mul.
Proof.
  unfold same64, wrap64. intros a a' Ha b b' Hb.
  by rewrite (Z.mul_mod a), (Z.mul_mod a'), Ha, Hb by lia.
Qed.

Lemma wrap64_same64 a : same64 (wrap64 a) a.
Proof. unfold same64, wrap64. apply Z.mod_mod. lia. Qed.

Lemma same64_eq a b : a = b → same64 a b.
Proof. by intros ->. Qed.

(** What one L2 access does to the L2 counters. *)
Lemma l2cache_access_counts c s addr s' t :
  l2cacheSets c ≠ 0 → uint32 (l2cacheHitTime c + memspeed c) →
  l2cache_access c s addr = Some (s', t) →
  l2cacheRefs s' = wrap64 (l2cacheRefs s + 1) ∧
  ((t = l2cacheHitTime c ∧ l2cacheMisses s' = l2cacheMisses s ∧
    l2cachePenalties s' = l2cachePenalties s) ∨
   (t = l2cacheHitTime c + memspeed c ∧ l2cacheMisses s' = wrap64 (l2cacheMisses s + 1) ∧
    l2cachePenalties s' = wrap64 (l2cachePenalties s + memspeed c))).
Proof.
  intros Hz Hfit H. unfold l2cache_access in H. rewrite decide_False in H by done.
  inv_bind H; subst; case_valid; simpl; (split; [done|]); try (by left);
    right; by rewrite wrap32_small.
Qed.

Lemma l2cache_access_balanced c s addr s' t :
  l2cacheSets c ≠ 0 → uint32 (l2cacheHitTime c + memspeed c) →
  l2cache_access c s addr = Some (s', t) →
  same64 (l2cachePenalties s) (l2cacheMisses s * memspeed c) →
  same64 (l2cachePenalties s') (l2cacheMisses s' * memspeed c).
Proof.
  intros Hz Hfit H Hp.
  destruct (l2cache_access_counts c s addr s' t Hz Hfit H) as (_ & [(_ & -> & ->)|(_ & -> & ->)]);
    [done|].
  rewrite !wrap64_same64, Hp. apply same64_eq. lia.
Qed.

Lemma same64_ex a b : same64 a b → ∃ k, a = b + k * 2 ^ 64.
Proof.
  unfold same64, wrap64. intros H. exists (a / 2 ^ 64 - b / 2 ^ 64).
  pose proof (Z.div_mod a (2 ^ 64) ltac:(lia)). pose proof (Z.div_mod b (2 ^ 64) ltac:(lia)).
  lia.
Qed.

Lemma same64_intro a b k : a = b + k * 2 ^ 64 → same64 a b.
Proof. intros ->. unfold same64, wrap64. apply Z_mod_plus_full. Qed.

(** Closes a goal [same64 A B] that follows from one hypothesis of the same
    kind by linear arithmetic. *)
Ltac same64_from H :=
  rewrite ?wrap64_same64;
  let k := fresh "k" in let Hk := fresh "Hk" in
  destruct (same64_ex _ _ H) as [k Hk]; apply (same64_intro _ _ k); lia.

Section Balance.
Context (c : config).
Hypothesis Hi : icacheSets c ≠ 0.
Hypothesis Hd : dcacheSets c ≠ 0.
Hypothesis H2 : l2cacheSets c ≠ 0.
Hypothesis Hfit : uint32 (l2cacheHitTime c + memspeed c).

Lemma icache_access_balanced s addr s' t :
  icache_access c s addr = Some (s', t) → balanced c s → balanced c s'.
Proof.
  intros H (B1 & B2 & B3). unfold icache_access in H. rewrite decide_False in H by done.
  inv_bind H; subst; [by split_and!|..];
    match goal with Hl2 : l2cache_access _ _ _ = Some _ |- _ =>
      pose proof (l2cache_access_counts _ _ _ _ _ H2 Hfit Hl2) as (Hr & Hcase);
      pose proof (l2cache_access_frame _ _ _ _ _ Hl2) as (Hst & _);
      unfold stats in Hst; simpl in Hst, Hr, Hcase; simplify_eq
    end.
  all: unfold balanced; simpl.
  all: destruct Hcase as [(-> & -> & ->)|(-> & -> & ->)].
  all: repeat match goal with H : _ = _ |- _ => rewrite H end.
  all: split_and!; [same64_from B1 | same64_from B2 | same64_from B3].
Qed.

Lemma dcache_access_balanced s addr s' t :
  dcache_access c s addr = Some (s', t) → balanced c s → balanced c s'.
Proof.
  intros H (B1 & B2 & B3). unfold dcache_access in H. rewrite decide_False in H by done.
  inv_bind H; subst; [by split_and!|..];
    match goal with Hl2 : l2cache_access _ _ _ = Some _ |- _ =>
      pose proof (l2cache_access_counts _ _ _ _ _ H2 Hfit Hl2) as (Hr & Hcase);
      pose proof (l2cache_access_frame _ _ _ _ _ Hl2) as (Hst & _);
      unfold stats in Hst; simpl in Hst, Hr, Hcase; simplify_eq
    end.
  all: unfold balanced; simpl.
  all: destruct Hcase as [(-> & -> & ->)|(-> & -> & ->)].
  all: repeat match goal with H : _ = _ |- _ => rewrite H end.
  all: split_and!; [same64_from B1 | same64_from B2 | same64_from B3].
Qed.

(** References are counted once per access. *)
Lemma step_refs s a s' t :
  step c s a = Some (s', t) →
  icacheRefs s' = (match a with Instr _ => wrap64 (icacheRefs s + 1) | Data _ => icacheRefs s end) ∧
  dcacheRefs s' = (match a with Data _ => wrap64 (dcacheRefs s + 1) | Instr _ => dcacheRefs s end).
Proof.
  destruct a as [addr|addr]; simpl; intros H.
  - unfold icache_access in H. rewrite decide_False in H by done.
    inv_bind H; subst; [done|..];
      match goal with Hl2 : l2cache_access _ _ _ = Some _ |- _ =>
        pose proof (l2cache_access_frame _ _ _ _ _ Hl2) as (Hst & _);
        unfold stats in Hst; simpl in Hst; by simplify_eq
      end.
  - unfold dcache_access in H. rewrite decide_False in H by done.
    inv_bind H; subst; [done|..];
      match goal with Hl2 : l2cache_access _ _ _ = Some _ |- _ =>
        pose proof (l2cache_access_frame _ _ _ _ _ Hl2) as (Hst & _);
        unfold stats in Hst; simpl in Hst; by simplify_eq
      end.
Qed.

Lemma run_balanced s trace s' lats :
  run c s trace = Some (s', lats) → balanced c s →
  balanced c s' ∧ length lats = length trace ∧
  same64 (icacheRefs s') (icacheRefs s + Z.of_nat (instr_count trace)) ∧
  same64 (dcacheRefs s') (dcacheRefs s + Z.of_nat (data_count trace)).
Proof.
  revert s s' lats. induction trace as [|a trace IH]; intros s s' lats H HB; simpl in *.
  - injection H as <- <-. split_and!; [done | done | apply same64_eq; lia..].
  - destruct (step c s a) as [[s1 t1]|] eqn:Hstep; [simpl in H|done].
    destruct (run c s1 trace) as [[s2 ts]|] eqn:Hrun; [simpl in H|done].
    injection H as <- <-.
    pose proof (step_refs _ _ _ _ Hstep) as [Hri Hrd].
    destruct (IH s1 s2 ts Hrun) as (HB2 & Hlen & Hci & Hcd).
    { destruct a; [by eapply icache_access_balanced | by eapply dcache_access_balanced]. }
    split_and!; [done | simpl; by f_equal | |].
    + rewrite Hci, Hri. destruct a; rewrite ?wrap64_same64; apply same64_eq; simpl; lia.
    + rewrite Hcd, Hrd. destruct a; rewrite ?wrap64_same64; apply same64_eq; simpl; lia.
Qed.
End Balance.

(** X18.  After any trace replayed on a fresh hierarchy with all three
    levels enabled (and an L2 miss latency that fits 32 bits), modulo 2^64:
    each L1 counted its accesses, the L2 was referenced once per L1 miss,
    the L2 penalty is [memspeed] per L2 miss, and the L1 penalties add up
    to the time spent in the L2.  One latency is returned per access. *)
Theorem counters_balance c s0 trace s lats :
  icacheSets c ≠ 0 → dcacheSets c ≠ 0 → l2cacheSets c ≠ 0 →
  uint32 (l2cacheHitTime c + memspeed c) →
  run c (init_cache c s0) trace = Some (s, lats) →
  length lats = length trace ∧
  wrap64 (icacheRefs s) = wrap64 (Z.of_nat (instr_count trace)) ∧
  wrap64 (dcacheRefs s) = wrap64 (Z.of_nat (data_count trace)) ∧
  wrap64 (l2cacheRefs s) = wrap64 (icacheMisses s + dcacheMisses s) ∧
  wrap64 (l2cachePenalties s) = wrap64 (l2cacheMisses s * memspeed c) ∧
  wrap64 (icachePenalties s + dcachePenalties s) =
    wrap64 (l2cacheRefs s * l2cacheHitTime c + l2cachePenalties s).
Proof.
  intros Hi Hd H2 Hfit Hrun.
  destruct (run_balanced c Hi Hd H2 Hfit _ _ _ _ Hrun) as ((B1 & B2 & B3) & Hlen & Hci & Hcd).
  { by split_and!. }
  by split_and!.
Qed.

Lemma counters_balance_witness :
  length [56; 56; 1; 56] = length [Data 8; Data 12; Data 12; Data 20] ∧
  wrap64 0 = wrap64 (Z.of_nat (instr_count [Data 8; Data 12; Data 12; Data 20])) ∧
  wrap64 4 = wrap64 (Z.of_nat (data_count [Data 8; Data 12; Data 12; Data 20])) ∧
  wrap64 3 = wrap64 (0 + 3) ∧
  wrap64 150 = wrap64 (3 * memspeed one_set_each) ∧
  wrap64 (0 + 165) = wrap64 (3 * l2cacheHitTime one_set_each + 150).
Proof.
  apply (counters_balance one_set_each blank [Data 8; Data 12; Data 12; Data 20]
           (State 0 0 0 4 3 165 3 3 150 true 8
                  [[0; 0]] [[0; 0]]
                  [[tag_of 20 2 0; tag_of 12 2 0]] [[0; 1]]
                  [[tag_of 20 2 0; tag_of 12 2 0]] [[0; 1]])
           [56; 56; 1; 56]).
  - simpl. lia.
  - simpl. lia.
  - simpl. lia.
  - unfold uint32. simpl. lia.
  - vm_compute. reflexivity.
Defined.

(** ** The address the L2 reports *)

Lemma testbit_small b k n : 0 ≤ b < 2 ^ k → k ≤ n → Z.testbit b n = false.
Proof.
  intros Hb Hn. destruct (decide (b = 0)) as [->|Hne]; [apply Z.bits_0|].
  apply Z.bits_above_log2; [lia|].
  assert (0 ≤ k) by (destruct (decide (0 ≤ k)); [done|]; rewrite Z.pow_neg_r in Hb; lia).
  assert (Z.log2 b < k) by (apply Z.log2_lt_pow2; lia). lia.
Qed.

Lemma lor_disjoint a b k : 0 ≤ k → 0 ≤ b < 2 ^ k → Z.lor (a * 2 ^ k) b = a * 2 ^ k + b.
Proof.
  intros Hk Hb. rewrite Z.add_nocarry_lxor, Z.lxor_lor; [done| |];
    apply Z.bits_inj'; intros n Hn; rewrite Z.land_spec, Z.bits_0;
    (destruct (decide (n < k));
      [rewrite Z.mul_pow2_bits_low by lia; done
      |rewrite (testbit_small b k n) by lia; apply andb_false_r]).
Qed.

Lemma tag_of_sum addr bw iw :
  uint32 addr → 0 ≤ bw → 0 ≤ iw → 1 ≤ bw + iw →
  tag_of addr bw iw = VALID_BIT + addr / 2 ^ (bw + iw).
Proof.
  intros [Ha0 Ha] Hbw Hiw Hk. unfold tag_of.
  rewrite !Z.shiftr_div_pow2, Z.div_div, <- Z.pow_add_r by lia.
  assert (0 ≤ addr / 2 ^ (bw + iw) < 2 ^ 31) as Hq.
  { split; [apply Z.div_pos; lia|].
    apply Z.div_lt_upper_bound; [lia|].
    assert (2 ^ 1 ≤ 2 ^ (bw + iw)) by (apply Z.pow_le_mono_r; lia). lia. }
  rewrite Z.lor_comm. change VALID_BIT with (1 * 2 ^ 31).
  rewrite lor_disjoint by lia. lia.
Qed.

Lemma evicted_address_sum addr way bw iw :
  uint32 addr → 0 ≤ bw → 0 ≤ iw → 1 ≤ bw + iw ≤ 32 → Z.of_nat way < 2 ^ iw →
  evicted_address (tag_of addr bw iw) way bw iw =
    addr / 2 ^ (bw + iw) * 2 ^ (bw + iw) + Z.of_nat way * 2 ^ bw.
Proof.
  intros Ha Hbw Hiw Hk Hway. rewrite tag_of_sum by (done || lia).
  unfold evicted_address, wrap32, wrap64. rewrite !Z.shiftl_mul_pow2 by lia.
  rewrite Z.mul_mod_idemp_l by lia.
  set (k := bw + iw). set (q := addr / 2 ^ k).
  assert (0 < 2 ^ k) by (apply Z.pow_pos_nonneg; lia).
  assert (0 < 2 ^ bw) by (apply Z.pow_pos_nonneg; lia).
  assert (0 ≤ q) by (apply Z.div_pos; [destruct Ha|]; lia).
  assert (2 ^ 32 = 2 ^ (32 - k) * 2 ^ k) as H32 by (rewrite <- Z.pow_add_r by lia; f_equal; lia).
  assert (q < 2 ^ (32 - k)) as Hq.
  { apply Z.div_lt_upper_bound; [lia|]. destruct Ha. rewrite Z.mul_comm. lia. }
  assert (2 ^ k = 2 ^ iw * 2 ^ bw) as Hkk by (rewrite <- Z.pow_add_r by lia; f_equal; lia).
  assert (0 ≤ Z.of_nat way * 2 ^ bw < 2 ^ k) as Hw by nia.
  assert ((VALID_BIT + q) * 2 ^ bw * 2 ^ iw = q * 2 ^ k + 2 ^ (k - 1) * 2 ^ 32) as ->.
  { unfold VALID_BIT.
    assert (2 ^ (k - 1) * 2 ^ 32 = 2147483648 * 2 ^ k) as ->.
    { change 2147483648 with (2 ^ 31). rewrite <- !Z.pow_add_r by lia. f_equal. lia. }
    rewrite Hkk. ring. }
  rewrite Z_mod_plus_full.
  assert (0 ≤ q * 2 ^ k ≤ 2 ^ 32 - 2 ^ k) as Hqk by nia.
  rewrite (Z.mod_small (q * 2 ^ k)) by lia.
  rewrite (Z.mod_small (Z.of_nat way * 2 ^ bw)) by lia.
  rewrite lor_disjoint by lia.
  apply Z.mod_small. lia.
Qed.

Lemma index_of_pow2 addr bw iw :
  0 ≤ bw → 0 ≤ iw ≤ 32 →
  Z.of_nat (index_of addr bw (2 ^ iw)) = (addr / 2 ^ bw) mod 2 ^ iw.
Proof.
  intros Hbw Hiw. unfold index_of.
  assert (0 < 2 ^ iw ≤ 2 ^ 32) by (split; [apply Z.pow_pos_nonneg; lia | apply Z.pow_le_mono_r; lia]).
  rewrite wrap32_small by (unfold uint32; lia).
  replace (2 ^ iw - 1) with (Z.ones iw) by (rewrite Z.ones_equiv; lia).
  rewrite Z.land_ones, Z.shiftr_div_pow2 by lia.
  rewrite Z2Nat.id; [done|]. apply Z.mod_pos_bound. lia.
Qed.

(** ** Instances *)

Lemma warm_reachable : reachable (scenario 1 1) warm.
Proof.
  apply (reach_dcache _ (init_cache (scenario 1 1) blank) 0 warm 56);
    [apply reach_init | by vm_compute].
Qed.

Lemma l2_warm_reachable : reachable two_set_l2 l2_warm.
Proof.
  apply (reach_dcache _ (init_cache two_set_l2 blank) 4 l2_warm 55);
    [apply reach_init | by vm_compute].
Qed.

Lemma zero_ways_out_of_bounds_witness :
  icache_access zero_way (init_cache zero_way blank) 0 = None ∧
  dcache_access zero_way (init_cache zero_way blank) 0 = None ∧
  l2cache_access zero_way (init_cache zero_way blank) 0 = None.
Proof.
  destruct (zero_ways_out_of_bounds zero_way (init_cache zero_way blank) 0
              (proj1 (init_cache_Inv zero_way blank))) as (Hi & Hd & H2).
  split_and!; [apply Hi | apply Hd | apply H2]; simpl; lia.
Defined.

Lemma caches_keep_apart_witness :
  l1_view (other L1D) warm = l1_view (other L1D) (init_cache (scenario 1 1) blank).
Proof.
  apply (proj2 (caches_keep_apart (scenario 1 1) (init_cache (scenario 1 1) blank) 0 warm 56) L1D).
  by vm_compute.
Defined.

Lemma l2_access_then_hit_witness :
  ∃ s'', l2cache_access two_set_l2 l2_warm12 12 = Some (s'', l2cacheHitTime two_set_l2) ∧
         l2_tag_storage s'' = l2_tag_storage l2_warm12 ∧
         l2cacheMisses s'' = l2cacheMisses l2_warm12.
Proof.
  apply (l2_access_then_hit two_set_l2 l2_warm 12 l2_warm12 55).
  - apply l2_warm_reachable.
  - simpl. lia.
  - by vm_compute.
Defined.

Lemma stored_tags_are_flagged_witness :
  slots_ok warm ∧ ∀ addr bw iw, tag_of addr bw iw ≠ 0.
Proof. apply (stored_tags_are_flagged (scenario 1 1) warm warm_reachable). Defined.

Lemma l1_access_then_hit_witness :
  ∃ s'', l1_access L1D exclusive exclusive_warm 0 = Some (s'', l1_hit_time L1D exclusive) ∧
         l1_tag_storage L1D s'' = l1_tag_storage L1D exclusive_warm.
Proof.
  apply (l1_access_then_hit L1D exclusive (init_cache exclusive blank) 0 exclusive_warm 56).
  - apply reach_init.
  - simpl. lia.
  - reflexivity.
  - by vm_compute.
Defined.

Lemma inclusion_clears_reported_block_witness :
  l1_probe L1D (scenario 1 1) warm16 (l2_evicted_addr warm16) = Some None.
Proof.
  apply (inclusion_clears_reported_block L1D (scenario 1 1) warm 16 warm16 56).
  - apply (reachable_wf _ _ warm_reachable).
  - simpl. lia.
  - by vm_compute.
  - simpl. lia.
  - by vm_compute.
  - reflexivity.
Defined.

Lemma l2_eviction_removes_victim_witness :
  ∃ bw iw row way victim,
    log2 (blocksize two_set_l2) = Some bw ∧ log2 (l2cacheSets two_set_l2) = Some iw ∧
    l2_tag_storage l2_warm !! index_of 12 bw (l2cacheSets two_set_l2) = Some row ∧
    row !! way = Some victim ∧ valid victim ∧
    l2_tag_storage l2_warm12 =
      <[index_of 12 bw (l2cacheSets two_set_l2) := <[way := tag_of 12 bw iw]> row]>
        (l2_tag_storage l2_warm) ∧
    (victim ∉ <[way := tag_of 12 bw iw]> row) ∧
    l2_evicted_addr l2_warm12 = evicted_address victim way bw iw ∧
    55 = wrap32 (l2cacheHitTime two_set_l2 + memspeed two_set_l2).
Proof.
  apply (l2_eviction_removes_victim two_set_l2 l2_warm 12 l2_warm12 55).
  - apply l2_warm_reachable.
  - by vm_compute.
  - reflexivity.
Defined.

Lemma l2_miss_replaces_first_oldest_witness :
  ∃ bw iw tags lru way s',
    log2 (blocksize one_set_each) = Some bw ∧ log2 (l2cacheSets one_set_each) = Some iw ∧
    l2_tag_storage (init_cache one_set_each blank) !! index_of 0 bw (l2cacheSets one_set_each)
      = Some tags ∧
    l2_lru_storage (init_cache one_set_each blank) !! index_of 0 bw (l2cacheSets one_set_each)
      = Some lru ∧
    first_oldest lru way ∧
    l2cache_access one_set_each (init_cache one_set_each blank) 0 =
      Some (s', wrap32 (l2cacheHitTime one_set_each + memspeed one_set_each)) ∧
    l2_tag_storage s' =
      <[index_of 0 bw (l2cacheSets one_set_each) := <[way := tag_of 0 bw iw]> tags]>
        (l2_tag_storage (init_cache one_set_each blank)) ∧
    l2_lru_storage s' =
      <[index_of 0 bw (l2cacheSets one_set_each) := <[way := 0]> ((λ v, wrap32 (v + 1)) <$> lru)]>
        (l2_lru_storage (init_cache one_set_each blank)) ∧
    (l2_did_evict s' = true ↔ ∃ v, tags !! way = Some v ∧ valid v).
Proof.
  apply (l2_miss_replaces_first_oldest one_set_each (init_cache one_set_each blank) 0).
  - unfold config_ok. simpl. lia.
  - apply reach_init.
  - simpl. lia.
  - by vm_compute.
Defined.

Lemma l1_miss_refills_first_oldest_witness :
  ∃ bw iw tags lru way s' t,
    log2 (blocksize exclusive) = Some bw ∧ log2 (l1_sets L1D exclusive) = Some iw ∧
    l1_tag_storage L1D (init_cache exclusive blank) !! index_of 0 bw (l1_sets L1D exclusive)
      = Some tags ∧
    l1_lru_storage L1D (init_cache exclusive blank) !! index_of 0 bw (l1_sets L1D exclusive)
      = Some lru ∧
    first_oldest lru way ∧
    (∀ j, lru !! j = Some UINT32_MAX → lru !! way = Some UINT32_MAX) ∧
    l1_access L1D exclusive (init_cache exclusive blank) 0 = Some (s', t) ∧
    l1_tag_storage L1D s' =
      <[index_of 0 bw (l1_sets L1D exclusive) := <[way := tag_of 0 bw iw]> tags]>
        (l1_tag_storage L1D (init_cache exclusive blank)) ∧
    l1_lru_storage L1D s' =
      <[index_of 0 bw (l1_sets L1D exclusive) := <[way := 0]> (age true <$> lru)]>
        (l1_lru_storage L1D (init_cache exclusive blank)).
Proof.
  apply (l1_miss_refills_first_oldest L1D exclusive (init_cache exclusive blank) 0).
  - unfold config_ok. simpl. lia.
  - apply reach_init.
  - simpl. lia.
  - reflexivity.
  - by vm_compute.
Defined.

Lemma l2_lru_evicts_first_witness :
  ∃ s1 s2 t,
    visit (l2cache_access one_set_each) (init_cache one_set_each blank) [0; 4] = Some s1 ∧
    l2_tag_storage s1 !! 0%nat = Some ((λ a, tag_of a 2 0) <$> [0; 4]) ∧
    l2cache_access one_set_each s1 8 = Some (s2, t) ∧
    l2_tag_storage s2 !! 0%nat = Some (<[0%nat := tag_of 8 2 0]> ((λ a, tag_of a 2 0) <$> [0; 4])).
Proof.
  apply (l2_lru_evicts_first one_set_each (init_cache one_set_each blank) 2 0 0 [0; 4] 8).
  - unfold config_ok. simpl. lia.
  - apply reach_init.
  - simpl. lia.
  - unfold UINT32_MAX. simpl. lia.
  - reflexivity.
  - reflexivity.
  - reflexivity.
  - reflexivity.
  - reflexivity.
  - repeat constructor.
  - compute_done.
Defined.

Lemma l2_lru_shields_witness :
  ∃ s1 s2 s3 t',
    visit (l2cache_access one_set_each) (init_cache one_set_each blank) [0; 4] = Some s1 ∧
    l2cache_access one_set_each s1 0 = Some (s2, l2cacheHitTime one_set_each) ∧
    l2cache_access one_set_each s2 8 = Some (s3, t') ∧
    l2_tag_storage s3 !! 0%nat =
      Some (<[(if decide (0%nat = 0%nat) then 1%nat else 0%nat) := tag_of 8 2 0]>
              ((λ a, tag_of a 2 0) <$> [0; 4])) ∧
    ∃ w, l2cache_probe one_set_each s3 0 = Some (Some w).
Proof.
  apply (l2_lru_shields one_set_each (init_cache one_set_each blank) 2 0 0 [0; 4] 0 0 8).
  - unfold config_ok. simpl. lia.
  - apply reach_init.
  - simpl. lia.
  - unfold UINT32_MAX. simpl. lia.
  - reflexivity.
  - reflexivity.
  - reflexivity.
  - reflexivity.
  - reflexivity.
  - repeat constructor.
  - compute_done.
  - reflexivity.
Defined.

Lemma l1_lru_evicts_first_witness :
  ∃ s1 s2 t,
    visit (l1_access L1D exclusive) (init_cache exclusive blank) [0; 4] = Some s1 ∧
    l1_tag_storage L1D s1 !! 0%nat = Some ((λ a, tag_of a 2 0) <$> [0; 4]) ∧
    l1_access L1D exclusive s1 8 = Some (s2, t) ∧
    l1_tag_storage L1D s2 !! 0%nat =
      Some (<[0%nat := tag_of 8 2 0]> ((λ a, tag_of a 2 0) <$> [0; 4])).
Proof.
  apply (l1_lru_evicts_first L1D exclusive (init_cache exclusive blank) 2 0 0 [0; 4] 8).
  - unfold config_ok. simpl. lia.
  - apply reach_init.
  - simpl. lia.
  - reflexivity.
  - unfold UINT32_MAX. simpl. lia.
  - reflexivity.
  - reflexivity.
  - reflexivity.
  - reflexivity.
  - reflexivity.
  - repeat constructor.
  - compute_done.
Defined.

Lemma l1_lru_shields_witness :
  ∃ s1 s2 s3 t',
    visit (l1_access L1D exclusive) (init_cache exclusive blank) [0; 4] = Some s1 ∧
    l1_access L1D exclusive s1 4 = Some (s2, l1_hit_time L1D exclusive) ∧
    l1_access L1D exclusive s2 8 = Some (s3, t') ∧
    l1_tag_storage L1D s3 !! 0%nat =
      Some (<[(if decide (1%nat = 0%nat) then 1%nat else 0%nat) := tag_of 8 2 0]>
              ((λ a, tag_of a 2 0) <$> [0; 4])) ∧
    ∃ w, l1_probe L1D exclusive s3 4 = Some (Some w).
Proof.
  apply (l1_lru_shields L1D exclusive (init_cache exclusive blank) 2 0 0 [0; 4] 1 4 8).
  - unfold config_ok. simpl. lia.
  - apply reach_init.
  - simpl. lia.
  - reflexivity.
  - unfold UINT32_MAX. simpl. lia.
  - reflexivity.
  - reflexivity.
  - reflexivity.
  - reflexivity.
  - reflexivity.
  - repeat constructor.
  - compute_done.
  - reflexivity.
Defined.

(** ** Sentinel ways after an L1 hit *)

Lemma run_reachable c s trace s' ts :
  reachable c s → run c s trace = Some (s', ts) → reachable c s'.
Proof.
  revert s s' ts. induction trace as [|a trace IH]; intros s s' ts Hr; simpl.
  - by intros [= <- _].
  - destruct (step c s a) as [[s1 t]|] eqn:Hstep; simpl; [|done].
    destruct (run c s1 trace) as [[s2 ts2]|] eqn:Hrun; simpl; [|done].
    intros [= <- _]. apply (IH s1 s2 ts2); [|done].
    destruct a; simpl in Hstep; [by eapply reach_icache | by eapply reach_dcache].
Qed.

Lemma hit_row_uint32 sentinel row w : Forall uint32 row → Forall uint32 (hit_row sentinel row w).
Proof.
  intros Hr. unfold hit_row. apply Forall_insert; [|apply uint32_0].
  apply Forall_fmap. eapply Forall_impl; [exact Hr|]. intros v Hv. by apply age_uint32.
Qed.

(** The victim scan of a miss that follows a hit: it returns, and the way it
    picks is at the sentinel as soon as some way other than the hit one was. *)
Lemma scan_after_hit row w j :
  Forall uint32 row → (w < length row)%nat → j ≠ w → row !! j = Some UINT32_MAX →
  ∃ e rest,
    scan true (hit_row true row w) 0 (length row) 0 0 = Some (e, rest) ∧
    e ≠ w ∧ hit_row true row w !! e = Some UINT32_MAX.
Proof.
  intros Hr Hw Hj Hmax.
  assert (length (hit_row true row w) = length row) as Hlen.
  { unfold hit_row. by rewrite length_insert, length_fmap. }
  destruct (scan_total true (hit_row true row w) 0 (length row) 0 0) as [[e rest] Hscan];
    [rewrite Hlen; lia|].
  exists e, rest. split; [done|].
  assert (hit_row true row w !! j = Some UINT32_MAX) as Hj'.
  { unfold hit_row. rewrite list_lookup_insert_ne by done.
    by rewrite list_lookup_fmap, Hmax. }
  assert (hit_row true row w !! e = Some UINT32_MAX) as He.
  { apply (first_oldest_sentinel _ _ j); [by apply hit_row_uint32| |done].
    apply (scan_first_oldest true _ _ rest); [by apply hit_row_uint32 | lia |].
    by rewrite Hlen. }
  split; [|done]. intros ->.
  unfold hit_row in He. rewrite list_lookup_insert_eq in He by (rewrite length_fmap; lia).
  discriminate He.
Qed.

(** C3, amended to the two L1 caches.  When an instruction or data access
    hits in way [w] of a set whose recency row is [row], the access returns
    the hit time and the row becomes [<[w := 0]> (age true <$> row)]: every
    way that held [UINT32_MAX] other than [w] still holds it, every other
    way but [w] is incremented, and way [w] holds 0.  A way at the sentinel
    therefore keeps sorting as the victim: the scan that the next miss in
    the set runs picks a way other than [w] that holds [UINT32_MAX]. *)
Theorem l1_hit_keeps_sentinel c s lvl addr w :
  wf c s → l1_sets lvl c ≠ 0 → l1_probe lvl c s addr = Some (Some w) →
  ∃ s' bw row row',
    log2 (blocksize c) = Some bw ∧
    l1_access lvl c s addr = Some (s', l1_hit_time lvl c) ∧
    l1_lru_storage lvl s !! index_of addr bw (l1_sets lvl c) = Some row ∧
    l1_lru_storage lvl s' !! index_of addr bw (l1_sets lvl c) = Some row' ∧
    row' = <[w := 0]> (age true <$> row) ∧
    keeps_sentinel row row' w ∧
    (∀ j v, j ≠ w → row !! j = Some v → v ≠ UINT32_MAX → row' !! j = Some (wrap32 (v + 1))) ∧
    row' !! w = Some 0 ∧
    (∀ j, Forall uint32 row → j ≠ w → row !! j = Some UINT32_MAX →
       ∃ e rest, scan true row' 0 (length row') 0 0 = Some (e, rest) ∧
                 e ≠ w ∧ row' !! e = Some UINT32_MAX).
Proof.
  intros Hwf Hz Hp.
  destruct (l1_hit c s lvl addr w Hwf Hz Hp) as (bw & row & Hbw & Hrow & Hacc).
  pose proof Hp as Hw.
  assert (w < length row)%nat as Hwlt.
  { destruct Hwf as (Hit & Hil & Hdt & Hdl & _).
    destruct lvl; simpl in *; apply probe_Some in Hw as (? & ? & ? & ? & ? & ? & Hf);
      apply find_tag_hit in Hf as [_ ?].
    - rewrite (rows_ok_lookup _ _ _ _ _ Hil Hrow). lia.
    - rewrite (rows_ok_lookup _ _ _ _ _ Hdl Hrow). lia. }
  eexists _, bw, row, (hit_row true row w).
  split; [done|]. split; [exact Hacc|]. split; [done|]. split.
  { apply lookup_lt_Some in Hrow.
    destruct lvl; simpl; by apply list_lookup_insert_eq. }
  split; [done|]. split.
  { intros j Hj Hmax. unfold hit_row.
    rewrite list_lookup_insert_ne by done.
    by rewrite list_lookup_fmap, Hmax. }
  split.
  { intros j v Hj Hv Hne. unfold hit_row.
    rewrite list_lookup_insert_ne by done.
    rewrite list_lookup_fmap, Hv. simpl. unfold age. simpl.
    by rewrite bool_decide_eq_false_2. }
  split.
  { unfold hit_row. apply list_lookup_insert_eq. by rewrite length_fmap. }
  intros j Hr Hj Hmax.
  replace (length (hit_row true row w)) with (length row)
    by (unfold hit_row; by rewrite length_insert, length_fmap).
  by apply (scan_after_hit row w j).
Qed.

Lemma l1_hit_keeps_sentinel_witness :
  ∃ s',
    l1_access L1D one_set_each at_sentinel 0 = Some (s', 1) ∧
    l1_lru_storage L1D at_sentinel !! 0%nat = Some [0; UINT32_MAX] ∧
    l1_lru_storage L1D s' !! 0%nat = Some [0; UINT32_MAX] ∧
    ∃ rest, scan true [0; UINT32_MAX] 0 2 0 0 = Some (1%nat, rest).
Proof.
  destruct (l1_hit_keeps_sentinel one_set_each at_sentinel L1D 0 0)
    as (s' & bw & row & row' & Hbw & Hacc & Hrow & Hrow' & Heq & _ & _ & _ & Hvictim).
  - unfold wf, rows_ok. simpl. repeat split; repeat constructor.
  - simpl. lia.
  - vm_compute. reflexivity.
  - injection Hbw as <-. injection Hrow as <-.
    exists s'. split; [exact Hacc|]. split; [reflexivity|].
    rewrite Heq in Hrow', Hvictim. split; [exact Hrow'|].
    destruct (Hvictim 1%nat) as (e & rest & Hscan & _ & _).
    + repeat constructor; unfold uint32, UINT32_MAX; lia.
    + done.
    + reflexivity.
    + exists rest. vm_compute in Hscan. injection Hscan as <- <-. reflexivity.
Defined.

(** ** A latency that does not fit 32 bits *)

(** C6 as stated fails in its last clause.  With a D-cache hit time of
    [UINT32_MAX] and a memory latency of 2 (both of them [uint32_t] values),
    the first data access is a full miss, the enabled hit times and the
    memory latency add up to 4294967297, and the access returns 1: the sum
    is formed in a [uint32_t]. *)
Lemma full_miss_latency_wraps :
  let c := slow_l1d in
  let s := init_cache c blank in
  config_ok c ∧ uint32 (dcacheHitTime c) ∧ uint32 (memspeed c) ∧
  full_miss L1D c s 0 ∧
  full_miss_cost L1D c = 4294967297 ∧
  snd <$> dcache_access c s 0 = Some 1.
Proof.
  intros c s. split_and!.
  - unfold config_ok. simpl. lia.
  - unfold uint32. simpl. lia.
  - unfold uint32. simpl. lia.
  - split; [right; by vm_compute | left; reflexivity].
  - reflexivity.
  - by vm_compute.
Qed.

(** ** A full set *)

Lemma capacity_and_distinctness_witness :
  l1d_tag_storage full_set = [[tag_of 20 2 0; tag_of 12 2 0]] ∧
  valid_tags [tag_of 20 2 0; tag_of 12 2 0] = [tag_of 20 2 0; tag_of 12 2 0] ∧
  (length (valid_tags [tag_of 20 2 0; tag_of 12 2 0]) ≤ Z.to_nat (dcacheAssoc one_set_each))%nat ∧
  NoDup (valid_tags [tag_of 20 2 0; tag_of 12 2 0]).
Proof.
  assert (reachable one_set_each full_set) as Hreach.
  { apply (run_reachable one_set_each (init_cache one_set_each blank)
             [Data 8; Data 12; Data 20] full_set [56; 56; 56]);
      [apply reach_init | by vm_compute]. }
  split; [reflexivity|]. split; [by vm_compute|].
  apply (proj1 (proj2 (capacity_and_distinctness one_set_each full_set Hreach))).
  simpl. by left.
Defined.

(** ** The address the L2 reports, decoded *)

Lemma lor_valid_bit addr :
  uint32 addr →
  uint32 (Z.lor addr VALID_BIT) ∧ (Z.lor addr VALID_BIT = addr ↔ VALID_BIT ≤ addr).
Proof.
  intros [Ha0 Ha]. unfold VALID_BIT, uint32 in *.
  destruct (decide (addr < 2147483648)) as [Hlt|Hge].
  - rewrite Z.lor_comm. change 2147483648 with (1 * 2 ^ 31).
    rewrite lor_disjoint by lia. lia.
  - assert (addr = 1 * 2 ^ 31 + (addr - 2 ^ 31)) as Hsplit by lia.
    assert (Z.lor addr 2147483648 = addr) as ->; [|lia].
    rewrite Hsplit at 1. rewrite <- lor_disjoint by lia.
    rewrite <- Z.lor_assoc, (Z.lor_comm (addr - 2 ^ 31)), Z.lor_assoc.
    change 2147483648 with (1 * 2 ^ 31). rewrite Z.lor_diag.
    rewrite lor_disjoint by lia. lia.
Qed.

(** X19.  For a 32-bit address [addr] and a way number below the number of
    sets, with [blocksize * sets] at most 2^32: the address the L2
    reconstructs from the tag of [addr] and the way is
    [(addr / (blocksize * sets) * sets + way) * blocksize], the block address
    with the way in place of the set index; when [blocksize = sets = 1] no
    shift drops the flag bit, which is then or-ed into that value.  The
    result is the block address of [addr] exactly when the way equals the
    set index of [addr] and, if [blocksize = sets = 1], [addr] has its top
    bit set. *)
Theorem evicted_address_round_trip addr way bw iw :
  uint32 addr → 0 ≤ bw → 0 ≤ iw → bw + iw ≤ 32 → Z.of_nat way < 2 ^ iw →
  evicted_address (tag_of addr bw iw) way bw iw =
    Z.lor ((addr / 2 ^ (bw + iw) * 2 ^ iw + Z.of_nat way) * 2 ^ bw)
          (if decide (bw + iw = 0) then VALID_BIT else 0) ∧
  (evicted_address (tag_of addr bw iw) way bw iw = addr / 2 ^ bw * 2 ^ bw ↔
   way = index_of addr bw (2 ^ iw) ∧ (bw + iw = 0 → VALID_BIT ≤ addr)).
Proof.
  intros Ha Hbw Hiw Hk Hway.
  destruct (decide (bw + iw = 0)) as [Hz|Hnz].
  - assert (bw = 0) as -> by lia. assert (iw = 0) as -> by lia.
    assert (way = 0%nat) as -> by (simpl in Hway; lia).
    destruct (lor_valid_bit addr Ha) as [Hu Hiff].
    assert (evicted_address (tag_of addr 0 0) 0 0 0 = Z.lor addr VALID_BIT) as ->.
    { unfold evicted_address, tag_of. simpl. rewrite !Z.shiftr_0_r, !Z.shiftl_0_r.
      rewrite !(wrap32_small (Z.lor addr VALID_BIT)) by done.
      change (wrap64 0) with 0. rewrite Z.lor_0_r. by apply wrap32_small. }
    simpl. rewrite Z.div_1_r, !Z.mul_1_r, Z.add_0_r.
    split; [done|]. change (2 ^ 0) with 1. rewrite Z.div_1_r, Hiff. split.
    + intros Hge. split; [|done].
      unfold index_of. change (wrap32 (1 - 1)) with 0. by rewrite Z.land_0_r.
    + intros [_ Hge]. by apply Hge.
  - rewrite Z.lor_0_r.
    rewrite evicted_address_sum by (done || lia).
    assert (0 < 2 ^ bw) by (apply Z.pow_pos_nonneg; lia).
    assert (0 < 2 ^ iw) by (apply Z.pow_pos_nonneg; lia).
    assert (2 ^ (bw + iw) = 2 ^ iw * 2 ^ bw) as Hkk
      by (rewrite <- Z.pow_add_r by lia; f_equal; lia).
    split; [rewrite Hkk; ring|].
    pose proof (index_of_pow2 addr bw iw Hbw ltac:(lia)) as Hidx.
    pose proof (Z.div_mod (addr / 2 ^ bw) (2 ^ iw) ltac:(lia)) as Hdm.
    rewrite Z.div_div, <- Z.pow_add_r in Hdm by lia.
    rewrite Hkk in *. split.
    + intros Heq. split; [|done]. apply Nat2Z.inj. rewrite Hidx. nia.
    + intros [-> _]. rewrite Hidx. nia.
Qed.

Lemma evicted_address_round_trip_witness :
  (evicted_address (tag_of 12 2 1) 0 2 1 = 8 ∧
   (evicted_address (tag_of 12 2 1) 0 2 1 = 12 / 2 ^ 2 * 2 ^ 2 ↔
    0%nat = index_of 12 2 (2 ^ 1) ∧ (2 + 1 = 0 → VALID_BIT ≤ 12))) ∧
  (evicted_address (tag_of 5 0 0) 0 0 0 = Z.lor 5 VALID_BIT ∧
   (evicted_address (tag_of 5 0 0) 0 0 0 = 5 / 2 ^ 0 * 2 ^ 0 ↔
    0%nat = index_of 5 0 (2 ^ 0) ∧ (0 + 0 = 0 → VALID_BIT ≤ 5))).
Proof.
  split.
  - apply (evicted_address_round_trip 12 0 2 1); unfold uint32; simpl; lia.
  - apply (evicted_address_round_trip 5 0 0 0); unfold uint32; simpl; lia.
Defined.
